(** * Satellite image service: retry, region cover, cell counts, worker pool

    A shallow embedding of the Go package [satservice]
    (service.go: [retry], [worker], [pool]; query.go: [getImageCount],
    [getImagesFromBucket]; geometry.go: [regionCover], [imagesByRegion])
    and the properties of its specification.

    Conventions.
    - Go's [int], [int64] and [time.Duration] are 64-bit two's complement
      integers: values are [Z], every arithmetic result goes through
      [GoInt.wrap].
    - A Go [error] is modelled by its message.
    - Goroutines and channels are modelled by a transition function on a
      state that holds every goroutine at its next channel operation; the
      scheduler is a list of choices, one per transition. *)

From Stdlib Require Import ZArith Lia Ascii DecimalString.
From stdpp Require Import base numbers list strings.

Open Scope Z_scope.

(* ================================================================= *)
(** ** Machine integers *)

Module GoInt.

Definition maxInt : Z := 2 ^ 63 - 1.
Definition minInt : Z := - 2 ^ 63.

Definition inRange (z : Z) : Prop := minInt <= z <= maxInt.

(** Two's complement reduction of a mathematical result. *)
Definition wrap (z : Z) : Z := (z + 2 ^ 63) mod 2 ^ 64 - 2 ^ 63.

Definition add (a b : Z) : Z := wrap (a + b).
Definition sub (a b : Z) : Z := wrap (a - b).
Definition mul (a b : Z) : Z := wrap (a * b).
(** Go's [/] truncates towards zero. *)
Definition quot (a b : Z) : Z := wrap (a ÷ b).

(** [%d] of [fmt]. *)
Definition show (z : Z) : string := NilZero.string_of_int (Z.to_int z).

End GoInt.

(** A Go [error] value, by its [Error()] text; [None] is [nil]. *)
Definition error : Type := string.

(* ================================================================= *)
(** ** service.go: retry *)

Module Retry.

(** What [retry] does to the outside world, in order. *)
Inductive event : Type :=
| Invoke                  (* callback() *)
| Int63n (n r : Z)        (* rand.Int63n(n) returned r *)
| Sleep (d : Z).          (* time.Sleep(d) *)

Inductive outcome : Type :=
| Nil                     (* return nil *)
| Err (msg : error)       (* return fmt.Errorf(...) *)
| Panic.                  (* rand.Int63n panics when n <= 0 *)

Record run (St : Type) : Type := mkRun {
  final : St;             (* state of the callback's captured variables *)
  trace : list event;
  result : outcome
}.
Arguments mkRun {St} _ _ _.
Arguments final {St} _.
Arguments trace {St} _.
Arguments result {St} _.

Definition before {St} (evs : list event) (r : run St) : run St :=
  mkRun (final r) (evs ++ trace r) (result r).

(** fmt.Errorf("after %d attempts, last error: %s", attempts, err) *)
Definition errorf (attempts : Z) (err : error) : error :=
  "after " +:+ GoInt.show attempts +:+ " attempts, last error: " +:+ err.

(** rand.Int63n(n) for [0 < n]: the accepted raw draw reduced modulo n. *)
Definition int63n (n raw : Z) : Z := raw mod n.

Section Loop.
Context {St : Type}.
(** The callback is a closure: it reads and writes captured variables
    ([St]) and returns an error or nil. *)
Variable callback : St -> St * option error.

(** The loop [for i := 0; ; i++] from the value [i] on.  [rnd] is the
    random source: [rnd 0] is the next raw draw. [fuel] bounds the number
    of iterations. *)
Fixpoint retry_loop (fuel : nat) (i attempts sleep : Z) (rnd : nat -> Z)
    (st : St) : option (run St) :=
  match fuel with
  | O => None
  | S fuel' =>
    let '(st', err) := callback st in
    match err with
    | None => Some (mkRun st' [Invoke] Nil)
    | Some e =>
      if i >=? GoInt.sub attempts 1 then
        Some (mkRun st' [Invoke] (Err (errorf attempts e)))
      else if sleep <=? 0 then
        Some (mkRun st' [Invoke] Panic)
      else
        let jitter := int63n sleep (rnd 0%nat) in
        let sleep' := GoInt.add sleep (GoInt.quot jitter 2) in
        before [Invoke; Int63n sleep jitter; Sleep sleep']
          <$> retry_loop fuel' (GoInt.add i 1) attempts sleep'
                (fun n => rnd (S n)) st'
    end
  end.

(** The loop leaves at the latest when [i] reaches [attempts - 1]. *)
Definition retry_fuel (attempts : Z) : nat :=
  S (Z.to_nat (GoInt.sub attempts 1)).

Definition retry (attempts sleep : Z) (rnd : nat -> Z) (st : St)
    : option (run St) :=
  retry_loop (retry_fuel attempts) 0 attempts sleep rnd st.

End Loop.

(** An operation given by the outcome of each of its invocations; the
    captured state counts the invocations made. *)
Definition counting (op : nat -> option error) : nat -> nat * option error :=
  fun n => (S n, op n).

Definition is_invoke (ev : event) : bool :=
  match ev with Invoke => true | _ => false end.

Definition invocations (tr : list event) : nat :=
  length (List.filter is_invoke tr).

Definition sleeps (tr : list event) : list Z :=
  omap (fun ev => match ev with Sleep d => Some d | _ => None end) tr.

(** The shape of a trace that backs off from [baseDelay]: every draw is
    made on the current delay, half of it (the jitter added) lies in
    [0, delay/2), the sleep that follows lasts the delay plus that jitter,
    and this sum is the delay of the next round. *)
Fixpoint backoff (baseDelay : Z) (tr : list event) : Prop :=
  match tr with
  | [] => True
  | Invoke :: tr' => backoff baseDelay tr'
  | Int63n n r :: Sleep d :: tr' =>
      n = baseDelay /\ 0 <= r ÷ 2 /\ 2 * (r ÷ 2) < baseDelay /\
      d = baseDelay + r ÷ 2 /\ backoff d tr'
  | _ => False
  end.

Fixpoint nondecreasing (l : list Z) : Prop :=
  match l with
  | a :: (b :: _) as l' => a <= b /\ nondecreasing l'
  | _ => True
  end.

(** The delay [retry] has reached after [m] rounds of backoff from
    [sleep], with the draws [rnd]: the value of its variable [sleep] when
    it calls [rand.Int63n] for the round after these. *)
Fixpoint delayAt (m : nat) (sleep : Z) (rnd : nat -> Z) : Z :=
  match m with
  | O => sleep
  | S m' =>
    delayAt m' (GoInt.add sleep (GoInt.quot (int63n sleep (rnd 0%nat)) 2))
      (fun n => rnd (S n))
  end.

(** What lies between the invocations of a trace that backs off from
    [baseDelay] with the draws [rnd]: before every further invocation one
    draw on the current delay and one sleep; the jitter is the draw
    reduced to [0, delay), half of it lies in [0, delay/2), the sleep
    lasts the delay plus that half, and this sum is the delay of the next
    round. *)
Fixpoint rounds (baseDelay : Z) (rnd : nat -> Z) (tr : list event) : Prop :=
  match tr with
  | [] => True
  | Int63n n jitter :: Sleep d :: Invoke :: tr' =>
      n = baseDelay /\ jitter = int63n baseDelay (rnd 0%nat) /\
      0 <= jitter < baseDelay /\
      0 <= jitter ÷ 2 /\ 2 * (jitter ÷ 2) < baseDelay /\
      d = baseDelay + jitter ÷ 2 /\
      rounds d (fun n => rnd (S n)) tr'
  | _ => False
  end.

Definition paced (baseDelay : Z) (rnd : nat -> Z) (tr : list event) : Prop :=
  exists tr', tr = Invoke :: tr' /\ rounds baseDelay rnd tr'.

(** In every round of the trace the delay plus the jitter fits a 64-bit
    duration. *)
Definition fits (tr : list event) : Prop :=
  Forall (fun ev => match ev with
                    | Int63n n jitter => n + jitter ÷ 2 <= GoInt.maxInt
                    | _ => True
                    end) tr.

(** One draw and one sleep before every invocation but the first, and
    nothing after the last. *)
Fixpoint alternating (tr : list event) : Prop :=
  match tr with
  | [] => True
  | Int63n _ _ :: Sleep _ :: Invoke :: tr' => alternating tr'
  | _ => False
  end.

Definition interleaved (tr : list event) : Prop :=
  exists tr', tr = Invoke :: tr' /\ alternating tr'.

(** An operation that fails [k] times with "down" and then succeeds. *)
Definition fails_first (k : nat) : nat -> option error :=
  fun n => if (n <? k)%nat then Some "down"%string else None.

End Retry.

(* ================================================================= *)
(** ** geometry.go: regionCover *)

Module Geometry.

(** The part of github.com/golang/geo/s2 that [regionCover] calls.  The
    library is not part of the repository: its types are abstract and its
    functions are taken as given. *)
Class S2 : Type := {
  float64 : Type;
  LatLng : Type;
  Point : Type;
  Loop : Type;
  Polygon : Type;
  CellID : Type;
  LatLngFromDegrees : float64 -> float64 -> LatLng;
  PointFromLatLng : LatLng -> Point;
  LoopFromPoints : list Point -> Loop;
  PolygonFromLoops : list Loop -> Polygon;
  (** (&RegionCoverer{MaxLevel: maxLevel, MaxCells: maxCells}).Covering *)
  Covering : Z -> Z -> Polygon -> list CellID
}.

Section RegionCover.
Context `{S2}.

(** s2.PointFromLatLng(s2.LatLngFromDegrees(lat, lng)) *)
Definition pointAt (lat lng : float64) : Point :=
  PointFromLatLng (LatLngFromDegrees lat lng).

(** The loop [for len(coords) > 0] that parses coordinates into points.
    [None] is the run-time panic of [coords[1]] on a slice of length 1. *)
Fixpoint pairPoints (coords : list float64) (points : list Point)
    : option (list Point) :=
  match coords with
  | [] => Some points
  | lat :: rest =>
    match rest with
    | [] => None
    | lng :: rest' =>
      let p := pointAt lat lng in
      pairPoints rest' (points ++ [p])
    end
  end.

Definition coverOf (points : list Point) (maxLevel maxCells : Z)
    : list CellID :=
  let l1 := LoopFromPoints points in
  let loops := [l1] in
  let poly := PolygonFromLoops loops in
  Covering maxLevel maxCells poly.

Definition regionCover (coords : list float64) (maxLevel maxCells : Z)
    : option (list CellID) :=
  points ← pairPoints coords [];
  Some (coverOf points maxLevel maxCells).

End RegionCover.

(** A stand-in for the library, to run [regionCover] on concrete input:
    coordinates are integers (degrees), a point is its pair of
    coordinates, and the coverer answers one cell per vertex. *)
Definition toyS2 : S2 := {|
  float64 := Z;
  LatLng := Z * Z;
  Point := Z * Z;
  Loop := list (Z * Z);
  Polygon := list (list (Z * Z));
  CellID := nat;
  LatLngFromDegrees := fun lat lng => (lat, lng);
  PointFromLatLng := fun ll => ll;
  LoopFromPoints := fun pts => pts;
  PolygonFromLoops := fun loops => loops;
  Covering := fun _ _ poly => seq 0 (length (concat poly))
|}.

End Geometry.

(* ================================================================= *)
(** ** query.go: getImageCount; geometry.go: imagesByRegion *)

Module Dispatcher.

Definition bucketGranuleSize : Z := 13.

(** What BigQuery answers to one count query.  [query.Read] fails or
    hands out a row iterator; each [rows.Next(&row)] loads a row (given by
    its first column, an int64) or fails; at the end of the list
    [rows.Next] answers [iterator.Done]. *)
Inductive nextResult : Type :=
| Row (v : Z)
| NextErr (e : error).

Inductive readResult : Type :=
| ReadErr (e : error)
| Rows (its : list nextResult).

(** A [getImageCount] goroutine, at its next channel operation. *)
Inductive task : Type :=
| AtReadErr (e : error)
    (* [errors <- err] after [query.Read] failed; [rows] is nil *)
| AtNextErr (e : error) (count : Z) (row : option Z) (rest : list nextResult)
    (* [errors <- err] after [rows.Next] failed *)
| AtCount (count : Z)
    (* [channel <- count] *)
| Panicked
    (* at an operation that panics: [rows.Next] on the nil iterator,
       [row[0]] of the empty row, a send on the closed channel *)
| Finished.

(** The [for] loop of [getImageCount] from its head, up to the next
    channel operation.  [row] is the slice [row]: [None] while empty. *)
Fixpoint loop (count : Z) (row : option Z) (its : list nextResult) : task :=
  match its with
  | [] => AtCount count                             (* iterator.Done *)
  | NextErr e :: rest => AtNextErr e count row rest
  | Row v :: rest => loop (GoInt.add count v) (Some v) rest
  end.

Definition getImageCount (answer : readResult) : task :=
  match answer with
  | ReadErr e => AtReadErr e
  | Rows its => loop 0 None its
  end.

(** The goroutine once its error has been received: there is no [return]
    after [errors <- err].  After a failed [query.Read] it calls [Next] on
    the nil iterator; inside the loop it reads [row[0]], which panics on
    the empty slice and otherwise adds the previous row again. *)
Definition afterErrSend (t : task) : task :=
  match t with
  | AtReadErr _ => Panicked
  | AtNextErr _ count None _ => Panicked
  | AtNextErr _ count (Some v) rest => loop (GoInt.add count v) (Some v) rest
  | _ => t
  end.

(** The error a goroutine is trying to send, if any. *)
Definition reports (t : task) : option error :=
  match t with
  | AtReadErr e | AtNextErr e _ _ _ => Some e
  | _ => None
  end.

(** [imagesByRegion] itself: in its [select], between the receive of an
    error and its [return], or returned; [Died] when a panic has ended the
    process before it could return. *)
Inductive mainState : Type :=
| Collecting (todo : nat) (imageCount : Z)
    (* [todo] iterations of [for range cover] to go, this one included *)
| Received (err : error)
    (* [err := <-errChan] has taken the error; [return 0, err] is next *)
| Returned (ret : Z * option error)
| Died.

Record state : Type := mkState {
  tasks : list task;
  results : list Z;       (* the buffered channel [results] *)
  closed : bool;          (* close(results) *)
  main : mainState
}.

(** Head of the loop [for range cover]: wait in [select], or leave the
    loop, close the channel and return the scaled count. *)
Definition await (todo : nat) (imageCount : Z) (ts : list task) (res : list Z)
    : state :=
  match todo with
  | O => mkState ts res true
           (Returned (GoInt.mul imageCount bucketGranuleSize, None))
  | S _ => mkState ts res false (Collecting todo imageCount)
  end.

Section ImagesByRegion.
Context {Cell : Type}.
(** BigQuery's answer to the count query on a cell's bounding rectangle. *)
Variable answer : Cell -> readResult.

(** State after the goroutines have been started; [newClient] is the
    error of [bigquery.NewClient], if any. *)
Definition imagesByRegion (newClient : option error) (cover : list Cell)
    : state :=
  match newClient with
  | Some err => mkState [] [] false (Returned (0, Some err))
  | None =>
    await (length cover) 0 ((fun c => getImageCount (answer c)) <$> cover) []
  end.
End ImagesByRegion.

(** The scheduler's choices. *)
Inductive choice : Type :=
| TaskSends (i : nat)     (* goroutine [i] completes [channel <- count] *)
| RecvCount               (* [select] takes [count := <-results] *)
| RecvErr (i : nat)       (* [select] takes [err := <-errChan] from [i] *)
| Return                  (* [return 0, err] *)
| Panics (i : nat).       (* goroutine [i] panics *)

(** One transition.  The send [errors <- err] and the receive in [select]
    are one transition of the unbuffered channel; the goroutine then goes
    on on its own ([afterErrSend]) while [imagesByRegion] has still to
    return.  The panic of a goroutine is not recovered: it ends the
    process with every goroutine in it.  The process is followed as long
    as the call of [imagesByRegion] lasts: once the call has returned, a
    goroutine at a panic stays as it is. *)

Definition step (c : choice) (s : state) : option state :=
  match c with
  | TaskSends i =>
    match tasks s !! i with
    | Some (AtCount count) =>
      if closed s then
        Some (mkState (<[i:=Panicked]> (tasks s)) (results s) true (main s))
      else if (length (results s) <? length (tasks s))%nat then
        Some (mkState (<[i:=Finished]> (tasks s)) (results s ++ [count])
                false (main s))
      else None
    | _ => None
    end
  | RecvCount =>
    match main s, results s with
    | Collecting (S todo) imageCount, count :: rest =>
      Some (await todo (GoInt.add imageCount count) (tasks s) rest)
    | _, _ => None
    end
  | RecvErr i =>
    match main s, tasks s !! i with
    | Collecting (S _) _, Some t =>
      match reports t with
      | Some err =>
        Some (mkState (<[i:=afterErrSend t]> (tasks s)) (results s) (closed s)
                (Received err))
      | None => None
      end
    | _, _ => None
    end
  | Return =>
    match main s with
    | Received err =>
      Some (mkState (tasks s) (results s) (closed s) (Returned (0, Some err)))
    | _ => None
    end
  | Panics i =>
    match tasks s !! i, main s with
    | Some Panicked, (Collecting _ _ | Received _) =>
      Some (mkState [] [] (closed s) Died)
    | _, _ => None
    end
  end.

Fixpoint run (cs : list choice) (s : state) : option state :=
  match cs with
  | [] => Some s
  | c :: cs' => s' ← step c s; run cs' s'
  end.

(** Under every schedule [imagesByRegion] returns [ret]: no schedule goes
    on forever, as long as the function has not returned some transition
    is possible (so the process has not died), and whenever it has
    returned the value is [ret]. *)
Definition alwaysReturns (s0 : state) (ret : Z * option error) : Prop :=
  (exists bound, forall cs s, run cs s0 = Some s -> (length cs <= bound)%nat) /\
  (forall cs s, run cs s0 = Some s ->
     (exists v, main s = Returned v) \/ (exists c s', step c s = Some s')) /\
  (forall cs s v, run cs s0 = Some s -> main s = Returned v -> v = ret).

Definition sumZ (l : list Z) : Z := foldr Z.add 0 l.

(** *** Measures and invariants of the schedules *)

(** Every transition uses up part of a finite budget. *)
Definition weight (t : task) : nat :=
  match t with
  | AtReadErr _ => 1
  | AtNextErr _ _ _ _ => 3
  | AtCount _ => 2
  | Panicked | Finished => 0
  end.

Definition mainWeight (m : mainState) : nat :=
  match m with
  | Collecting _ _ => 2
  | Received _ => 1
  | Returned _ | Died => 0
  end.

Definition budget (s : state) : nat :=
  sum_list (weight <$> tasks s) + length (results s) + mainWeight (main s).

(** A goroutine that has not completed its send. *)
Definition busy (t : task) : nat :=
  match t with Finished => 0 | _ => 1 end.

(** The count a goroutine is about to send. *)
Definition owed (t : task) : Z :=
  match t with AtCount count => count | _ => 0 end.

(** A goroutine of a query that met no error. *)
Definition quiet (t : task) : Prop :=
  t = Finished \/ exists count, t = AtCount count.

(** Invariant of the schedules in which every query succeeds, [total]
    being the sum of the counts. *)
Definition summing (total : Z) (s : state) : Prop :=
  Forall quiet (tasks s) /\
  match main s with
  | Collecting todo imageCount =>
      closed s = false /\
      (0 < todo <= length (tasks s))%nat /\
      todo = (sum_list (busy <$> tasks s) + length (results s))%nat /\
      GoInt.wrap (imageCount + sumZ (results s) + sumZ (owed <$> tasks s)) = GoInt.wrap total
  | Returned v =>
      v = (GoInt.wrap (total * bucketGranuleSize), None) /\
      sum_list (busy <$> tasks s) = 0%nat
  | Received _ | Died => False
  end.

(** *** Sample answers *)

(** The answers of the specification's example: three cells counting 3, 5
    and 2 granules. *)
Definition exampleAnswer (cell : nat) : readResult :=
  Rows [Row (nth cell [3; 5; 2] 0)].



End Dispatcher.

(* ================================================================= *)
(** ** query.go: getImagesFromBucket; service.go: worker, pool *)

Module Pool.

(** strings.SplitAfter(s, sep) for a non-empty [sep]: [piece] is the
    substring being built, [skip] the characters of a found [sep] still to
    copy into it. *)
Fixpoint splitAfterFrom (sep s piece : string) (skip : nat) : list string :=
  match s with
  | EmptyString => [piece]
  | String ch rest =>
    let skip := if (skip =? 0)%nat && String.prefix sep s
                then String.length sep else skip in
    match skip with
    | 1%nat => (piece +:+ String ch "") :: splitAfterFrom sep rest "" 0
    | _ => splitAfterFrom sep rest (piece +:+ String ch "") (Nat.pred skip)
    end
  end.

Definition SplitAfter (s sep : string) : list string :=
  splitAfterFrom sep s "" 0.

Fixpoint trimLeftSlash (s : string) : string :=
  match s with
  | String "/"%char rest => trimLeftSlash rest
  | _ => s
  end.

(** strings.Trim(s, "/") *)
Definition TrimSlash (s : string) : string :=
  String.rev (trimLeftSlash (String.rev (trimLeftSlash s))).

(** type Result struct { Links []string; Error error } *)
Record Result : Type := mkResult {
  Links : list string;
  Error : option error
}.

Definition emptyResult : Result := mkResult [] None.

(** What the storage iterator [it.Next()] answers: the attributes of the
    next object (its name) or an error; [iterator.Done] at the end. *)
Inductive attrResult : Type :=
| Attr (name : string)
| AttrErr (e : error).

(** The loop of [getImagesFromBucket]: returns [links, nil] or [nil, err]. *)
Fixpoint listObjects (bucketName : string) (its : list attrResult)
    (links : list string) : list string * option error :=
  match its with
  | [] => (links, None)
  | AttrErr e :: _ => ([], Some e)
  | Attr name :: rest =>
      listObjects bucketName rest (links ++ [bucketName +:+ "/" +:+ name])
  end.

(** DefaultRetry(): MaxRetries 5, Duration 10, times time.Second. *)
Definition defaultMaxRetries : Z := 5.
Definition defaultSleep : Z := GoInt.mul 10 1000000000.

Section Worker.
(** The bucket: what the [call]-th listing made for one job answers, by
    bucket name and object prefix. *)
Variable objects : string -> string -> nat -> list attrResult.
(** The random source of [retry]. *)
Variable rnd : nat -> Z.

Definition getImagesFromBucket (bucketName objectName : string) (call : nat)
    : list string * option error :=
  listObjects bucketName (objects bucketName objectName call) [].

(** The first three lines of the loop body; [None] is the panic of
    [linkAndGranule[1]] when the link does not contain the bucket name. *)
Definition splitLink (imgLink : string) : option (string * string) :=
  let linkAndGranule := SplitAfter imgLink "gcp-public-data-sentinel-2" in
  bucketName ← linkAndGranule !! 0%nat;
  granule ← linkAndGranule !! 1%nat;
  Some (bucketName, TrimSlash granule).

(** The closure handed to [retry]: it assigns the captured [result]; the
    state also counts the listings made for this job. *)
Definition again (bucketName imageObject : string)
    (st : nat * list string) : (nat * list string) * option error :=
  let '(result, err) := getImagesFromBucket bucketName imageObject (fst st) in
  ((S (fst st), result), err).

(** One iteration of [for imgLink := range jobs]; [None] is a panic. *)
Definition runJob (imgLink : string) (folderImages : Result) : option Result :=
  '(bucketName, imageObject) ← splitLink imgLink;
  let '(result, err) := getImagesFromBucket bucketName imageObject 0 in
  match err with
  | None => Some (mkResult result (Error folderImages))
  | Some _ =>
    r ← Retry.retry (again bucketName imageObject) defaultMaxRetries
          defaultSleep rnd (1%nat, result);
    match Retry.result r with
    | Retry.Nil => Some (mkResult (snd (Retry.final r)) (Error folderImages))
    | Retry.Err msg => Some (mkResult (snd (Retry.final r)) (Some msg))
    | Retry.Panic => None
    end
  end.

(** A worker goroutine at its next channel operation.  [consumed] is a
    history variable: the links the worker has received so far. *)
Inductive worker : Type :=
| Ranging (folderImages : Result) (consumed : list string)
    (* [for imgLink := range jobs] *)
| Sending (folderImages : Result) (consumed : list string)
    (* [results <- folderImages] *)
| Exited (folderImages : Result) (consumed : list string)
| Crashed.

(** [pool] itself. *)
Inductive poolMain : Type :=
| Feeding (links : list string)
    (* [jobs <- imgLink] for the first of [links]; [jobs] is open *)
| Gathering (todo : nat) (imageResult : Result)
    (* [result := <-results], [todo] iterations to go; [jobs] is closed *)
| Done (imageResult : Result).

Record state : Type := mkState {
  numberOfJobs : nat;
  workers : list worker;
  main : poolMain
}.

(** Head of the loop that sends the jobs: at its end [jobs] is closed and
    the loop [for i := 0; i <= numberOfJobs; i++] over the results starts. *)
Definition feed (n : nat) (ws : list worker) (links : list string) : state :=
  match links with
  | [] => mkState n ws (Gathering (S n) emptyResult)
  | _ :: _ => mkState n ws (Feeding links)
  end.

(** Head of the loop that collects the results. *)
Definition gather (n : nat) (ws : list worker) (todo : nat) (imageResult : Result)
    : state :=
  match todo with
  | O => mkState n ws (Done imageResult)
  | S _ => mkState n ws (Gathering todo imageResult)
  end.

(** State after [numberOfJobs + 1] workers have been started; [newClient]
    is the error of [storage.NewClient], if any. *)
Definition pool (newClient : option error) (links : list string) : state :=
  let numberOfJobs := length links in
  match newClient with
  | Some err => mkState numberOfJobs [] (Done (mkResult [] (Some err)))
  | None =>
    feed numberOfJobs (replicate (S numberOfJobs) (Ranging emptyResult [])) links
  end.

Definition jobsClosed (s : state) : bool :=
  match main s with Feeding _ => false | _ => true end.

(** The scheduler's choices. *)
Inductive choice : Type :=
| Deliver (w : nat)      (* worker [w] receives the link [pool] is sending *)
| LeaveLoop (w : nat)    (* worker [w] finds [jobs] closed *)
| Collect (w : nat).     (* [pool] receives the Result worker [w] is sending *)

Definition step (c : choice) (s : state) : option state :=
  match c with
  | Deliver w =>
    match main s, workers s !! w with
    | Feeding (imgLink :: rest), Some (Ranging folderImages consumed) =>
      let after :=
        match runJob imgLink folderImages with
        | Some folderImages' => Ranging folderImages' (consumed ++ [imgLink])
        | None => Crashed
        end in
      Some (feed (numberOfJobs s) (<[w:=after]> (workers s)) rest)
    | _, _ => None
    end
  | LeaveLoop w =>
    match workers s !! w with
    | Some (Ranging folderImages consumed) =>
      if jobsClosed s then
        Some (mkState (numberOfJobs s)
                (<[w:=Sending folderImages consumed]> (workers s)) (main s))
      else None
    | _ => None
    end
  | Collect w =>
    match main s, workers s !! w with
    | Gathering (S todo) imageResult, Some (Sending result consumed) =>
      Some (gather (numberOfJobs s)
              (<[w:=Exited result consumed]> (workers s)) todo
              (mkResult (Links imageResult ++ Links result) (Error imageResult)))
    | _, _ => None
    end
  end.

Fixpoint run (cs : list choice) (s : state) : option state :=
  match cs with
  | [] => Some s
  | c :: cs' => s' ← step c s; run cs' s'
  end.

(** The object links of one job: what [folderImages.Links] holds after the
    iteration for [imgLink]. *)
Definition jobLinks (imgLink : string) : list string :=
  match runJob imgLink emptyResult with
  | Some folderImages => Links folderImages
  | None => []
  end.

(** The links a worker holds after the jobs [consumed]: those of the last. *)
Definition lastLinks (consumed : list string) : list string :=
  match last consumed with
  | Some imgLink => jobLinks imgLink
  | None => []
  end.

(** *** Invariant of the schedules *)

(** A link from which the worker can take a bucket name and an object
    prefix: it contains "gcp-public-data-sentinel-2". *)
Definition wellFormed (imgLink : string) : Prop := is_Some (splitLink imgLink).

(** A worker holds the links of the last job it received. *)
Definition payload (x : worker) : Prop :=
  match x with
  | Ranging fi consumed | Sending fi consumed | Exited fi consumed =>
      Links fi = lastLinks consumed
  | Crashed => True
  end.

Definition ranging (x : worker) : Prop :=
  exists fi consumed, x = Ranging fi consumed.

Definition alive (x : worker) : nat :=
  match x with Exited _ _ => 0 | _ => 1 end.

(** Every link collected so far is a link of the last job of a worker that
    has sent its Result. *)
Definition fromLast (ws : list worker) (r : Result) : Prop :=
  forall x, x ∈ Links r ->
    exists w fi consumed imgLink,
      ws !! w = Some (Exited fi consumed) /\
      last consumed = Some imgLink /\
      x ∈ jobLinks imgLink.

Definition inv (n : nat) (s : state) : Prop :=
  numberOfJobs s = n /\
  length (workers s) = S n /\
  Forall payload (workers s) /\
  Forall (fun x => x <> Crashed) (workers s) /\
  match main s with
  | Feeding links =>
      links <> [] /\ Forall wellFormed links /\ Forall ranging (workers s)
  | Gathering todo r =>
      (0 < todo)%nat /\ todo = sum_list (alive <$> workers s) /\
      fromLast (workers s) r
  | Done r =>
      sum_list (alive <$> workers s) = 0%nat /\ fromLast (workers s) r
  end.

End Worker.

Definition isCollect (w : nat) (c : choice) : bool :=
  match c with Collect w' => (w =? w')%nat | _ => false end.

(** How many Results worker [w] has sent in a schedule. *)
Definition sent (w : nat) (cs : list choice) : nat :=
  length (List.filter (isCollect w) cs).

(** *** Measures of the schedules *)

Definition weight (x : worker) : nat :=
  match x with
  | Ranging _ _ => 2
  | Sending _ _ => 1
  | Exited _ _ | Crashed => 0
  end.

Definition waiting (m : poolMain) : nat :=
  match m with Feeding links => length links | _ => 0 end.

Definition budget (s : state) : nat :=
  waiting (main s) + sum_list (weight <$> workers s).

Definition hasExited (w : nat) (s : state) : nat :=
  match workers s !! w with Some (Exited _ _) => 1 | _ => 0 end.

(** *** Sample bucket *)

(** A bucket with two objects under tiles/A and one under tiles/B. *)
Definition exampleBucket (bucketName prefix : string) (call : nat)
    : list attrResult :=
  if String.eqb prefix "tiles/A" then [Attr "tiles/A/a1.jp2"; Attr "tiles/A/a2.jp2"]
  else if String.eqb prefix "tiles/B" then [Attr "tiles/B/b1.jp2"]
  else [].

Definition linkA : string := "gcp-public-data-sentinel-2/tiles/A/".
Definition linkB : string := "gcp-public-data-sentinel-2/tiles/B/".

End Pool.

(* ================================================================= *)
(** ** service.go: RequestRetrySession, NewRetry, DefaultRetry *)

Module Session.

(** type RequestRetrySession struct { MaxRetries int; Duration time.Duration } *)
Record RequestRetrySession : Type := mkSession {
  MaxRetries : Z;
  Duration : Z
}.

Definition NewRetry (retries duration : Z) : RequestRetrySession :=
  mkSession retries duration.

Definition DefaultRetry : RequestRetrySession := mkSession 5 10.

(** time.Second, in nanoseconds. *)
Definition Second : Z := 1000000000.

(** The call made by [parse] and by [worker]:
    retry(s.MaxRetries, s.Duration*time.Second, callback). *)
Definition retryWith {St} (s : RequestRetrySession)
    (callback : St -> St * option error) (rnd : nat -> Z) (st : St)
    : option (Retry.run St) :=
  Retry.retry callback (MaxRetries s) (GoInt.mul (Duration s) Second) rnd st.

(** Time slept in a trace, in nanoseconds. *)
Definition totalSleep (tr : list Retry.event) : Z :=
  foldr Z.add 0 (Retry.sleeps tr).

End Session.

(* ================================================================= *)
(** ** geometry.go: normalizeCoords; query.go: getImageBaseURL *)

Module Coords.

Section Normalize.
Context {float64 : Type}.
(** The zero value that [make([]float64, len(vs))] fills the slice with. *)
Variable zero : float64.
(** The conversion handed in, [strconv.ParseFloat] in [parse]. *)
Variable f : string -> Z -> float64 + error.

(** The loop [for i, v := range vs] from index [i] on; returns [vsm, nil]
    or [nil, err]. *)
Fixpoint normalizeFrom (i : nat) (vs : list string) (vsm : list float64)
    : list float64 * option error :=
  match vs with
  | [] => (vsm, None)
  | v :: rest =>
    match f v (-1) with
    | inr err => ([], Some err)
    | inl x => normalizeFrom (S i) rest (<[i:=x]> vsm)
    end
  end.

Definition normalizeCoords (vs : list string) : list float64 * option error :=
  normalizeFrom 0 vs (replicate (length vs) zero).

End Normalize.

(** A conversion to run [normalizeCoords] on concrete input: the strings
    "1", "2" and "3" convert, everything else is a syntax error. *)
Definition sampleParse (s : string) (bitSize : Z) : Z + error :=
  if String.eqb s "1" then inl 1
  else if String.eqb s "2" then inl 2
  else if String.eqb s "3" then inl 3
  else inr ("invalid syntax: " +:+ s).

End Coords.

Module Query.

Fixpoint dropString (n : nat) (s : string) : string :=
  match n, s with
  | S n', String _ rest => dropString n' rest
  | _, _ => s
  end.

(** strings.Replace(s, old, new, 1) for a non-empty [old]. *)
Fixpoint replaceFirst (old new s : string) : string :=
  if String.prefix old s then new +:+ dropString (String.length old) s
  else match s with
       | EmptyString => EmptyString
       | String ch rest => String ch (replaceFirst old new rest)
       end.

(** What [rows.Next(&row)] answers to [getImageBaseURL]: a row (base_url,
    granule_id) or an error; [iterator.Done] at the end of the list. *)
Inductive rowResult : Type :=
| UrlRow (base_url granule_id : string)
| RowErr (e : error).

Inductive readResult : Type :=
| ReadErr (e : error)
| Rows (its : list rowResult).

(** fullImageURL of one row *)
Definition fullImageURL (base_url granule_id : string) : string :=
  let imageBaseURL := replaceFirst "gs://" "" base_url in
  imageBaseURL +:+ "/GRANULE/" +:+ granule_id +:+ "/IMG_DATA/".

(** The loop of [getImageBaseURL]: [links, nil] at [iterator.Done],
    [nil, err] at an error. *)
Fixpoint collectLinks (its : list rowResult) (links : list string)
    : list string * option error :=
  match its with
  | [] => (links, None)
  | RowErr e :: _ => ([], Some e)
  | UrlRow base_url granule_id :: rest =>
      collectLinks rest (links ++ [fullImageURL base_url granule_id])
  end.

(** [newClient] is the error of [bigquery.NewClient], if any; [answer] what
    [query.Read] returns. *)
Definition getImageBaseURL (newClient : option error) (answer : readResult)
    : list string * option error :=
  match newClient with
  | Some err => ([], Some err)
  | None =>
    match answer with
    | ReadErr err => ([], Some err)
    | Rows its => collectLinks its []
    end
  end.

(** A row of the Sentinel-2 index: its base_url lies in the public bucket. *)
Definition inBucket (it : rowResult) : Prop :=
  match it with
  | UrlRow base_url _ =>
      exists path, base_url = "gs://gcp-public-data-sentinel-2" +:+ path
  | RowErr _ => False
  end.

(** A bucket whose listing of tiles/C fails twice before it answers. *)
Definition flakyBucket (bucketName prefix : string) (call : nat)
    : list Pool.attrResult :=
  if (call <? 2)%nat then [Pool.AttrErr "503 backend error"]
  else [Pool.Attr "tiles/C/c1.jp2"].

End Query.

(* ================================================================= *)
(** ** imagesByRegion: what holds under every schedule, whatever the
       queries answer *)

Module Collecting.
Import Dispatcher.

Definition finished (t : task) : nat :=
  match t with Finished => 1 | _ => 0 end.

(** Goroutine [i] is as it was started ([ts0]), or it was started at
    [channel <- count] and has completed that send. *)
Definition untouched (ts0 : list task) (s : state) (i : nat) : Prop :=
  forall t, tasks s !! i = Some t ->
    ts0 !! i = Some t \/
    (t = Finished /\ exists count, ts0 !! i = Some (AtCount count)).

Definition coherent (ts0 : list task) (s : state) : Prop :=
  (main s <> Died -> length (tasks s) = length ts0) /\
  (length (results s) <= sum_list (finished <$> tasks s))%nat /\
  match main s with
  | Collecting todo _ =>
      closed s = false /\
      (forall i, untouched ts0 s i) /\
      (todo + sum_list (finished <$> tasks s) =
       length (results s) + length ts0)%nat
  | Received e =>
      closed s = false /\
      exists i0 t0, ts0 !! i0 = Some t0 /\ reports t0 = Some e /\
                    forall i, i <> i0 -> untouched ts0 s i
  | Returned (_, None) =>
      closed s = true /\ results s = [] /\
      (forall i t, tasks s !! i = Some t -> t = Finished) /\
      (forall i t, ts0 !! i = Some t -> reports t = None)
  | Returned (count, Some e) =>
      closed s = false /\ count = 0 /\
      exists i0 t0, ts0 !! i0 = Some t0 /\ reports t0 = Some e /\
                    forall i, i <> i0 -> untouched ts0 s i
  | Died => tasks s = [] /\ results s = []
  end.

(** A goroutine that reaches no panic, also once its error has been
    received: it is not at [errors <- err] with a nil iterator or an
    empty row. *)
Definition sturdy (t : task) : Prop :=
  match t with
  | AtReadErr _ | AtNextErr _ _ None _ | Panicked => False
  | AtNextErr _ _ (Some _) _ | AtCount _ | Finished => True
  end.

(** Under every schedule [imagesByRegion] returns: no schedule goes on
    forever and, as long as the function has not returned, some
    transition is possible. *)
Definition returnsAlways (s0 : state) : Prop :=
  (exists bound, forall cs s, run cs s0 = Some s -> (length cs <= bound)%nat) /\
  (forall cs s, run cs s0 = Some s ->
     (exists v, main s = Returned v) \/ (exists c s', step c s = Some s')).

(** The goroutines as [imagesByRegion] starts them. *)
Definition started {Cell} (answer : Cell -> readResult) (cover : list Cell)
    : list task :=
  (fun c => getImageCount (answer c)) <$> cover.

(** Three cells; the queries of the first and the last fail, the last one
    after a first row. *)
Definition twoFailures (cell : nat) : readResult :=
  match cell with
  | 0%nat => ReadErr "timeout"
  | 2%nat => Rows [Row 4; NextErr "quota exceeded"]
  | _ => Rows [Row 7]
  end.

End Collecting.

(* ================================================================= *)
(** ** pool: where the jobs and the Results go *)

Module Ledger.
Import Pool.

(** The links a worker has received from [jobs]. *)
Definition consumedBy (x : worker) : list string :=
  match x with
  | Ranging _ consumed | Sending _ consumed | Exited _ consumed => consumed
  | Crashed => []
  end.

(** The value of the worker's [folderImages.Error]. *)
Definition carried (x : worker) : option error :=
  match x with
  | Ranging fi _ | Sending fi _ | Exited fi _ => Error fi
  | Crashed => None
  end.

(** The links of the Result a worker has sent. *)
Definition delivered (x : worker) : list string :=
  match x with Exited fi _ => Links fi | _ => [] end.

(** The links [pool] has still to send. *)
Definition pending (m : poolMain) : list string :=
  match m with Feeding links => links | _ => [] end.

(** The value of [imageResult]. *)
Definition collected (m : poolMain) : Result :=
  match m with
  | Feeding _ => emptyResult
  | Gathering _ imageResult | Done imageResult => imageResult
  end.

Definition ledger (links : list string) (s : state) : Prop :=
  concat (consumedBy <$> workers s) ++ pending (main s) ≡ₚ links /\
  Links (collected (main s)) ≡ₚ concat (delivered <$> workers s) /\
  Error (collected (main s)) = None.

(** A worker that has received a job carries the error of [retry]. *)
Definition failedJob (x : worker) : Prop :=
  consumedBy x <> [] ->
  exists e, carried x = Some ("after 5 attempts, last error: " +:+ e).

(** A worker that has received no job carries no error. *)
Definition idleClean (x : worker) : Prop :=
  consumedBy x = [] -> carried x = None.

(** A bucket every listing of which fails. *)
Definition outage (bucketName prefix : string) (call : nat)
    : list attrResult :=
  [AttrErr "storage: service unavailable"].

End Ledger.

(* ================================================================= *)
(** ** service.go: the patterns Latitude and Longitude *)

Module Regexp.

(** The fragment of Go's regexp syntax the two patterns use.  A pattern
    [^r$] is kept as [r]: without flags [^] and [$] match at the two
    ends of the text only, so [MatchString] holds when the whole string
    is in the language of [r].  Strings are sequences of bytes; the
    classes and literals of the patterns are ASCII, so that a byte of a
    multi-byte rune matches none of them. *)
Inductive re : Type :=
| Void
| Eps
| Class (lo hi : ascii)          (* [lo-hi] *)
| Cat (r1 r2 : re)
| Alt (r1 r2 : re)               (* r1|r2 *)
| Star (r : re).                 (* r* *)

Definition Lit (c : ascii) : re := Class c c.
Definition Opt (r : re) : re := Alt r Eps.          (* r? *)
Definition Plus (r : re) : re := Cat r (Star r).    (* r+ *)

Definition inClass (lo hi c : ascii) : bool :=
  (nat_of_ascii lo <=? nat_of_ascii c)%nat &&
  (nat_of_ascii c <=? nat_of_ascii hi)%nat.

Fixpoint nullable (r : re) : bool :=
  match r with
  | Void => false
  | Eps => true
  | Class _ _ => false
  | Cat r1 r2 => nullable r1 && nullable r2
  | Alt r1 r2 => nullable r1 || nullable r2
  | Star _ => true
  end.

(** The strings that, after [c], complete a match of [r]. *)
Fixpoint deriv (c : ascii) (r : re) : re :=
  match r with
  | Void | Eps => Void
  | Class lo hi => if inClass lo hi c then Eps else Void
  | Cat r1 r2 =>
      if nullable r1 then Alt (Cat (deriv c r1) r2) (deriv c r2)
      else Cat (deriv c r1) r2
  | Alt r1 r2 => Alt (deriv c r1) (deriv c r2)
  | Star r1 => Cat (deriv c r1) (Star r1)
  end.

Fixpoint matches (r : re) (s : string) : bool :=
  match s with
  | EmptyString => nullable r
  | String c rest => matches (deriv c r) rest
  end.

(** regexp.MustCompile("^r$").MatchString(s) *)
Definition MatchString (r : re) (s : string) : bool := matches r s.

Definition digit : re := Class "0" "9".                       (* \d *)
Definition sign : re := Opt (Alt (Lit "-") (Lit "+")).        (* [-+]? *)
Definition fraction : re := Opt (Cat (Lit ".") (Plus digit)). (* (\.\d+)? *)
Definition zeros : re := Opt (Cat (Lit ".") (Plus (Lit "0"))). (* (\.0+)? *)

(** "^[-+]?([1-8]?\\d(\\.\\d+)?|90(\\.0+)?)$" *)
Definition Latitude : re :=
  Cat sign
    (Alt (Cat (Opt (Class "1" "8")) (Cat digit fraction))
         (Cat (Lit "9") (Cat (Lit "0") zeros))).

(** "^[-+]?(180(\\.0+)?|((1[0-7]\\d)|([1-9]?\\d))(\\.\\d+)?)$" *)
Definition Longitude : re :=
  Cat sign
    (Alt (Cat (Lit "1") (Cat (Lit "8") (Cat (Lit "0") zeros)))
         (Cat (Alt (Cat (Lit "1") (Cat (Class "0" "7") digit))
                   (Cat (Opt (Class "1" "9")) digit))
              fraction)).

(** *** The language of a pattern, and the shape of a numeral *)

Definition flatten (ps : list string) : string := foldr String.append "" ps.

Fixpoint lang (r : re) (s : string) : Prop :=
  match r with
  | Void => False
  | Eps => s = ""
  | Class lo hi => exists c, s = String c "" /\ inClass lo hi c = true
  | Cat r1 r2 => exists s1 s2, s = s1 +:+ s2 /\ lang r1 s1 /\ lang r2 s2
  | Alt r1 r2 => lang r1 s \/ lang r2 s
  | Star r1 => exists ps, s = flatten ps /\ Forall (lang r1) ps
  end.

Fixpoint allIn (lo hi : ascii) (s : string) : bool :=
  match s with
  | EmptyString => true
  | String c rest => inClass lo hi c && allIn lo hi rest
  end.

(** The number a string of decimal digits denotes. *)
Fixpoint valueFrom (acc : nat) (s : string) : nat :=
  match s with
  | EmptyString => acc
  | String c rest => valueFrom (10 * acc + (nat_of_ascii c - 48)) rest
  end.

Definition value (s : string) : nat := valueFrom 0 s.

Definition isSign (s : string) : Prop := s = "" \/ s = "-" \/ s = "+".

(** Nothing, or a point followed by at least one digit between ["0"] and
    [hi]. *)
Definition isFraction (hi : ascii) (s : string) : Prop :=
  s = "" \/ exists d, s = "." +:+ d /\ d <> "" /\ allIn "0" hi d = true.

(** No leading zero: one digit, or a first digit other than ["0"]. *)
Definition canonical (int : string) : Prop :=
  String.length int = 1%nat \/
  exists c rest, int = String c rest /\ c <> "0"%char.

(** [s] is a decimal numeral, an optional sign, one to [width] digits
    without leading zero and an optional fraction, that denotes a number
    of absolute value at most [bound]. *)
Definition numeralWithin (width bound : nat) (s : string) : Prop :=
  exists sg int fr,
    s = sg +:+ int +:+ fr /\ isSign sg /\
    allIn "0" "9" int = true /\ (1 <= String.length int <= width)%nat /\
    canonical int /\ isFraction "9" fr /\
    ((value int < bound)%nat \/ (value int = bound /\ isFraction "0" fr)).

End Regexp.

(* ================================================================= *)
(** ** converter.go: convertAddressToCoords; query.go: getLinks;
       service.go: the handlers images and area *)

Module Handlers.
Import Regexp.

(** type appError struct { Error error; Message string; Code int } *)
Record appError : Type := mkAppError {
  Error : option error;
  Message : string;
  Code : Z
}.

Definition StatusBadRequest : Z := 400.
Definition StatusInternalServerError : Z := 500.

(** What a call does: it panics, or it returns. *)
Inductive outcome (A : Type) : Type :=
| Panics
| Returns (a : A).
Arguments Panics {A}.
Arguments Returns {A} a.

(** *** convertAddressToCoords *)

Section Converter.
Context {float64 : Type}.
(** strconv.FormatFloat(x, 'f', 6, 64) *)
Variable format6 : float64 -> string.

(** What the Geocoding API request for an address comes to: [client.Get]
    fails, the body does not decode, or it decodes to a geoResponse with
    these locations (Lat, Lng) in its Results. *)
Inductive geocoded : Type :=
| GetErr (e : error)
| DecodeErr (e : error)
| Decoded (results : list (float64 * float64)).

Definition convertAddressToCoords (address : string) (answer : geocoded)
    : outcome (string * string * option error) :=
  if String.eqb address "" then
    Returns ("", "", Some "Invalid address input")
  else
    match answer with
    | GetErr err | DecodeErr err => Returns ("", "", Some err)
    | Decoded [] => Panics                       (* res.Results[0] *)
    | Decoded ((lat, lng) :: _) => Returns (format6 lat, format6 lng, None)
    end.
End Converter.

(** *** getLinks *)

(** What [rows.Next(&row)] answers to [getLinks]: a row (granule_id) or an
    error; [iterator.Done] at the end of the list. *)
Inductive idResult : Type :=
| IdRow (granule_id : string)
| IdErr (e : error).

Inductive idRead : Type :=
| IdReadErr (e : error)
| IdRows (its : list idResult).

Fixpoint collectIds (its : list idResult) (links : list string)
    : list string * option error :=
  match its with
  | [] => (links, None)
  | IdErr e :: _ => ([], Some e)
  | IdRow granule_id :: rest => collectIds rest (links ++ [granule_id])
  end.

(** [newClient] is the error of [bigquery.NewClient], if any.  The error
    of [query.Read] is not looked at: [rows] is then nil and [rows.Next]
    panics. *)
Definition getLinks (newClient : option error) (answer : idRead)
    : outcome (list string * option error) :=
  match newClient with
  | Some err => Returns ([], Some err)
  | None =>
    match answer with
    | IdReadErr _ => Panics
    | IdRows its => Returns (collectIds its [])
    end
  end.

(** *** The handlers *)

Section Handlers.
Context {float64 : Type}.
Variable format6 : float64 -> string.
(** [r.ParseForm()] and [r.Form.Get]. *)
Variable parseForm : option error.
Variable Form : string -> string.
(** The Geocoding API, by address. *)
Variable geocode : string -> geocoded (float64 := float64).
(** [bigquery.NewClient], and BigQuery's answers to the query with the
    given coordinates spliced in. *)
Variable newClient : option error.
Variable granules : string -> string -> idRead.
Variable folders : string -> string -> string -> string -> Query.readResult.
(** [json.NewEncoder(w).Encode] of the links and of the count. *)
Variable encodeLinks : list string -> option error.
Variable encodeCount : Z -> option error.
(** The Result [pool] returns for these links. *)
Variable pool : list string -> Pool.Result.

Definition invalidCoordinates : appError :=
  mkAppError (Some "Invalid coordinates")
    "Please provide a valid latitude and longitude" StatusBadRequest.

Definition images : outcome (option appError) :=
  match parseForm with
  | Some err =>
    Returns (Some (mkAppError (Some err) "Cannot parse data"
                     StatusInternalServerError))
  | None =>
    let address := Form "address" in
    match convertAddressToCoords format6 address (geocode address) with
    | Panics => Panics
    | Returns (lat, lng, err) =>
      let '(lat, lng) :=
        match err with
        | Some _ => (Form "lat", Form "lng")
        | None => (lat, lng)
        end in
      let validLat := MatchString Latitude lat in
      let validLng := MatchString Longitude lng in
      if negb validLat && negb validLng then Returns (Some invalidCoordinates)
      else
        match getLinks newClient (granules lat lng) with
        | Panics => Panics
        | Returns (links, Some err) =>
          Returns (Some (mkAppError (Some err) "Unable to retrieve links"
                           StatusInternalServerError))
        | Returns (links, None) =>
          match encodeLinks links with
          | Some err =>
            Returns (Some (mkAppError (Some err) "Unable to map JSON to response"
                             StatusInternalServerError))
          | None => Returns None
          end
        end
    end
  end.

Definition invalidBands : appError :=
  mkAppError (Some "Invalid coordinates")
    ("Please provide a valid pair of latitude and longitude bands " +:+
     String "010"
       " Example: https://tvao-178408.appspot.com/area?lat1=55.698473&lng1=12.506052&lat2=55.616879&lng2=12.652524")
    StatusBadRequest.

(** [area] after the validation. *)
Definition countImages (lat1 lng1 lat2 lng2 : string) : option appError :=
  match Query.getImageBaseURL newClient (folders lat1 lng1 lat2 lng2) with
  | (_, Some err) =>
    Some (mkAppError (Some err) "Unable to retrieve granulelinks"
            StatusInternalServerError)
  | (links, None) =>
    let imageResult := pool links in
    match Pool.Error imageResult with
    | Some err =>
      Some (mkAppError (Some err) "Could not fetch pictures from granules"
              StatusInternalServerError)
    | None =>
      match encodeCount (Z.of_nat (length (Pool.Links imageResult))) with
      | Some _ =>
        (* the appError is built from [err], which is nil here *)
        Some (mkAppError None "Unable to encode JSON" StatusInternalServerError)
      | None => None
      end
    end
  end.

Definition area : option appError :=
  match parseForm with
  | Some err =>
    Some (mkAppError (Some err) "Cannot parse data" StatusInternalServerError)
  | None =>
    let lat1 := Form "lat1" in
    let lng1 := Form "lng1" in
    let lat2 := Form "lat2" in
    let lng2 := Form "lng2" in
    if negb (MatchString Latitude lat1) || negb (MatchString Latitude lat2) ||
       negb (MatchString Longitude lng1) || negb (MatchString Longitude lng2)
    then Some invalidBands
    else countImages lat1 lng1 lat2 lng2
  end.

End Handlers.

(** A request for the box of the example in the message of [area]; its
    parameter lng is no longitude. *)
Definition exampleForm (key : string) : string :=
  if String.eqb key "lat1" then "55.698473"
  else if String.eqb key "lng1" then "12.506052"
  else if String.eqb key "lat2" then "55.616879"
  else if String.eqb key "lng2" then "12.652524"
  else if String.eqb key "lat" then "55.698473"
  else if String.eqb key "lng" then "0 OR TRUE"
  else "".

(** One row of the Sentinel-2 index. *)
Definition exampleRows : list Query.rowResult :=
  [Query.UrlRow "gs://gcp-public-data-sentinel-2/tiles/33/U/UP/S2A.SAFE"
     "S2A_T33UUP"].

End Handlers.

(* ================================================================= *)
(** * Properties *)

(** ** Machine integers *)

Module GoIntFacts.
Import GoInt.

Lemma wrap_inRange z : inRange (wrap z).
Proof.
  unfold inRange, wrap, minInt, maxInt.
  pose proof (Z.mod_pos_bound (z + 2 ^ 63) (2 ^ 64)). lia.
Qed.

Lemma wrap_id z : inRange z -> wrap z = z.
Proof.
  unfold inRange, wrap, minInt, maxInt. intros Hz.
  rewrite Z.mod_small; lia.
Qed.

Lemma wrap_eqm z : wrap z mod 2 ^ 64 = z mod 2 ^ 64.
Proof.
  unfold wrap.
  rewrite Zminus_mod, Zmod_mod, <- Zminus_mod. f_equal. lia.
Qed.

Lemma wrap_congr a b : a mod 2 ^ 64 = b mod 2 ^ 64 -> wrap a = wrap b.
Proof.
  intros H. unfold wrap. f_equal.
  rewrite (Zplus_mod a), (Zplus_mod b), H. reflexivity.
Qed.

End GoIntFacts.

(* ================================================================= *)
(** ** Retry executor *)

Module RetryFacts.
Import GoInt GoIntFacts Retry.

Lemma invocations_app tr1 tr2 :
  invocations (tr1 ++ tr2) = (invocations tr1 + invocations tr2)%nat.
Proof. unfold invocations. rewrite List.filter_app, length_app. reflexivity. Qed.

Lemma sub_one attempts :
  minInt < attempts <= maxInt -> sub attempts 1 = attempts - 1.
Proof. intros H. apply wrap_id. unfold inRange, minInt, maxInt in *. lia. Qed.

(** One round of backoff: the drawn jitter, halved, stays below half the
    delay, and the new delay is the exact sum when it fits. *)
Lemma round_bounds sleep raw :
  0 < sleep -> 2 * sleep <= maxInt ->
  let jitter := int63n sleep raw in
  0 <= jitter ÷ 2 /\ 2 * (jitter ÷ 2) < sleep /\
  add sleep (quot jitter 2) = sleep + jitter ÷ 2.
Proof.
  intros Hpos Hfit jitter.
  assert (Hj : 0 <= jitter < sleep) by (apply Z.mod_pos_bound; lia).
  assert (Hq : jitter ÷ 2 = jitter / 2) by (apply Z.quot_div_nonneg; lia).
  assert (Hd : 0 <= jitter / 2 /\ 2 * (jitter / 2) <= jitter).
  { split; [apply Z.div_pos; lia | apply Z.mul_div_le; lia]. }
  rewrite Hq. unfold add, quot. rewrite Hq.
  unfold maxInt in Hfit.
  rewrite (wrap_id (jitter / 2)) by (unfold inRange, minInt, maxInt; lia).
  rewrite wrap_id by (unfold inRange, minInt, maxInt; lia).
  lia.
Qed.

Lemma pow2_step sleep k :
  0 < sleep -> 0 <= k -> sleep * 2 ^ (k + 1) <= maxInt ->
  2 * sleep <= maxInt /\ forall d, d <= 2 * sleep -> d * 2 ^ k <= maxInt.
Proof.
  intros Hpos Hk Hfit. rewrite Z.pow_add_r, Z.pow_1_r in Hfit by lia.
  assert (Hp : 1 <= 2 ^ k) by (apply (Z.pow_le_mono_r 2 0 k); lia).
  split; [nia |]. intros d Hd. nia.
Qed.

Section Generic.
Context {St : Type}.
Variable callback : St -> St * option error.

(** The loop returns within the iterations left before [i] reaches
    [attempts - 1], and has called the operation by then. *)
Lemma retry_loop_total fuel : forall i attempts sleep rnd st,
  inRange i -> (Z.to_nat (sub attempts 1 - i) < fuel)%nat ->
  exists r, retry_loop callback fuel i attempts sleep rnd st = Some r /\
            (1 <= invocations (trace r))%nat.
Proof.
  induction fuel as [|fuel IH]; intros i attempts sleep rnd st Hi Hfuel;
    [lia |].
  simpl. destruct (callback st) as [st' [e|]]; [| eexists; split; [reflexivity | unfold invocations; simpl; lia]].
  destruct (Z.geb_spec i (sub attempts 1)) as [Hge|Hlt];
    [eexists; split; [reflexivity | unfold invocations; simpl; lia] |].
  destruct (Z.leb_spec sleep 0) as [Hs|Hs];
    [eexists; split; [reflexivity | unfold invocations; simpl; lia] |].
  pose proof (wrap_inRange (attempts - 1)) as Ha. fold (sub attempts 1) in Ha.
  assert (Hi1 : add i 1 = i + 1).
  { apply wrap_id. unfold inRange, minInt, maxInt in *. lia. }
  destruct (IH (add i 1) attempts
              (add sleep (quot (int63n sleep (rnd 0%nat)) 2))
              (fun n => rnd (S n)) st') as (r & Hr & Hinv).
  { rewrite Hi1. unfold inRange, minInt, maxInt in *. lia. }
  { rewrite Hi1. lia. }
  rewrite Hr. eexists; split; [reflexivity |].
  unfold before. cbn [trace]. rewrite invocations_app. lia.
Qed.

Lemma retry_total attempts sleep rnd st :
  exists r, retry callback attempts sleep rnd st = Some r /\
            (1 <= invocations (trace r))%nat.
Proof.
  apply retry_loop_total; [unfold inRange, minInt, maxInt; lia |].
  unfold retry_fuel. lia.
Qed.

(** With [attempts - 1 <= i] the loop body runs once. *)
Lemma retry_loop_last fuel i attempts sleep rnd st :
  sub attempts 1 <= i ->
  retry_loop callback (S fuel) i attempts sleep rnd st =
  Some (match callback st with
        | (st', None) => mkRun st' [Invoke] Nil
        | (st', Some e) => mkRun st' [Invoke] (Err (errorf attempts e))
        end).
Proof.
  intros Hle. simpl. destruct (callback st) as [st' [e|]]; [| reflexivity].
  destruct (Z.geb_spec i (sub attempts 1)); [reflexivity | lia].
Qed.

(** Shape of the trace from round [i] on, as long as the delay of the
    remaining rounds fits the machine integer. *)
Lemma retry_loop_backoff fuel : forall i attempts sleep rnd st r,
  inRange i -> minInt < attempts <= maxInt ->
  sleep * 2 ^ Z.max 0 (attempts - 1 - i) <= maxInt ->
  retry_loop callback fuel i attempts sleep rnd st = Some r ->
  backoff sleep (trace r) /\
  Forall (fun d => sleep <= d) (sleeps (trace r)) /\
  nondecreasing (sleeps (trace r)).
Proof.
  induction fuel as [|fuel IH]; intros i attempts sleep rnd st r Hi Ha Hfit Hrun;
    [discriminate |].
  simpl in Hrun. rewrite sub_one in Hrun by assumption.
  destruct (callback st) as [st' [e|]];
    [| injection Hrun as <-; simpl; auto].
  destruct (Z.geb_spec i (attempts - 1)) as [Hge|Hlt];
    [injection Hrun as <-; simpl; auto |].
  destruct (Z.leb_spec sleep 0) as [Hs|Hs];
    [injection Hrun as <-; simpl; auto |].
  assert (Hi1 : add i 1 = i + 1).
  { apply wrap_id. unfold inRange, minInt, maxInt in *. lia. }
  rewrite Hi1 in Hrun.
  replace (Z.max 0 (attempts - 1 - i)) with (Z.max 0 (attempts - 1 - (i + 1)) + 1)
    in Hfit by lia.
  apply pow2_step in Hfit as [H2 Hnext]; [| lia | lia].
  destruct (round_bounds sleep (rnd 0%nat) Hs H2) as (HJ0 & HJ1 & Hsum).
  rewrite Hsum in Hrun.
  destruct (retry_loop callback fuel (i + 1) attempts _ _ st') as [r'|] eqn:Hr';
    [| discriminate].
  injection Hrun as <-.
  apply IH in Hr' as (Hb & Hall & Hnd);
    [| unfold inRange, minInt, maxInt in *; lia | assumption | apply Hnext; lia].
  unfold before; simpl. split; [auto |]. split.
  - constructor; [lia |]. eapply Forall_impl; [exact Hall |]. simpl. lia.
  - destruct (sleeps (trace r')) as [|d ds] eqn:Hd; [exact I |].
    split; [| exact Hnd]. inversion Hall; subst. assumption.
Qed.

(** With a positive delay that fits, [rand.Int63n] is never called on a
    bound it rejects. *)
Lemma retry_loop_no_panic fuel : forall i attempts sleep rnd st r,
  inRange i -> minInt < attempts <= maxInt -> 0 < sleep ->
  sleep * 2 ^ Z.max 0 (attempts - 1 - i) <= maxInt ->
  retry_loop callback fuel i attempts sleep rnd st = Some r ->
  result r <> Panic.
Proof.
  induction fuel as [|fuel IH]; intros i attempts sleep rnd st r Hi Ha Hs Hfit Hrun;
    [discriminate |].
  simpl in Hrun. rewrite sub_one in Hrun by assumption.
  destruct (callback st) as [st' [e|]];
    [| injection Hrun as <-; discriminate].
  destruct (Z.geb_spec i (attempts - 1)) as [Hge|Hlt];
    [injection Hrun as <-; discriminate |].
  destruct (Z.leb_spec sleep 0) as [Hs'|_]; [lia |].
  assert (Hi1 : add i 1 = i + 1).
  { apply wrap_id. unfold inRange, minInt, maxInt in *. lia. }
  rewrite Hi1 in Hrun.
  replace (Z.max 0 (attempts - 1 - i)) with (Z.max 0 (attempts - 1 - (i + 1)) + 1)
    in Hfit by lia.
  apply pow2_step in Hfit as [H2 Hnext]; [| lia | lia].
  destruct (round_bounds sleep (rnd 0%nat) Hs H2) as (HJ0 & HJ1 & Hsum).
  rewrite Hsum in Hrun.
  destruct (retry_loop callback fuel (i + 1) attempts _ _ st') as [r'|] eqn:Hr';
    [| discriminate].
  injection Hrun as <-. unfold before. cbn [result].
  apply IH in Hr'; auto; try lia.
  - unfold inRange, minInt, maxInt in *. lia.
  - apply Hnext. lia.
Qed.

(** The retry of the workers, [retry(5, 10 * time.Second, ...)], returns
    nil or an error. *)
Lemma retry_default rnd st :
  exists r, retry callback 5 (mul 10 1000000000) rnd st = Some r /\
            result r <> Panic.
Proof.
  destruct (retry_total 5 (mul 10 1000000000) rnd st) as (r & Hr & _).
  exists r. split; [exact Hr |].
  apply retry_loop_no_panic in Hr; auto.
  - unfold inRange, minInt, maxInt. lia.
  - unfold minInt, maxInt. lia.
  - vm_compute. reflexivity.
  - vm_compute. discriminate.
Qed.

End Generic.

(** *** The rounds of a trace *)

Lemma jitter_bounds sleep raw :
  0 < sleep ->
  0 <= int63n sleep raw < sleep /\
  0 <= int63n sleep raw ÷ 2 /\ 2 * (int63n sleep raw ÷ 2) < sleep.
Proof.
  intros Hpos.
  assert (Hj : 0 <= int63n sleep raw < sleep) by (apply Z.mod_pos_bound; lia).
  assert (Hq : int63n sleep raw ÷ 2 = int63n sleep raw / 2)
    by (apply Z.quot_div_nonneg; lia).
  rewrite Hq. split; [exact Hj |].
  split; [apply Z.div_pos; lia |].
  pose proof (Z.mul_div_le (int63n sleep raw) 2). lia.
Qed.

(** A round whose sum fits adds without wrap-around. *)
Lemma round_exact sleep raw :
  0 < sleep -> sleep + int63n sleep raw ÷ 2 <= maxInt ->
  add sleep (quot (int63n sleep raw) 2) = sleep + int63n sleep raw ÷ 2.
Proof.
  intros Hpos Hfit. destruct (jitter_bounds sleep raw Hpos) as (Hj & Hq0 & Hq1).
  unfold add, quot. unfold maxInt in Hfit.
  rewrite (wrap_id (int63n sleep raw ÷ 2))
    by (unfold inRange, minInt, maxInt; lia).
  apply wrap_id. unfold inRange, minInt, maxInt. lia.
Qed.

(** Growth by less than one half per round: what fits after [m + 1]
    rounds of growth by one half fits after one round, with [m] rounds
    to spare. *)
Lemma grow_step s q (m : nat) :
  0 < s -> 0 <= q -> 2 * q < s ->
  s * 3 ^ Z.of_nat (S m) <= maxInt * 2 ^ Z.of_nat (S m) ->
  s + q <= maxInt /\ (s + q) * 3 ^ Z.of_nat m <= maxInt * 2 ^ Z.of_nat m.
Proof.
  intros Hs Hq Hlt Hfit.
  rewrite !Nat2Z.inj_succ, !Z.pow_succ_r in Hfit by lia.
  assert (HB : 0 < 2 ^ Z.of_nat m) by (apply Z.pow_pos_nonneg; lia).
  assert (HAB : 2 ^ Z.of_nat m <= 3 ^ Z.of_nat m)
    by (apply Z.pow_le_mono_l; lia).
  revert Hfit HB HAB. generalize (3 ^ Z.of_nat m) (2 ^ Z.of_nat m).
  intros A B Hfit HB HAB.
  assert (HM : 0 < maxInt) by (unfold maxInt; lia).
  assert (H2 : (s + q) * A <= maxInt * B) by nia.
  split; [| exact H2]. nia.
Qed.

Lemma delayAt_positive (m : nat) : forall sleep rnd,
  0 < sleep -> sleep * 3 ^ Z.of_nat m <= maxInt * 2 ^ Z.of_nat m ->
  forall i, (i <= m)%nat -> 0 < delayAt i sleep rnd.
Proof.
  induction m as [|m IH]; intros sleep rnd Hs Hfit i Hi.
  - replace i with 0%nat by lia. exact Hs.
  - destruct i as [|i]; [exact Hs |]. cbn [delayAt].
    destruct (jitter_bounds sleep (rnd 0%nat) Hs) as (Hj & Hq0 & Hq1).
    destruct (grow_step sleep _ m Hs Hq0 Hq1 Hfit) as [Hsum Hnext].
    rewrite round_exact by assumption.
    apply IH; [lia | exact Hnext | lia].
Qed.

Section Generic.
Context {St : Type}.
Variable callback : St -> St * option error.

Lemma sleeps_step n jitter d tr :
  sleeps (Int63n n jitter :: Sleep d :: Invoke :: tr) = d :: sleeps tr.
Proof. reflexivity. Qed.

Lemma retry_loop_invokes fuel i attempts sleep rnd st r :
  retry_loop callback fuel i attempts sleep rnd st = Some r ->
  (1 <= invocations (trace r))%nat.
Proof.
  destruct fuel as [|fuel]; [discriminate |]. simpl.
  destruct (callback st) as [st' [e|]];
    [| intros [= <-]; unfold invocations; simpl; lia].
  destruct (_ >=? _); [intros [= <-]; unfold invocations; simpl; lia |].
  destruct (_ <=? _); [intros [= <-]; unfold invocations; simpl; lia |].
  destruct (retry_loop callback fuel _ _ _ _ st') as [r'|]; [| discriminate].
  intros [= <-]. unfold before. cbn [trace]. rewrite invocations_app.
  unfold invocations at 1. simpl. lia.
Qed.

(** One draw and one sleep before each further invocation, whatever the
    delays are. *)
Lemma retry_loop_alternating fuel : forall i attempts sleep rnd st r,
  retry_loop callback fuel i attempts sleep rnd st = Some r ->
  interleaved (trace r).
Proof.
  induction fuel as [|fuel IH]; intros i attempts sleep rnd st r Hrun;
    [discriminate |].
  simpl in Hrun. destruct (callback st) as [st' [e|]];
    [| injection Hrun as <-; exists []; split; [reflexivity | exact I]].
  destruct (_ >=? _);
    [injection Hrun as <-; exists []; split; [reflexivity | exact I] |].
  destruct (_ <=? _);
    [injection Hrun as <-; exists []; split; [reflexivity | exact I] |].
  destruct (retry_loop callback fuel _ _ _ _ st') as [r'|] eqn:Hr';
    [| discriminate].
  injection Hrun as <-. apply IH in Hr' as (tr' & Htr & Halt).
  unfold before. cbn [trace]. rewrite Htr.
  eexists. split; [reflexivity |]. exact Halt.
Qed.

(** The rounds of a trace none of whose sums overflows. *)
Lemma retry_loop_paced fuel : forall i attempts sleep rnd st r,
  retry_loop callback fuel i attempts sleep rnd st = Some r ->
  fits (trace r) ->
  exists tr', trace r = Invoke :: tr' /\ rounds sleep rnd tr' /\
              Forall (fun d => sleep <= d) (sleeps tr') /\
              nondecreasing (sleeps tr').
Proof.
  induction fuel as [|fuel IH]; intros i attempts sleep rnd st r Hrun Hfit;
    [discriminate |].
  simpl in Hrun. destruct (callback st) as [st' [e|]];
    [| injection Hrun as <-; exists []; simpl; auto].
  destruct (_ >=? _); [injection Hrun as <-; exists []; simpl; auto |].
  destruct (Z.leb_spec sleep 0) as [Hs|Hs];
    [injection Hrun as <-; exists []; simpl; auto |].
  destruct (retry_loop callback fuel _ _ _ _ st') as [r'|] eqn:Hr';
    [| discriminate].
  injection Hrun as <-. unfold before in *. cbn [trace] in *.
  apply Forall_app in Hfit as [Hhead Hfit].
  apply Forall_cons in Hhead as [_ Hhead].
  apply Forall_cons in Hhead as [Hsum _].
  destruct (jitter_bounds sleep (rnd 0%nat) Hs) as (Hj & Hq0 & Hq1).
  rewrite (round_exact sleep (rnd 0%nat) Hs Hsum) in *.
  destruct (IH _ _ _ _ _ _ Hr' Hfit) as (tr' & Htr & Hrounds & Hall & Hnd).
  rewrite Htr. eexists. split; [reflexivity |].
  split; [cbn [rounds]; repeat split; auto; lia |].
  rewrite sleeps_step. split.
  - constructor; [lia |]. eapply Forall_impl; [exact Hall |]. simpl. lia.
  - destruct (sleeps tr') as [|d ds] eqn:Hd; [exact I |].
    split; [| exact Hnd]. apply Forall_cons in Hall as [Hle _]. exact Hle.
Qed.

(** A delay that would still fit after [m] rounds of growth by one half
    does not overflow in a trace of at most [m + 1] invocations. *)
Lemma retry_loop_fits fuel : forall i attempts sleep rnd st r (m : nat),
  retry_loop callback fuel i attempts sleep rnd st = Some r ->
  sleep * 3 ^ Z.of_nat m <= maxInt * 2 ^ Z.of_nat m ->
  (invocations (trace r) <= S m)%nat ->
  fits (trace r).
Proof.
  induction fuel as [|fuel IH]; intros i attempts sleep rnd st r m Hrun Hfit Hinv;
    [discriminate |].
  simpl in Hrun. destruct (callback st) as [st' [e|]];
    [| injection Hrun as <-; repeat constructor].
  destruct (_ >=? _); [injection Hrun as <-; repeat constructor |].
  destruct (Z.leb_spec sleep 0) as [Hs|Hs];
    [injection Hrun as <-; repeat constructor |].
  destruct (retry_loop callback fuel _ _ _ _ st') as [r'|] eqn:Hr';
    [| discriminate].
  injection Hrun as <-. unfold before in *. cbn [trace] in *.
  rewrite invocations_app in Hinv. unfold invocations at 1 in Hinv.
  simpl in Hinv. pose proof (retry_loop_invokes _ _ _ _ _ _ _ Hr') as H1.
  destruct m as [|m]; [lia |].
  destruct (jitter_bounds sleep (rnd 0%nat) Hs) as (Hj & Hq0 & Hq1).
  destruct (grow_step sleep _ m Hs Hq0 Hq1 Hfit) as [Hsum Hnext].
  unfold fits. apply Forall_app. split.
  - repeat constructor. exact Hsum.
  - apply (IH _ _ _ _ _ _ m Hr'); [| lia].
    rewrite (round_exact sleep (rnd 0%nat) Hs Hsum). exact Hnext.
Qed.

End Generic.

Section Counting.
Variable op : nat -> option error.

Lemma retry_loop_succeeds k : forall fuel i attempts sleep rnd n,
  (k < fuel)%nat -> 0 <= i -> minInt < attempts <= maxInt ->
  i + Z.of_nat k < attempts ->
  (forall j, (j < k)%nat -> 0 < delayAt j sleep rnd) ->
  (forall j, (j < k)%nat -> is_Some (op (n + j))) -> op (n + k)%nat = None ->
  exists r, retry_loop (counting op) fuel i attempts sleep rnd n = Some r /\
            result r = Nil /\ invocations (trace r) = S k.
Proof.
  induction k as [|k IH]; intros fuel i attempts sleep rnd n Hfuel Hi Ha Hik Hpos Hfail Hok;
    (destruct fuel as [|fuel]; [lia |]); simpl.
  - rewrite Nat.add_0_r in Hok. rewrite Hok. eexists; repeat split.
  - destruct (Hfail 0%nat) as [e He]; [lia |]. rewrite Nat.add_0_r in He.
    rewrite He, sub_one by assumption.
    destruct (Z.geb_spec i (attempts - 1)); [lia |].
    pose proof (Hpos 0%nat ltac:(lia)) as Hs. cbn [delayAt] in Hs.
    destruct (Z.leb_spec sleep 0); [lia |].
    assert (Hi1 : add i 1 = i + 1).
    { apply wrap_id. unfold inRange, minInt, maxInt in *. lia. }
    rewrite Hi1.
    destruct (IH fuel (i + 1) attempts
                (add sleep (quot (int63n sleep (rnd 0%nat)) 2))
                (fun m => rnd (S m)) (S n)) as (r & Hr & Hres & Hinv);
      try lia.
    + intros j Hj. apply (Hpos (S j)). lia.
    + intros j Hj. replace (S n + j)%nat with (n + S j)%nat by lia.
      apply Hfail. lia.
    + replace (S n + k)%nat with (n + S k)%nat by lia. exact Hok.
    + rewrite Hr. eexists; split; [reflexivity |]. split; [exact Hres |].
      unfold before. cbn [trace]. rewrite invocations_app, Hinv. reflexivity.
Qed.

Lemma retry_loop_exhausts k : forall fuel i attempts sleep rnd n,
  (k < fuel)%nat -> 0 <= i -> minInt < attempts <= maxInt ->
  i + Z.of_nat k = attempts - 1 ->
  (forall j, (j < k)%nat -> 0 < delayAt j sleep rnd) ->
  (forall j, (j <= k)%nat -> is_Some (op (n + j))) ->
  exists r e, retry_loop (counting op) fuel i attempts sleep rnd n = Some r /\
              op (n + k)%nat = Some e /\
              result r = Err (errorf attempts e) /\
              invocations (trace r) = S k.
Proof.
  induction k as [|k IH]; intros fuel i attempts sleep rnd n Hfuel Hi Ha Hik Hpos Hfail;
    (destruct fuel as [|fuel]; [lia |]); simpl;
    (destruct (Hfail 0%nat) as [e He]; [lia |]); rewrite Nat.add_0_r in He;
    rewrite He, sub_one by assumption.
  - destruct (Z.geb_spec i (attempts - 1)); [| lia].
    rewrite Nat.add_0_r. eexists; exists e; repeat split. exact He.
  - destruct (Z.geb_spec i (attempts - 1)); [lia |].
    pose proof (Hpos 0%nat ltac:(lia)) as Hs. cbn [delayAt] in Hs.
    destruct (Z.leb_spec sleep 0); [lia |].
    assert (Hi1 : add i 1 = i + 1).
    { apply wrap_id. unfold inRange, minInt, maxInt in *. lia. }
    rewrite Hi1.
    destruct (IH fuel (i + 1) attempts
                (add sleep (quot (int63n sleep (rnd 0%nat)) 2))
                (fun m => rnd (S m)) (S n)) as (r & e' & Hr & He' & Hres & Hinv);
      try lia.
    + intros j Hj. apply (Hpos (S j)). lia.
    + intros j Hj. replace (S n + j)%nat with (n + S j)%nat by lia.
      apply Hfail. lia.
    + rewrite Hr. eexists; exists e'; split; [reflexivity |].
      replace (n + S k)%nat with (S n + k)%nat by lia.
      split; [exact He' |]. split; [exact Hres |].
      unfold before. cbn [trace]. rewrite invocations_app, Hinv. reflexivity.
Qed.

(** The first round reached with a delay that is not positive panics. *)
Lemma retry_loop_panics k : forall fuel i attempts sleep rnd n,
  (k < fuel)%nat -> 0 <= i -> minInt < attempts <= maxInt ->
  i + Z.of_nat k < attempts - 1 ->
  (forall j, (j < k)%nat -> 0 < delayAt j sleep rnd) ->
  delayAt k sleep rnd <= 0 ->
  (forall j, (j <= k)%nat -> is_Some (op (n + j))) ->
  exists r, retry_loop (counting op) fuel i attempts sleep rnd n = Some r /\
            result r = Panic /\ invocations (trace r) = S k.
Proof.
  induction k as [|k IH]; intros fuel i attempts sleep rnd n Hfuel Hi Ha Hik Hpos Hneg Hfail;
    (destruct fuel as [|fuel]; [lia |]); simpl;
    (destruct (Hfail 0%nat) as [e He]; [lia |]); rewrite Nat.add_0_r in He;
    rewrite He, sub_one by assumption;
    (destruct (Z.geb_spec i (attempts - 1)); [lia |]).
  - cbn [delayAt] in Hneg. destruct (Z.leb_spec sleep 0); [| lia].
    eexists; repeat split.
  - pose proof (Hpos 0%nat ltac:(lia)) as Hs. cbn [delayAt] in Hs.
    destruct (Z.leb_spec sleep 0); [lia |].
    assert (Hi1 : add i 1 = i + 1).
    { apply wrap_id. unfold inRange, minInt, maxInt in *. lia. }
    rewrite Hi1.
    destruct (IH fuel (i + 1) attempts
                (add sleep (quot (int63n sleep (rnd 0%nat)) 2))
                (fun m => rnd (S m)) (S n)) as (r & Hr & Hres & Hinv);
      try lia.
    + intros j Hj. apply (Hpos (S j)). lia.
    + exact Hneg.
    + intros j Hj. replace (S n + j)%nat with (n + S j)%nat by lia.
      apply Hfail. lia.
    + rewrite Hr. eexists; split; [reflexivity |]. split; [exact Hres |].
      unfold before. cbn [trace]. rewrite invocations_app, Hinv. reflexivity.
Qed.

End Counting.

Lemma pow2_le sleep a b :
  0 < sleep -> 0 <= a <= b -> sleep * 2 ^ b <= maxInt -> sleep * 2 ^ a <= maxInt.
Proof.
  intros Hs Hab Hfit.
  assert (2 ^ a <= 2 ^ b) by (apply Z.pow_le_mono_r; lia). nia.
Qed.

(** C4, as amended: for [1 <= attempts], in the executions in which
    every delay handed to [rand.Int63n] is positive: an operation failing
    on its first [k < attempts] invocations and succeeding on the next
    makes [retry] return nil after exactly [k + 1] invocations; an
    operation failing on every invocation is invoked exactly [attempts]
    times and [retry] returns the error "after <attempts> attempts, last
    error: <last error>".  The delays in question are those of the rounds
    that take place, [k] in the first case and [attempts - 1] in the
    second.  When a round is reached with a delay that is not positive,
    [retry] panics instead, so that nothing more can be claimed; and the
    delays of the first [m + 1] rounds are positive whenever the base
    delay is and [baseDelay * (3/2)^m] fits a 64-bit integer. *)
Theorem retry_attempts (op : nat -> option error) attempts sleep rnd :
  1 <= attempts <= maxInt ->
  (forall k : nat,
      Z.of_nat k < attempts ->
      (forall j, (j < k)%nat -> is_Some (op j)) -> op k = None ->
      (forall i, (i < k)%nat -> 0 < delayAt i sleep rnd) ->
      exists r, retry (counting op) attempts sleep rnd 0%nat = Some r /\
                result r = Nil /\ invocations (trace r) = S k) /\
  ((forall j, is_Some (op j)) ->
   (forall i : nat, Z.of_nat i < attempts - 1 -> 0 < delayAt i sleep rnd) ->
      exists r e, retry (counting op) attempts sleep rnd 0%nat = Some r /\
                  op (Z.to_nat (attempts - 1)) = Some e /\
                  result r = Err ("after " +:+ show attempts +:+
                                  " attempts, last error: " +:+ e) /\
                  Z.of_nat (invocations (trace r)) = attempts) /\
  (forall k : nat,
      Z.of_nat k < attempts - 1 ->
      (forall j, (j <= k)%nat -> is_Some (op j)) ->
      (forall i, (i < k)%nat -> 0 < delayAt i sleep rnd) ->
      delayAt k sleep rnd <= 0 ->
      exists r, retry (counting op) attempts sleep rnd 0%nat = Some r /\
                result r = Panic /\ invocations (trace r) = S k) /\
  (forall m : nat,
      0 < sleep -> sleep * 3 ^ Z.of_nat m <= maxInt * 2 ^ Z.of_nat m ->
      forall i, (i <= m)%nat -> 0 < delayAt i sleep rnd).
Proof.
  intros Ha.
  assert (Ha' : minInt < attempts <= maxInt) by (unfold minInt in *; lia).
  assert (Hfuel : retry_fuel attempts = S (Z.to_nat (attempts - 1))).
  { unfold retry_fuel. rewrite sub_one by assumption. reflexivity. }
  split; [| split; [| split]].
  - intros k Hk Hfail Hok Hpos. unfold retry. rewrite Hfuel.
    apply (retry_loop_succeeds op k); auto; lia.
  - intros Hfail Hpos. unfold retry. rewrite Hfuel.
    destruct (retry_loop_exhausts op (Z.to_nat (attempts - 1))
                (S (Z.to_nat (attempts - 1))) 0 attempts sleep rnd 0%nat)
      as (r & e & Hr & He & Hres & Hinv); auto; try lia.
    + intros j Hj. apply Hpos. lia.
    + exists r, e. repeat split; auto. rewrite Hinv. lia.
  - intros k Hk Hfail Hpos Hneg. unfold retry. rewrite Hfuel.
    apply (retry_loop_panics op k); auto; lia.
  - intros m Hs Hfit. apply delayAt_positive; assumption.
Qed.

Lemma retry_attempts_witness :
  1 <= 100 <= maxInt /\
  (exists r, retry (counting (fails_first 2)) 100 1000000000 (fun _ => 7) 0%nat = Some r /\
             result r = Nil /\ invocations (trace r) = 3%nat) /\
  (exists r e, retry (counting (fun _ => Some "down"%string)) 5 10000000000
                 (fun _ => 7) 0%nat = Some r /\
               result r = Err ("after " +:+ show 5 +:+
                               " attempts, last error: " +:+ e) /\
               Z.of_nat (invocations (trace r)) = 5).
Proof.
  assert (H100 : 1 <= 100 <= maxInt) by (unfold maxInt; lia).
  assert (H5 : 1 <= 5 <= maxInt) by (unfold maxInt; lia).
  split; [exact H100 |]. split.
  - apply (proj1 (retry_attempts (fails_first 2) 100 1000000000 (fun _ => 7) H100)
             2%nat).
    + lia.
    + intros j Hj. unfold fails_first.
      destruct (Nat.ltb_spec j 2); [eexists; reflexivity | lia].
    + reflexivity.
    + intros i Hi.
      apply (proj2 (proj2 (proj2
               (retry_attempts (fails_first 2) 100 1000000000 (fun _ => 7) H100)))
               1%nat); [lia | unfold maxInt; lia | lia].
  - destruct (proj1 (proj2 (retry_attempts (fun _ => Some "down"%string) 5
                       10000000000 (fun _ => 7) H5)))
      as (r & e & Hr & _ & Hres & Hinv).
    + intros j. eexists; reflexivity.
    + intros i Hi.
      apply (proj2 (proj2 (proj2
               (retry_attempts (fun _ => Some "down"%string) 5 10000000000
                  (fun _ => 7) H5))) 3%nat); [lia | unfold maxInt; lia | lia].
    + exists r, e. auto.
Defined.

(** C4 as stated fails for a base delay of zero: after the first failure
    [rand.Int63n(0)] panics, and the second invocation never happens. *)
Lemma retry_zero_delay_panics :
  retry (counting (fails_first 1)) 2 0 (fun _ => 7) 0%nat =
  Some (mkRun 1%nat [Invoke] Panic).
Proof. reflexivity. Qed.

(** C5, as amended: in every execution of [retry], with the random source
    an input stream, in which no sum of a delay and its jitter overflows
    the 64-bit duration: between two invocations [retry] draws once on
    the current delay and sleeps once; the jitter added is half the draw
    and lies in [0, delay/2); the sleep lasts the delay plus that jitter,
    this sum is the delay of the next round, and the sleeps never
    decrease.  No sum overflows in an execution of at most [m + 1]
    invocations when [baseDelay * (3/2)^m] fits a 64-bit integer. *)
Theorem retry_backoff {St} (callback : St -> St * option error)
    attempts sleep rnd st :
  exists r, retry callback attempts sleep rnd st = Some r /\
    (fits (trace r) ->
     paced sleep rnd (trace r) /\ nondecreasing (sleeps (trace r))) /\
    (forall m : nat,
        sleep * 3 ^ Z.of_nat m <= maxInt * 2 ^ Z.of_nat m ->
        (invocations (trace r) <= S m)%nat -> fits (trace r)).
Proof.
  destruct (retry_total callback attempts sleep rnd st) as (r & Hr & _).
  exists r. split; [exact Hr |]. split.
  - intros Hfit.
    destruct (retry_loop_paced callback _ _ _ _ _ _ _ Hr Hfit)
      as (tr' & Htr & Hrounds & _ & Hnd).
    split; [exists tr'; auto |]. rewrite Htr. exact Hnd.
  - intros m Hfit Hinv. exact (retry_loop_fits callback _ _ _ _ _ _ _ m Hr Hfit Hinv).
Qed.

Lemma retry_backoff_witness :
  exists r, retry (counting (fun _ => Some "down"%string)) 5 10000000000
              (fun n => Z.of_nat n * 7919) 0%nat = Some r /\
            paced 10000000000 (fun n => Z.of_nat n * 7919) (trace r) /\
            nondecreasing (sleeps (trace r)).
Proof.
  destruct (retry_backoff (counting (fun _ => Some "down"%string)) 5 10000000000
              (fun n => Z.of_nat n * 7919) 0%nat) as (r & Hr & Hpaced & Hfits).
  exists r. split; [exact Hr |]. apply Hpaced. apply (Hfits 4%nat).
  - unfold maxInt. lia.
  - unfold retry in Hr. vm_compute in Hr. injection Hr as <-.
    vm_compute. lia.
Defined.

(** C5 as stated fails when the delay overflows: from the largest delay
    the sum with the jitter wraps around and the sleep requested is
    negative. *)
Lemma retry_backoff_overflow :
  exists r, retry (counting (fun _ => Some "down"%string)) 2 maxInt
              (fun _ => maxInt - 1) 0%nat = Some r /\
            sleeps (trace r) = [- 2 ^ 62 - 2] /\
            ~ paced maxInt (fun _ => maxInt - 1) (trace r).
Proof.
  eexists. split; [reflexivity |]. split; [reflexivity |].
  intros (tr' & Htr & Hrounds). injection Htr as <-.
  cbn [rounds] in Hrounds. destruct Hrounds as (_ & _ & _ & _ & _ & Hd & _).
  vm_compute in Hd. discriminate.
Qed.

(** C10, as amended: [retry] calls the operation at least once whatever
    [attempts] is; for every [attempts <= 1] other than the smallest
    64-bit integer it calls it exactly once, does not sleep, and returns
    nil or, on failure, the wrapped error at once. *)
Theorem retry_at_least_once {St} (callback : St -> St * option error)
    attempts sleep rnd st :
  (exists r, retry callback attempts sleep rnd st = Some r /\
             (1 <= invocations (trace r))%nat) /\
  (minInt < attempts <= 1 ->
   exists r, retry callback attempts sleep rnd st = Some r /\
             trace r = [Invoke] /\
             invocations (trace r) = 1%nat /\ sleeps (trace r) = [] /\
             result r = match snd (callback st) with
                        | None => Nil
                        | Some e => Err (errorf attempts e)
                        end).
Proof.
  split; [apply retry_total |].
  intros Ha. unfold retry, retry_fuel.
  rewrite retry_loop_last.
  - eexists; split; [reflexivity |].
    destruct (callback st) as [st' [e|]]; repeat split.
  - rewrite sub_one by (unfold maxInt; lia). lia.
Qed.

Lemma retry_at_least_once_witness :
  minInt < 0 <= 1 /\
  exists r, retry (counting (fun _ => Some "down"%string)) 0 10 (fun _ => 7) 0%nat = Some r /\
            trace r = [Invoke] /\
            invocations (trace r) = 1%nat /\ sleeps (trace r) = [] /\
            result r = Err (errorf 0 "down").
Proof.
  assert (H : minInt < 0 <= 1) by (unfold minInt; lia).
  split; [exact H |].
  exact (proj2 (retry_at_least_once (counting (fun _ => Some "down"%string))
                  0 10 (fun _ => 7) 0%nat) H).
Defined.

(** C10 as stated fails at the smallest 64-bit integer: [attempts - 1]
    wraps around to the largest one, so after a failure the loop sleeps
    and calls the operation again. *)
Lemma retry_minInt_retries :
  minInt <= 1 /\
  retry (counting (fails_first 1)) minInt 1 (fun _ => 7) 0%nat =
  Some (mkRun 2%nat [Invoke; Int63n 1 0; Sleep 1; Invoke] Nil).
Proof. split; [unfold minInt; lia | lazy; reflexivity]. Qed.

End RetryFacts.

(* ================================================================= *)
(** ** Region coverer *)

Module GeometryFacts.
Import Geometry.

Section WithS2.
Context `{S2}.

Lemma pairPoints_even n : forall coords acc,
  length coords = (2 * n)%nat ->
  exists points,
    pairPoints coords acc = Some (acc ++ points) /\
    length points = n /\
    forall i lat lng,
      coords !! (2 * i)%nat = Some lat ->
      coords !! (2 * i + 1)%nat = Some lng ->
      points !! i = Some (pointAt lat lng).
Proof.
  induction n as [|n IH]; intros coords acc Hlen.
  - destruct coords; [| discriminate]. exists []. simpl.
    rewrite app_nil_r. repeat split. intros i lat lng Hlat. discriminate.
  - destruct coords as [|lat [|lng rest]]; simpl in Hlen; try lia.
    destruct (IH rest (acc ++ [pointAt lat lng])) as (pts & Hrun & Hn & Hat).
    { simpl in Hlen. lia. }
    exists (pointAt lat lng :: pts). simpl. fold (pointAt lat lng).
    rewrite Hrun, <- app_assoc. split; [reflexivity |]. split; [simpl; lia |].
    intros [|i] lat' lng' Hlat Hlng.
    + simpl in Hlat, Hlng. simpl. congruence.
    + apply Hat.
      * transitivity ((lat :: lng :: rest) !! S (S (2 * i)));
          [reflexivity | rewrite <- Hlat; f_equal; lia].
      * transitivity ((lat :: lng :: rest) !! S (S (2 * i + 1)));
          [reflexivity | rewrite <- Hlng; f_equal; lia].
Qed.

Lemma pairPoints_odd n : forall coords acc,
  length coords = (2 * n + 1)%nat -> pairPoints coords acc = None.
Proof.
  induction n as [|n IH]; intros coords acc Hlen.
  - destruct coords as [|lat [|lng rest]]; simpl in Hlen; try lia. reflexivity.
  - destruct coords as [|lat [|lng rest]]; simpl in Hlen; try lia.
    simpl. apply IH. simpl in Hlen. lia.
Qed.

(** C6: on a coordinate sequence of even length [2n] the pairing loop
    of [regionCover] never indexes out of range and yields exactly [n]
    points in input order, point [i] made of the latitude at index [2i]
    and the longitude at index [2i+1]; on a sequence of odd length the
    loop panics, and so does [regionCover]. *)
Theorem regionCover_pairing (coords : list float64) (n : nat) maxLevel maxCells :
  (length coords = (2 * n)%nat ->
   exists points,
     pairPoints coords [] = Some points /\
     length points = n /\
     (forall i lat lng,
         coords !! (2 * i)%nat = Some lat ->
         coords !! (2 * i + 1)%nat = Some lng ->
         points !! i = Some (PointFromLatLng (LatLngFromDegrees lat lng))) /\
     regionCover coords maxLevel maxCells =
       Some (coverOf points maxLevel maxCells)) /\
  (length coords = (2 * n + 1)%nat ->
   pairPoints coords [] = None /\ regionCover coords maxLevel maxCells = None).
Proof.
  split; intros Hlen.
  - destruct (pairPoints_even n coords [] Hlen) as (pts & Hrun & Hn & Hat).
    exists pts. simpl in Hrun. unfold regionCover. rewrite Hrun. auto.
  - unfold regionCover. rewrite (pairPoints_odd n coords [] Hlen). auto.
Qed.

(** C7, as amended: [regionCover] does not look at the number of points.
    For every coordinate sequence of even length [2n], also one that
    yields fewer than three points, it builds the loop from the [n]
    paired points, point [i] made of the latitude at index [2i] and the
    longitude at index [2i+1], and the polygon from that loop, and returns
    the covering that the S2 coverer computes for the polygon; it signals
    no error of its own. *)
Theorem regionCover_no_point_check (coords : list float64) (n : nat) maxLevel maxCells :
  length coords = (2 * n)%nat ->
  exists points,
    length points = n /\
    (forall i lat lng,
        coords !! (2 * i)%nat = Some lat ->
        coords !! (2 * i + 1)%nat = Some lng ->
        points !! i = Some (PointFromLatLng (LatLngFromDegrees lat lng))) /\
    regionCover coords maxLevel maxCells =
      Some (Covering maxLevel maxCells (PolygonFromLoops [LoopFromPoints points])).
Proof.
  intros Hlen.
  destruct (pairPoints_even n coords [] Hlen) as (pts & Hrun & Hn & Hat).
  exists pts. unfold regionCover. rewrite Hrun. auto.
Qed.

End WithS2.

Lemma regionCover_pairing_witness :
  length [55; 12; 55; 13; 56; 13; 56; 12] = (2 * 4)%nat /\
  exists points,
    pairPoints (H := toyS2) [55; 12; 55; 13; 56; 13; 56; 12] [] = Some points /\
    length points = 4%nat.
Proof.
  split; [reflexivity |].
  destruct (proj1 (regionCover_pairing (H := toyS2)
                     [55; 12; 55; 13; 56; 13; 56; 12] 4 15 100) eq_refl)
    as (pts & Hrun & Hn & _).
  exists pts. auto.
Defined.

Lemma regionCover_no_point_check_witness :
  length [55; 12; 55; 13] = (2 * 2)%nat /\
  exists points,
    length points = 2%nat /\
    points !! 0%nat = Some (55, 12) /\ points !! 1%nat = Some (55, 13) /\
    regionCover (H := toyS2) [55; 12; 55; 13] 15 100 =
      Some (Covering 15 100 (PolygonFromLoops [LoopFromPoints points])).
Proof.
  split; [reflexivity |].
  destruct (regionCover_no_point_check (H := toyS2) [55; 12; 55; 13] 2 15 100
              eq_refl) as (pts & Hn & Hat & Hcover).
  exists pts. split; [exact Hn |].
  split; [exact (Hat 0%nat 55 12 eq_refl eq_refl) |].
  split; [exact (Hat 1%nat 55 13 eq_refl eq_refl) | exact Hcover].
Defined.

(** C7 as stated fails: with no coordinates (no point at all), and with
    two points, [regionCover] asks for no error and has none to return:
    whatever the library is, it hands the loop of these points to the
    coverer and returns the covering it is given. *)
Lemma regionCover_degenerate_returns_cover :
  (forall (lib : S2) (lat1 lng1 lat2 lng2 : float64) maxLevel maxCells,
     regionCover [] maxLevel maxCells =
       Some (Covering maxLevel maxCells
               (PolygonFromLoops [LoopFromPoints []])) /\
     regionCover [lat1; lng1; lat2; lng2] maxLevel maxCells =
       Some (Covering maxLevel maxCells
               (PolygonFromLoops
                  [LoopFromPoints
                     [PointFromLatLng (LatLngFromDegrees lat1 lng1);
                      PointFromLatLng (LatLngFromDegrees lat2 lng2)]]))) /\
  regionCover (H := toyS2) [] 15 100 = Some [] /\
  regionCover (H := toyS2) [55; 12; 55; 13] 15 100 = Some [0%nat; 1%nat].
Proof. split; [intros; split; reflexivity | split; reflexivity]. Qed.

End GeometryFacts.

(* ================================================================= *)
(** ** Sums over the goroutines of a state *)

Module ListFacts.

Lemma sum_list_insert {A} (f : A -> nat) (l : list A) : forall i x y,
  l !! i = Some x ->
  (sum_list (f <$> <[i:=y]> l) + f x = sum_list (f <$> l) + f y)%nat.
Proof.
  induction l as [|a l IH]; intros [|i] x y Hi; try discriminate.
  - injection Hi as ->. csimpl. lia.
  - csimpl. specialize (IH i x y Hi). lia.
Qed.

Lemma sum_list_pos {A} (f : A -> nat) (l : list A) :
  (0 < sum_list (f <$> l))%nat -> exists i x, l !! i = Some x /\ (0 < f x)%nat.
Proof.
  induction l as [|a l IH]; csimpl; [lia |]. intros Hpos.
  destruct (f a) as [|n] eqn:Hfa.
  - destruct IH as (i & x & Hi & Hx); [lia |]. exists (S i), x. auto.
  - exists 0%nat, a. split; [reflexivity | lia].
Qed.

Lemma sum_list_lookup_le {A} (f : A -> nat) (l : list A) i x :
  l !! i = Some x -> (f x <= sum_list (f <$> l))%nat.
Proof.
  revert i. induction l as [|a l IH]; intros [|i] Hi; try discriminate.
  - injection Hi as ->. csimpl. lia.
  - csimpl. specialize (IH i Hi). lia.
Qed.

End ListFacts.

(* ================================================================= *)
(** ** Cell count dispatcher *)

Module DispatcherFacts.
Import GoInt GoIntFacts ListFacts Dispatcher.

(** *** Modular arithmetic of the accumulator *)

Lemma wrap_add_l a b : wrap (wrap a + b) = wrap (a + b).
Proof.
  apply wrap_congr.
  rewrite Zplus_mod, wrap_eqm, <- Zplus_mod. reflexivity.
Qed.

Lemma wrap_mul_l a b : wrap (wrap a * b) = wrap (a * b).
Proof.
  apply wrap_congr.
  rewrite Zmult_mod, wrap_eqm, <- Zmult_mod. reflexivity.
Qed.

Lemma wrap_scale a b k : wrap a = wrap b -> wrap (wrap a * k) = wrap (b * k).
Proof. intros ->. apply wrap_mul_l. Qed.

Lemma sumZ_app l1 l2 : sumZ (l1 ++ l2) = sumZ l1 + sumZ l2.
Proof. unfold sumZ. induction l1 as [|a l1 IH]; simpl; lia. Qed.

(** *** Sums over the goroutines *)

Lemma sumZ_insert {A} (f : A -> Z) (l : list A) : forall i x y,
  l !! i = Some x ->
  sumZ (f <$> <[i:=y]> l) + f x = sumZ (f <$> l) + f y.
Proof.
  unfold sumZ.
  induction l as [|a l IH]; intros [|i] x y Hi; try discriminate.
  - injection Hi as ->. csimpl. lia.
  - csimpl. specialize (IH i x y Hi). lia.
Qed.

(** *** Schedules *)

Lemma run_invariant (P : state -> Prop) :
  (forall c s s', P s -> step c s = Some s' -> P s') ->
  forall cs s s', P s -> run cs s = Some s' -> P s'.
Proof.
  intros Hstep. induction cs as [|c cs IH]; intros s s' Hs Hrun; simpl in Hrun.
  - congruence.
  - destruct (step c s) as [s1|] eqn:Hc; [| discriminate].
    simpl in Hrun. eauto.
Qed.

Lemma weight_loop its : forall count row, (weight (loop count row its) <= 3)%nat.
Proof.
  induction its as [|[v|e] its IH]; intros count row; simpl; auto; lia.
Qed.

Lemma weight_main_await todo imageCount ts res :
  (mainWeight (main (await todo imageCount ts res)) <= 2)%nat.
Proof. destruct todo; simpl; lia. Qed.

Lemma tasks_await todo imageCount ts res :
  tasks (await todo imageCount ts res) = ts.
Proof. destruct todo; reflexivity. Qed.

Lemma results_await todo imageCount ts res :
  results (await todo imageCount ts res) = res.
Proof. destruct todo; reflexivity. Qed.

Lemma step_budget c s s' : step c s = Some s' -> (budget s' < budget s)%nat.
Proof.
  unfold step, budget. destruct c as [i| |i| |i].
  - destruct (tasks s !! i) as [[| |count| |]|] eqn:Hi; try discriminate.
    pose proof (sum_list_insert weight (tasks s) i _ Panicked Hi) as Hp.
    pose proof (sum_list_insert weight (tasks s) i _ Finished Hi) as Hf.
    destruct (closed s).
    + intros [= <-]. simpl in *. lia.
    + destruct (_ <? _)%nat; intros [= <-]. simpl in *.
      rewrite length_app. simpl. lia.
  - destruct (main s) as [[|todo] imageCount| | |]; try discriminate.
    destruct (results s) as [|count rest]; intros [= <-].
    rewrite tasks_await, results_await.
    pose proof (weight_main_await todo (add imageCount count) (tasks s) rest).
    simpl. lia.
  - destruct (main s) as [[|todo] imageCount| | |]; try discriminate.
    destruct (tasks s !! i) as [t|] eqn:Hi; [| discriminate].
    destruct (reports t) as [err|] eqn:Ht; intros [= <-]. simpl.
    pose proof (sum_list_insert weight (tasks s) i _ (afterErrSend t) Hi) as Hins.
    assert (weight (afterErrSend t) <= weight t)%nat; [| lia].
    destruct t as [e|e count [v|] rest|count| |]; simpl in *; try discriminate;
      try lia.
    apply weight_loop.
  - destruct (main s); try discriminate. intros [= <-]. simpl. lia.
  - destruct (tasks s !! i) as [[| | | |]|]; try discriminate.
    destruct (main s); try discriminate; intros [= <-]; simpl; lia.
Qed.

Lemma run_budget cs : forall s s',
  run cs s = Some s' -> (length cs + budget s' <= budget s)%nat.
Proof.
  induction cs as [|c cs IH]; intros s s' Hrun; simpl in Hrun.
  - injection Hrun as <-. simpl. lia.
  - destruct (step c s) as [s1|] eqn:Hc; [| discriminate]. simpl in Hrun.
    apply step_budget in Hc. apply IH in Hrun. simpl. lia.
Qed.


(** *** Bookkeeping *)

Lemma quiet_reports t : quiet t -> reports t = None.
Proof. intros [-> | [count ->]]; reflexivity. Qed.

Lemma getImageCount_busy a : busy (getImageCount a) = 1%nat.
Proof.
  destruct a as [e|its]; [reflexivity |]. simpl.
  generalize 0 (@None Z). induction its as [|[v|e] its IH]; intros count row;
    simpl; auto.
Qed.

Lemma sum_busy_start {Cell} (answer : Cell -> readResult) cover :
  sum_list (busy <$> ((fun c => getImageCount (answer c)) <$> cover)) = length cover.
Proof.
  induction cover as [|c cover IH]; csimpl; [reflexivity |].
  rewrite getImageCount_busy, IH. reflexivity.
Qed.

Lemma alwaysReturns_intro s0 ret (P : state -> Prop) :
  P s0 ->
  (forall c s s', P s -> step c s = Some s' -> P s') ->
  (forall s, P s ->
     match main s with
     | Collecting _ _ | Received _ => exists c s', step c s = Some s'
     | Returned v => v = ret
     | Died => False
     end) ->
  alwaysReturns s0 ret.
Proof.
  intros H0 Hstep Hmain. split; [| split].
  - exists (budget s0). intros cs s Hrun. apply run_budget in Hrun. lia.
  - intros cs s Hrun. pose proof (run_invariant P Hstep cs s0 s H0 Hrun) as Hs.
    apply Hmain in Hs. destruct (main s); eauto. contradiction.
  - intros cs s v Hrun Hv. pose proof (run_invariant P Hstep cs s0 s H0 Hrun) as Hs.
    apply Hmain in Hs. rewrite Hv in Hs. exact Hs.
Qed.

(** *** All queries succeed *)

Section AllSucceed.
Variable total : Z.
Local Abbreviation summing := (Dispatcher.summing total).

Lemma summing_await todo imageCount ts res :
  Forall quiet ts ->
  (todo <= length ts)%nat ->
  todo = (sum_list (busy <$> ts) + length res)%nat ->
  wrap (imageCount + sumZ res + sumZ (owed <$> ts)) = wrap total ->
  summing (await todo (wrap imageCount) ts res).
Proof.
  intros Hq Hle Htodo Hsum. destruct todo as [|todo]; (split; [exact Hq |]); simpl.
  - assert (Hres : res = []) by (destruct res; [reflexivity | simpl in Htodo; lia]).
    assert (Hts : sumZ (owed <$> ts) = 0).
    { assert (Hb : sum_list (busy <$> ts) = 0%nat) by lia.
      clear - Hq Hb. induction Hq as [|t ts Ht Hq IH]; [reflexivity |].
      csimpl in Hb. unfold sumZ in *. csimpl.
      destruct Ht as [-> | [count ->]]; simpl in *; [apply IH; lia | lia]. }
    subst res. rewrite Hts in Hsum. unfold sumZ in Hsum. simpl in Hsum.
    split; [| simpl in Htodo; lia].
    f_equal. unfold mul. apply wrap_scale.
    rewrite <- Hsum. f_equal. lia.
  - repeat split; auto; try lia.
    rewrite <- Hsum, <- !Z.add_assoc. apply wrap_add_l.
Qed.

Lemma summing_step c s s' : summing s -> step c s = Some s' -> summing s'.
Proof.
  intros [Hq Hm] Hc. destruct c as [i| |i| |i]; unfold step in Hc.
  - destruct (tasks s !! i) as [[| |count| |]|] eqn:Hi; try discriminate.
    destruct (main s) as [todo imageCount|err|v|] eqn:Hmain; try contradiction.
    + destruct Hm as (Hcl & Hle & Htodo & Hsum). rewrite Hcl in Hc.
      destruct (_ <? _)%nat; [| discriminate]. injection Hc as <-.
      split; simpl.
      * apply Forall_insert; [exact Hq | left; reflexivity].
      * rewrite length_insert, length_app, sumZ_app. simpl.
        pose proof (sum_list_insert busy (tasks s) i _ Finished Hi) as Hb.
        pose proof (sumZ_insert owed (tasks s) i _ Finished Hi) as Ho.
        simpl in Hb, Ho. repeat split; auto; try lia.
        rewrite <- Hsum. f_equal. lia.
    + (* every goroutine has finished by the time the function returns *)
      destruct Hm as [_ Hnone].
      pose proof (sum_list_lookup_le busy (tasks s) i _ Hi) as Hb.
      simpl in Hb. lia.
  - destruct (main s) as [[|todo] imageCount|err|v|] eqn:Hmain; try discriminate.
    destruct (results s) as [|count rest] eqn:Hres; [discriminate |].
    injection Hc as <-. destruct Hm as (Hcl & Hle & Htodo & Hsum).
    unfold add. apply summing_await; auto; simpl in *; try lia.
    rewrite <- Hsum. f_equal. unfold sumZ. simpl. lia.
  - destruct (main s) as [[|todo] imageCount|err|v|] eqn:Hmain; try discriminate.
    destruct (tasks s !! i) as [t|] eqn:Hi; [| discriminate].
    rewrite quiet_reports in Hc; [discriminate |].
    eapply Forall_lookup_1; eauto.
  - (* no error is received: there is no [return 0, err] to make *)
    destruct (main s); try discriminate. contradiction.
  - (* no goroutine reaches a panic *)
    destruct (tasks s !! i) as [t|] eqn:Hi; [| discriminate].
    pose proof (Forall_lookup_1 _ _ _ _ Hq Hi) as [-> | [count ->]];
      discriminate.
Qed.

Lemma summing_progress s :
  summing s ->
  match main s with
  | Collecting _ _ | Received _ => exists c s', step c s = Some s'
  | Returned v => v = (wrap (total * bucketGranuleSize), None)
  | Died => False
  end.
Proof.
  intros [Hq Hm]. destruct (main s) as [todo imageCount|err|v|] eqn:Hmain;
    [| contradiction | exact (proj1 Hm) | contradiction].
  destruct Hm as (Hcl & Hle & Htodo & _).
  destruct todo as [|todo]; [lia |].
  destruct (results s) as [|count rest] eqn:Hres.
  - destruct (sum_list_pos busy (tasks s)) as (i & t & Hi & Hbusy);
      [simpl in Htodo; lia |].
    pose proof (Forall_lookup_1 _ _ _ _ Hq Hi) as [-> | [count ->]];
      [simpl in Hbusy; lia |].
    exists (TaskSends i). eexists. unfold step. rewrite Hi, Hcl, Hres.
    destruct (Nat.ltb_spec (length (@nil Z)) (length (tasks s))) as [_|Hge];
      [reflexivity | simpl in Hge; lia].
  - exists RecvCount. eexists. unfold step. rewrite Hmain, Hres. reflexivity.
Qed.

End AllSucceed.

Lemma sumZ_nonneg l : Forall (Z.le 0) l -> 0 <= sumZ l.
Proof. unfold sumZ. induction 1; simpl; lia. Qed.

Lemma succeed_start {Cell} (answer : Cell -> readResult) cover counts :
  Forall2 (fun cell count => getImageCount (answer cell) = AtCount count)
    cover counts ->
  Forall quiet ((fun c => getImageCount (answer c)) <$> cover) /\
  sumZ (owed <$> ((fun c => getImageCount (answer c)) <$> cover)) = sumZ counts.
Proof.
  unfold sumZ. induction 1 as [|cell count cover counts Hc _ [IHq IHs]]; csimpl;
    [split; [constructor | reflexivity] |].
  rewrite Hc. split; [constructor; [right; eauto | exact IHq] |].
  simpl. rewrite IHs. reflexivity.
Qed.

(** C1, as amended: when the count query of every cell completes without
    error, [imagesByRegion] returns, under every schedule and so in whatever
    order the counts arrive, the sum of the counts times [bucketGranuleSize]
    (13) reduced to a 64-bit integer, and no error; this is exactly the
    scaled sum when the counts are not negative and the scaled sum is at
    most the largest 64-bit integer. *)
Theorem imagesByRegion_sum {Cell} (answer : Cell -> readResult) cover counts :
  Forall2 (fun cell count => getImageCount (answer cell) = AtCount count)
    cover counts ->
  alwaysReturns (imagesByRegion answer None cover)
    (wrap (sumZ counts * bucketGranuleSize), None) /\
  (Forall (Z.le 0) counts -> sumZ counts * bucketGranuleSize <= maxInt ->
   alwaysReturns (imagesByRegion answer None cover)
     (sumZ counts * bucketGranuleSize, None)).
Proof.
  intros Hall.
  assert (Hret : alwaysReturns (imagesByRegion answer None cover)
                   (wrap (sumZ counts * bucketGranuleSize), None)).
  { destruct (succeed_start answer cover counts Hall) as [Hq Hs].
    apply (alwaysReturns_intro _ _ (summing (sumZ counts))).
    - unfold imagesByRegion. change 0 with (wrap 0) at 1.
      apply summing_await.
      + exact Hq.
      + rewrite length_fmap. lia.
      + rewrite sum_busy_start. simpl. lia.
      + rewrite Hs. f_equal.
    - apply summing_step.
    - apply summing_progress. }
  split; [exact Hret |]. intros Hpos Hfit.
  rewrite wrap_id in Hret; [exact Hret |].
  apply sumZ_nonneg in Hpos. unfold inRange, minInt, bucketGranuleSize in *. lia.
Qed.

Lemma imagesByRegion_sum_witness :
  Forall (Z.le 0) [3; 5; 2] /\
  alwaysReturns (imagesByRegion exampleAnswer None [0; 1; 2]%nat) (130, None).
Proof.
  assert (Hpos : Forall (Z.le 0) [3; 5; 2]) by (repeat constructor; lia).
  split; [exact Hpos |].
  apply (proj2 (imagesByRegion_sum exampleAnswer [0; 1; 2]%nat [3; 5; 2]
                  ltac:(repeat constructor)) Hpos).
  unfold maxInt. vm_compute. discriminate.
Defined.

(** C1 as stated fails when the scaled sum does not fit: one cell counting
    [2^62] granules makes [imagesByRegion] return [2^62], not [13 * 2^62]. *)
Lemma imagesByRegion_overflow :
  getImageCount (Rows [Row (2 ^ 62)]) = AtCount (2 ^ 62) /\
  main <$> run [TaskSends 0; RecvCount]
             (imagesByRegion (fun _ : nat => Rows [Row (2 ^ 62)]) None [0%nat])
    = Some (Returned (2 ^ 62, None)) /\
  2 ^ 62 <> 2 ^ 62 * bucketGranuleSize.
Proof. repeat split. vm_compute. discriminate. Qed.

End DispatcherFacts.

(* ================================================================= *)
(** ** Fan-out pool *)

Module PoolFacts.
Import ListFacts Pool.

Lemma workers_feed n ws links : workers (feed n ws links) = ws.
Proof. destruct links; reflexivity. Qed.

Lemma numberOfJobs_feed n ws links : numberOfJobs (feed n ws links) = n.
Proof. destruct links; reflexivity. Qed.

Lemma workers_gather n ws todo r : workers (gather n ws todo r) = ws.
Proof. destruct todo; reflexivity. Qed.

Lemma numberOfJobs_gather n ws todo r : numberOfJobs (gather n ws todo r) = n.
Proof. destruct todo; reflexivity. Qed.

Section WithBucket.
Variable objects : string -> string -> nat -> list attrResult.
Variable rnd : nat -> Z.
Local Abbreviation payload := (Pool.payload objects rnd).
Local Abbreviation fromLast := (Pool.fromLast objects rnd).
Local Abbreviation inv := (Pool.inv objects rnd).

(** *** One job *)

Lemma runJob_links imgLink folderImages folderImages' :
  runJob objects rnd imgLink folderImages = Some folderImages' ->
  Links folderImages' = jobLinks objects rnd imgLink.
Proof.
  unfold jobLinks, runJob.
  destruct (splitLink imgLink) as [[bucketName imageObject]|]; [| discriminate].
  simpl. destruct (getImagesFromBucket objects bucketName imageObject 0)
    as [result [e|]]; [| intros [= <-]; reflexivity].
  destruct (Retry.retry _ _ _ _ _) as [r|]; [| discriminate]. simpl.
  destruct (Retry.result r); intros [= <-]; reflexivity.
Qed.

Lemma runJob_total imgLink folderImages :
  wellFormed imgLink ->
  exists folderImages', runJob objects rnd imgLink folderImages = Some folderImages'.
Proof.
  intros [[bucketName imageObject] Hsplit]. unfold runJob. rewrite Hsplit. simpl.
  destruct (getImagesFromBucket objects bucketName imageObject 0)
    as [result [e|]]; [| eexists; reflexivity].
  destruct (RetryFacts.retry_default (again objects bucketName imageObject) rnd
              (1%nat, result)) as (r & Hr & Hnp).
  unfold defaultMaxRetries, defaultSleep. rewrite Hr. simpl.
  destruct (Retry.result r); [eexists; reflexivity .. | contradiction].
Qed.

(** *** Schedules end *)

Lemma waiting_feed n ws links : waiting (main (feed n ws links)) = length links.
Proof. destruct links; reflexivity. Qed.

Lemma waiting_gather n ws todo r : waiting (main (gather n ws todo r)) = 0%nat.
Proof. destruct todo; reflexivity. Qed.

Lemma pool_step_budget c s s' :
  step objects rnd c s = Some s' -> (budget s' < budget s)%nat.
Proof.
  unfold step, budget. destruct c as [w|w|w].
  - destruct (main s) as [[|imgLink rest]|todo r|r]; try discriminate.
    destruct (workers s !! w) as [[fi consumed| | |]|] eqn:Hw; try discriminate.
    intros [= <-]. rewrite waiting_feed, workers_feed.
    match goal with |- context [<[w:=?x]> _] =>
      pose proof (sum_list_insert weight (workers s) w _ x Hw) as Hins;
      assert (weight x <= 2)%nat by (destruct (runJob _ _ _ _); simpl; lia)
    end.
    simpl in *. lia.
  - destruct (workers s !! w) as [[fi consumed| | |]|] eqn:Hw; try discriminate.
    destruct (jobsClosed s); intros [= <-]. simpl.
    pose proof (sum_list_insert weight (workers s) w _ (Sending fi consumed) Hw).
    simpl in *. lia.
  - destruct (main s) as [links|[|todo] r|r]; try discriminate.
    destruct (workers s !! w) as [[|fi consumed| |]|] eqn:Hw; try discriminate.
    intros [= <-]. rewrite waiting_gather, workers_gather.
    pose proof (sum_list_insert weight (workers s) w _ (Exited fi consumed) Hw).
    simpl in *. lia.
Qed.

Lemma pool_run_budget cs : forall s s',
  run objects rnd cs s = Some s' -> (length cs + budget s' <= budget s)%nat.
Proof.
  induction cs as [|c cs IH]; intros s s' Hrun; simpl in Hrun.
  - injection Hrun as <-. simpl. lia.
  - destruct (step objects rnd c s) as [s1|] eqn:Hc; [| discriminate].
    simpl in Hrun. apply pool_step_budget in Hc. apply IH in Hrun. simpl. lia.
Qed.

Lemma pool_run_invariant (P : state -> Prop) :
  (forall c s s', P s -> step objects rnd c s = Some s' -> P s') ->
  forall cs s s', P s -> run objects rnd cs s = Some s' -> P s'.
Proof.
  intros Hstep. induction cs as [|c cs IH]; intros s s' Hs Hrun; simpl in Hrun.
  - congruence.
  - destruct (step objects rnd c s) as [s1|] eqn:Hc; [| discriminate].
    simpl in Hrun. eauto.
Qed.

(** *** The Results a worker sends *)

Lemma step_sent w c s s' :
  step objects rnd c s = Some s' ->
  ((if isCollect w c then 1 else 0) + hasExited w s = hasExited w s')%nat.
Proof.
  unfold step. destruct c as [w'|w'|w']; simpl.
  - destruct (main s) as [[|imgLink rest]|todo r|r]; try discriminate.
    destruct (workers s !! w') as [[fi consumed| | |]|] eqn:Hw; try discriminate.
    intros [= <-]. unfold hasExited. rewrite workers_feed.
    destruct (decide (w = w')) as [->|Hne].
    + rewrite list_lookup_insert_eq by (eapply lookup_lt_Some; eauto).
      rewrite Hw. destruct (runJob _ _ _ _); reflexivity.
    + rewrite list_lookup_insert_ne by congruence. reflexivity.
  - destruct (workers s !! w') as [[fi consumed| | |]|] eqn:Hw; try discriminate.
    destruct (jobsClosed s); intros [= <-]. unfold hasExited. simpl.
    destruct (decide (w = w')) as [->|Hne].
    + rewrite list_lookup_insert_eq by (eapply lookup_lt_Some; eauto).
      rewrite Hw. reflexivity.
    + rewrite list_lookup_insert_ne by congruence. reflexivity.
  - destruct (main s) as [links|[|todo] r|r];
      destruct (workers s !! w') as [[|fi consumed| |]|] eqn:Hw; try discriminate.
    intros [= <-]. unfold hasExited. rewrite workers_gather.
    destruct (Nat.eqb_spec w w') as [->|Hne].
    + rewrite list_lookup_insert_eq by (eapply lookup_lt_Some; eauto).
      rewrite Hw. reflexivity.
    + rewrite list_lookup_insert_ne by congruence. reflexivity.
Qed.

Lemma run_sent w cs : forall s s',
  run objects rnd cs s = Some s' ->
  (sent w cs + hasExited w s = hasExited w s')%nat.
Proof.
  induction cs as [|c cs IH]; intros s s' Hrun; simpl in Hrun.
  - injection Hrun as <-. reflexivity.
  - destruct (step objects rnd c s) as [s1|] eqn:Hc; [| discriminate].
    simpl in Hrun. apply (step_sent w) in Hc. apply IH in Hrun.
    unfold sent in *. simpl. destruct (isCollect w c); simpl in *; lia.
Qed.

(** *** What holds in every state a schedule reaches *)

Lemma alive_ranging ws :
  Forall ranging ws -> sum_list (alive <$> ws) = length ws.
Proof.
  induction 1 as [|x ws (fi & consumed & ->) _ IH]; csimpl; [reflexivity |].
  rewrite IH. reflexivity.
Qed.

Lemma fromLast_insert ws r w x y :
  ws !! w = Some x -> alive x = 1%nat -> fromLast ws r -> fromLast (<[w:=y]> ws) r.
Proof.
  intros Hw Hx Hr l Hl. destruct (Hr l Hl) as (w' & fi & consumed & imgLink & Hw' & Hlast & Hin).
  exists w', fi, consumed, imgLink. split; [| auto].
  rewrite list_lookup_insert_ne; [exact Hw' |].
  intros <-. rewrite Hw in Hw'. injection Hw' as ->. discriminate.
Qed.

Lemma inv_feed n ws links :
  length ws = S n -> Forall payload ws -> Forall (fun x => x <> Crashed) ws ->
  Forall wellFormed links -> Forall ranging ws ->
  inv n (feed n ws links).
Proof.
  intros Hlen Hp Hc Hwf Hr. unfold inv.
  rewrite numberOfJobs_feed, workers_feed.
  repeat (split; [assumption || reflexivity |]).
  destruct links as [|imgLink rest]; simpl.
  - split; [lia |]. split; [rewrite alive_ranging by exact Hr; lia |].
    intros x Hx. inversion Hx.
  - repeat split; auto.
Qed.

Lemma inv_start links :
  Forall wellFormed links -> inv (length links) (pool None links).
Proof.
  intros Hwf. unfold pool. apply inv_feed; auto.
  - apply length_replicate.
  - apply Forall_replicate. reflexivity.
  - apply Forall_replicate. discriminate.
  - apply Forall_replicate. eexists; eexists; reflexivity.
Qed.

Lemma inv_step n c s s' :
  inv n s -> step objects rnd c s = Some s' -> inv n s'.
Proof.
  intros (Hn & Hlen & Hp & Hc & Hm) Hstep. unfold step in Hstep.
  destruct c as [w|w|w].
  - destruct (main s) as [[|imgLink rest]|todo r|r]; try discriminate.
    destruct (workers s !! w) as [[fi consumed| | |]|] eqn:Hw; try discriminate.
    injection Hstep as <-. destruct Hm as (_ & Hwf & Hr).
    apply Forall_cons in Hwf as [Hwf1 Hwf2].
    destruct (runJob_total imgLink fi Hwf1) as [fi' Hfi'].
    rewrite Hfi', Hn. apply inv_feed; auto.
    + rewrite length_insert. exact Hlen.
    + apply Forall_insert; [exact Hp |]. simpl.
      rewrite (runJob_links _ _ _ Hfi'). unfold lastLinks.
      rewrite last_snoc. reflexivity.
    + apply Forall_insert; [exact Hc | discriminate].
    + apply Forall_insert; [exact Hr | eexists; eexists; reflexivity].
  - destruct (workers s !! w) as [[fi consumed| | |]|] eqn:Hw; try discriminate.
    unfold jobsClosed in Hstep.
    destruct (main s) as [links|todo r|r] eqn:Hmain; try discriminate;
      injection Hstep as <-; unfold inv; simpl; rewrite length_insert;
      (split; [exact Hn |]); (split; [exact Hlen |]);
      (split; [apply Forall_insert; [exact Hp |];
               exact (Forall_lookup_1 _ _ _ _ Hp Hw) |]);
      (split; [apply Forall_insert; [exact Hc | discriminate] |]);
      pose proof (sum_list_insert alive (workers s) w _
                    (Sending fi consumed) Hw) as Hins; simpl in Hins.
    + destruct Hm as (Hpos & Htodo & Hfrom). split; [exact Hpos |].
      split; [lia |]. eapply fromLast_insert; eauto.
    + destruct Hm as (Hzero & Hfrom).
      pose proof (sum_list_lookup_le alive (workers s) w _ Hw) as Hle.
      simpl in Hle. lia.
  - destruct (main s) as [links|[|todo] r|r] eqn:Hmain;
      destruct (workers s !! w) as [[|fi consumed| |]|] eqn:Hw; try discriminate.
    injection Hstep as <-. destruct Hm as (_ & Htodo & Hfrom).
    pose proof (sum_list_insert alive (workers s) w _ (Exited fi consumed) Hw) as Hins.
    simpl in Hins.
    assert (Hfrom' : fromLast (<[w:=Exited fi consumed]> (workers s))
                       (mkResult (Links r ++ Links fi) (Error r))).
    { intros x Hx. simpl in Hx. apply elem_of_app in Hx as [Hx|Hx].
      - eapply fromLast_insert; eauto.
      - pose proof (Forall_lookup_1 _ _ _ _ Hp Hw) as Hpay. simpl in Hpay.
        rewrite Hpay in Hx. unfold lastLinks in Hx.
        destruct (last consumed) as [imgLink|] eqn:Hlast; [| inversion Hx].
        exists w, fi, consumed, imgLink. split; [| auto].
        apply list_lookup_insert_eq. eapply lookup_lt_Some; eauto. }
    unfold inv. rewrite numberOfJobs_gather, workers_gather, length_insert.
    split; [exact Hn |]. split; [exact Hlen |].
    split; [apply Forall_insert; [exact Hp |];
            exact (Forall_lookup_1 _ _ _ _ Hp Hw) |].
    split; [apply Forall_insert; [exact Hc | discriminate] |].
    destruct todo as [|todo]; simpl.
    + split; [lia | exact Hfrom'].
    + split; [lia |]. split; [lia | exact Hfrom'].
Qed.

Lemma inv_progress n s :
  inv n s ->
  (exists r, main s = Done r) \/ (exists c s', step objects rnd c s = Some s').
Proof.
  intros (Hn & Hlen & Hp & Hc & Hm).
  destruct (main s) as [links|todo r|r] eqn:Hmain; [| | left; eauto]; right.
  - destruct Hm as (Hne & Hwf & Hr). destruct links as [|imgLink rest]; [done |].
    destruct (workers s) as [|x ws] eqn:Hws; [discriminate |].
    apply Forall_cons in Hr as [(fi & consumed & ->) _].
    exists (Deliver 0). eexists. unfold step. rewrite Hmain, Hws. reflexivity.
  - destruct Hm as (Hpos & Htodo & _).
    destruct (sum_list_pos alive (workers s)) as (w & x & Hw & Hx); [lia |].
    pose proof (Forall_lookup_1 _ _ _ _ Hc Hw) as Hnc.
    destruct x as [fi consumed|fi consumed|fi consumed|];
      [| | simpl in Hx; lia | done].
    + exists (LeaveLoop w). eexists. unfold step, jobsClosed.
      rewrite Hw, Hmain. reflexivity.
    + destruct todo as [|todo]; [lia |].
      exists (Collect w). eexists. unfold step. rewrite Hmain, Hw. reflexivity.
Qed.

(** C9, as amended: when every link contains the bucket name (so that no
    worker panics on [linkAndGranule[1]]), under every schedule: the
    schedule ends and [pool] returns; a worker never sends more than one
    Result, and by the time [pool] returns each of the [numberOfJobs + 1]
    workers has sent exactly one; a worker sends only once [jobs] is closed;
    and the Result it sends holds the object links of the last job it
    received only (none if it received no job), so that every link [pool]
    returns is a link of the last job of some worker: the links of a
    worker's earlier jobs are overwritten and lost. *)
Theorem worker_sends_last_job links :
  Forall wellFormed links ->
  (exists bound, forall cs s,
      run objects rnd cs (pool None links) = Some s -> (length cs <= bound)%nat) /\
  (forall cs s,
      run objects rnd cs (pool None links) = Some s ->
      ((exists r, main s = Done r) \/
       (exists c s', step objects rnd c s = Some s')) /\
      (forall w, (sent w cs <= 1)%nat) /\
      (forall w fi consumed,
          workers s !! w = Some (Sending fi consumed) \/
          workers s !! w = Some (Exited fi consumed) ->
          jobsClosed s = true /\ Links fi = lastLinks objects rnd consumed) /\
      (forall r, main s = Done r ->
          (forall w, (w <= length links)%nat -> sent w cs = 1%nat) /\
          (forall x, x ∈ Links r ->
             exists w fi consumed imgLink,
               workers s !! w = Some (Exited fi consumed) /\
               last consumed = Some imgLink /\
               x ∈ jobLinks objects rnd imgLink))).
Proof.
  intros Hwf. split.
  { exists (budget (pool None links)). intros cs s Hrun.
    apply pool_run_budget in Hrun. lia. }
  intros cs s Hrun.
  pose proof (pool_run_invariant (inv (length links)) (inv_step (length links))
                cs _ s (inv_start links Hwf) Hrun) as Hinv.
  pose proof (inv_progress _ _ Hinv) as Hprog.
  destruct Hinv as (Hn & Hlen & Hp & Hc & Hm).
  assert (Hsent : forall w, sent w cs = hasExited w s).
  { intros w. rewrite <- (run_sent w cs _ s Hrun).
    unfold hasExited, pool. rewrite workers_feed.
    destruct (replicate _ _ !! w) as [x|] eqn:Hx; [| lia].
    apply lookup_replicate in Hx as [-> _]. lia. }
  split; [exact Hprog |]. split; [| split].
  - intros w. rewrite Hsent. unfold hasExited.
    destruct (workers s !! w) as [[| | |]|]; lia.
  - intros w fi consumed Hw. split.
    + unfold jobsClosed. destruct (main s) as [ls|todo r|r]; try reflexivity.
      destruct Hm as (_ & _ & Hr).
      destruct Hw as [Hw|Hw];
        destruct (Forall_lookup_1 _ _ _ _ Hr Hw) as (? & ? & ?); discriminate.
    + destruct Hw as [Hw|Hw]; exact (Forall_lookup_1 _ _ _ _ Hp Hw).
  - intros r Hr. rewrite Hr in Hm. destruct Hm as (Hzero & Hfrom).
    split; [| exact Hfrom]. intros w Hw. rewrite Hsent. unfold hasExited.
    destruct (workers s !! w) as [x|] eqn:Hx.
    + pose proof (sum_list_lookup_le alive _ _ _ Hx) as Hle.
      destruct x; simpl in Hle; lia.
    + apply lookup_ge_None in Hx. lia.
Qed.

End WithBucket.

Lemma worker_sends_last_job_witness :
  Forall wellFormed [linkA; linkB] /\
  exists bound, forall cs s,
    run exampleBucket (fun _ => 7) cs (pool None [linkA; linkB]) = Some s ->
    (length cs <= bound)%nat.
Proof.
  assert (Hwf : Forall wellFormed [linkA; linkB]).
  { apply Forall_cons; split; [eexists; vm_compute; reflexivity |].
    apply Forall_cons; split; [eexists; vm_compute; reflexivity |].
    constructor. }
  split; [exact Hwf |].
  exact (proj1 (worker_sends_last_job exampleBucket (fun _ => 7)
                  [linkA; linkB] Hwf)).
Defined.

(** C9 as stated fails on a link without the bucket name: the worker that
    receives it panics at [linkAndGranule[1]] and sends no Result; once the
    other worker has sent its own, nothing can happen any more. *)
Lemma worker_panics_on_foreign_link :
  splitLink "tiles/A/" = None /\
  run exampleBucket (fun _ => 7) [Deliver 0; LeaveLoop 1; Collect 1]
      (pool None ["tiles/A/"%string])
    = Some (mkState 1 [Crashed; Exited emptyResult []] (Gathering 1 emptyResult)) /\
  sent 0 [Deliver 0; LeaveLoop 1; Collect 1] = 0%nat /\
  forall c, step exampleBucket (fun _ => 7) c
              (mkState 1 [Crashed; Exited emptyResult []] (Gathering 1 emptyResult))
            = None.
Proof.
  split; [vm_compute; reflexivity |].
  split; [vm_compute; reflexivity |].
  split; [reflexivity |].
  intros [w|w|w]; destruct w as [|[|w]]; reflexivity.
Qed.

(** C3 fails on the code: two distinct links whose listings succeed, three
    objects in all; in the schedule in which the first worker receives both
    jobs, [pool] returns the single object of the second link. *)
Theorem pool_loses_overwritten_links :
  NoDup [linkA; linkB] /\
  jobLinks exampleBucket (fun _ => 7) linkA =
    ["gcp-public-data-sentinel-2/tiles/A/a1.jp2";
     "gcp-public-data-sentinel-2/tiles/A/a2.jp2"]%string /\
  jobLinks exampleBucket (fun _ => 7) linkB =
    ["gcp-public-data-sentinel-2/tiles/B/b1.jp2"]%string /\
  main <$> run exampleBucket (fun _ => 7)
             [Deliver 0; Deliver 0; LeaveLoop 0; LeaveLoop 1; LeaveLoop 2;
              Collect 0; Collect 1; Collect 2]
             (pool None [linkA; linkB])
    = Some (Done (mkResult ["gcp-public-data-sentinel-2/tiles/B/b1.jp2"%string] None)).
Proof.
  split; [| split; [| split]]; try (vm_compute; reflexivity).
  apply NoDup_cons; split; [| apply NoDup_singleton].
  intros Hin. apply list_elem_of_In in Hin. destruct Hin as [Heq|[]].
  discriminate Heq.
Qed.

End PoolFacts.

(* ================================================================= *)
(** ** Further properties of the retry executor *)

Module SessionFacts.
Import GoInt GoIntFacts Retry RetryFacts Session.

Lemma pow3_ge_pow2 k : 0 <= k -> 0 < 2 ^ k <= 3 ^ k.
Proof.
  intros Hk. split; [apply Z.pow_pos_nonneg; lia |].
  apply Z.pow_le_mono_l. lia.
Qed.

Lemma pow_pred a k : 0 < k -> a ^ k = a * a ^ (k - 1).
Proof.
  intros Hk. replace k with (k - 1 + 1) at 1 by lia.
  rewrite Z.pow_add_r, Z.pow_1_r by lia. lia.
Qed.

Lemma round_total A B d b T :
  0 < A <= B -> 2 * d <= 3 * b ->
  A * T <= 3 * d * (B - A) ->
  2 * A * (d + T) <= 3 * b * (3 * B - 2 * A).
Proof.
  intros [HA HB] Hd HT.
  assert (H2 : 2 * d * (3 * B - 2 * A) <= 3 * b * (3 * B - 2 * A))
    by (apply Z.mul_le_mono_nonneg_r; lia).
  lia.
Qed.

Lemma sleeps_invoke tr : sleeps (Invoke :: tr) = sleeps tr.
Proof. reflexivity. Qed.

Lemma sleeps_round n r d tr : sleeps (Int63n n r :: Sleep d :: tr) = d :: sleeps tr.
Proof. reflexivity. Qed.

(** Sleeps of a backing-off trace grow by less than half each round, so
    [k] of them from the delay [b] last at most [3b((3/2)^k - 1)]. *)
Lemma backoff_total : forall (n : nat) tr b k,
  (length tr <= n)%nat -> 0 < b -> 0 <= k ->
  backoff b tr -> Z.of_nat (length (sleeps tr)) <= k ->
  Forall (fun d => b <= d) (sleeps tr) /\
  2 ^ k * totalSleep tr <= 3 * b * (3 ^ k - 2 ^ k).
Proof.
  unfold totalSleep.
  induction n as [|n IH]; intros tr b k Hn Hb Hk Hback Hlen.
  - destruct tr; [| simpl in Hn; lia]. simpl.
    pose proof (pow3_ge_pow2 k Hk). split; [constructor | nia].
  - destruct tr as [|[|m r|d] tr]; cbn [backoff] in Hback.
    + simpl. pose proof (pow3_ge_pow2 k Hk). split; [constructor | nia].
    + rewrite sleeps_invoke in *. simpl in Hn. apply (IH tr b k); auto. lia.
    + destruct tr as [|[|m' r'|d] tr]; try contradiction.
      destruct Hback as (-> & HJ0 & HJ1 & -> & Hback).
      rewrite sleeps_round in *. cbn [length foldr] in *.
      assert (Hk1 : 0 < k) by lia.
      destruct (IH tr (b + r ÷ 2) (k - 1)) as [Hall Hsum]; auto; try lia.
      split.
      * constructor; [lia |]. eapply Forall_impl; [exact Hall |].
        intros x Hx. simpl in Hx. lia.
      * rewrite (pow_pred 2 k Hk1), (pow_pred 3 k Hk1).
        pose proof (pow3_ge_pow2 (k - 1) ltac:(lia)) as HAB.
        revert Hsum HAB.
        generalize (2 ^ (k - 1)) (3 ^ (k - 1)) (foldr Z.add 0 (sleeps tr)).
        intros A B T Hsum HAB.
        pose proof (round_total A B (b + r ÷ 2) b T HAB ltac:(lia) Hsum). lia.
    + contradiction.
Qed.

Section Generic.
Context {St : Type}.
Variable callback : St -> St * option error.

Lemma retry_loop_shape fuel : forall i attempts sleep rnd st r,
  retry_loop callback fuel i attempts sleep rnd st = Some r ->
  invocations (trace r) = S (length (sleeps (trace r))) /\
  (inRange i -> minInt < attempts <= maxInt ->
   Z.of_nat (invocations (trace r)) <= Z.max 1 (attempts - i)).
Proof.
  induction fuel as [|fuel IH]; intros i attempts sleep rnd st r Hrun;
    [discriminate |].
  simpl in Hrun. destruct (callback st) as [st' [e|]];
    [| injection Hrun as <-; split; [reflexivity | unfold invocations; simpl; lia]].
  destruct (Z.geb_spec i (sub attempts 1)) as [Hge|Hlt];
    [injection Hrun as <-; split; [reflexivity | unfold invocations; simpl; lia] |].
  destruct (Z.leb_spec sleep 0) as [Hs|Hs];
    [injection Hrun as <-; split; [reflexivity | unfold invocations; simpl; lia] |].
  destruct (retry_loop callback fuel _ _ _ _ st') as [r'|] eqn:Hr';
    [| discriminate].
  injection Hrun as <-. apply IH in Hr' as [Hshape Hbound].
  unfold before. cbn [trace].
  rewrite invocations_app.
  change (sleeps (?a ++ trace r')) with (sleeps ([Invoke] ++ Int63n sleep (int63n sleep (rnd 0%nat)) :: Sleep (add sleep (quot (int63n sleep (rnd 0%nat)) 2)) :: trace r')).
  cbn [app]. rewrite sleeps_invoke, sleeps_round. cbn [length].
  split; [unfold invocations at 1; simpl; lia |].
  intros Hi Ha. rewrite sub_one in Hlt by assumption.
  assert (Hi1 : add i 1 = i + 1).
  { apply wrap_id. unfold inRange, minInt, maxInt in *. lia. }
  rewrite Hi1 in Hbound.
  assert (Hi' : inRange (i + 1)) by (unfold inRange, minInt, maxInt in *; lia).
  specialize (Hbound Hi' Ha). unfold invocations at 1. simpl. lia.
Qed.

(** X1: [retry] ends, whatever its arguments; its trace is one
    invocation followed by rounds of one draw, one sleep and one
    invocation: between two consecutive invocations it sleeps exactly
    once, and never after the last one; and it never invokes the
    operation more often than [attempts] (once, if [attempts] is not
    positive). *)
Theorem retry_one_sleep_between attempts sleep rnd st :
  minInt < attempts <= maxInt ->
  exists r, retry callback attempts sleep rnd st = Some r /\
            interleaved (trace r) /\
            invocations (trace r) = S (length (sleeps (trace r))) /\
            Z.of_nat (invocations (trace r)) <= Z.max 1 attempts.
Proof.
  intros Ha. destruct (retry_total callback attempts sleep rnd st) as (r & Hr & _).
  exists r. split; [exact Hr |].
  split; [exact (retry_loop_alternating callback _ _ _ _ _ _ _ Hr) |].
  apply retry_loop_shape in Hr as [Hshape Hbound]. split; [exact Hshape |].
  rewrite Z.sub_0_r in Hbound. apply Hbound; [| exact Ha].
  unfold inRange, minInt, maxInt. lia.
Qed.

(** X2: a retry with the default session (5 attempts, 10 seconds) returns
    nil or an error, invokes the operation at most 5 times, sleeps at least
    10 seconds each time and at most 121.875 seconds in total
    (16 * total <= 195 * 10 s), whatever the operation and the random
    source do. *)
Theorem default_retry_budget rnd st :
  exists r, retryWith DefaultRetry callback rnd st = Some r /\
            result r <> Panic /\
            (invocations (trace r) <= 5)%nat /\
            Forall (fun d => 10 * Second <= d) (sleeps (trace r)) /\
            16 * totalSleep (trace r) <= 195 * (10 * Second).
Proof.
  unfold retryWith, DefaultRetry. cbn [MaxRetries Duration].
  destruct (retry_default callback rnd st) as (r & Hr & Hnp).
  change (mul 10 Second) with (mul 10 1000000000).
  exists r. split; [exact Hr |]. split; [exact Hnp |].
  assert (Hval : mul 10 1000000000 = 10 * Second) by reflexivity.
  unfold retry in Hr.
  pose proof (retry_loop_shape _ _ _ _ _ _ _ Hr) as [Hshape Hbound].
  assert (Hinv : Z.of_nat (invocations (trace r)) <= 5).
  { rewrite Z.sub_0_r in Hbound. apply Hbound;
      unfold inRange, minInt, maxInt; lia. }
  apply retry_loop_backoff in Hr as (Hback & _ & _);
    [| unfold inRange, minInt, maxInt; lia | unfold minInt, maxInt; lia
     | vm_compute; discriminate].
  rewrite Hval in Hback.
  destruct (backoff_total (length (trace r)) (trace r) (10 * Second) 4)
    as [Hall Hsum]; auto; try (unfold Second; lia).
  split; [lia |]. split; [exact Hall |].
  change (2 ^ 4) with 16 in Hsum. change (3 ^ 4) with 81 in Hsum. lia.
Qed.

End Generic.

Lemma retry_one_sleep_between_witness :
  minInt < 3 <= maxInt /\
  exists r, retry (counting (fails_first 7)) 3 1000 (fun _ => 5) 0%nat = Some r /\
            interleaved (trace r) /\
            invocations (trace r) = S (length (sleeps (trace r))) /\
            Z.of_nat (invocations (trace r)) <= Z.max 1 3.
Proof.
  assert (H : minInt < 3 <= maxInt) by (unfold minInt, maxInt; lia).
  split; [exact H |].
  exact (retry_one_sleep_between (counting (fails_first 7)) 3 1000 (fun _ => 5) 0%nat H).
Defined.

End SessionFacts.

(* ================================================================= *)
(** ** Coordinates and links *)

Module CoordsFacts.
Import Coords.

Section Normalize.
Context {float64 : Type}.
Variable zero : float64.
Variable f : string -> Z -> float64 + error.

Lemma normalizeFrom_ok vs : forall xs done todo,
  Forall2 (fun v x => f v (-1) = inl x) vs xs ->
  length todo = length vs ->
  normalizeFrom f (length done) vs (done ++ todo) = (done ++ xs, None).
Proof.
  induction vs as [|v vs IH]; intros xs done todo Hall Hlen.
  - apply Forall2_nil_inv_l in Hall as ->.
    destruct todo; [reflexivity | discriminate].
  - apply Forall2_cons_inv_l in Hall as (x & xs' & Hx & Hall & ->).
    destruct todo as [|z todo]; [discriminate |].
    simpl. rewrite Hx.
    replace (<[length done:=x]> (done ++ z :: todo)) with ((done ++ [x]) ++ todo).
    + replace (S (length done)) with (length (done ++ [x]))
        by (rewrite length_app; simpl; lia).
      rewrite IH with (xs := xs'); auto.
      rewrite <- app_assoc. reflexivity.
    + rewrite insert_app_r_alt by lia. rewrite Nat.sub_diag.
      rewrite <- app_assoc. reflexivity.
Qed.

Lemma normalizeFrom_err v post err pre : forall xs i vsm,
  Forall2 (fun v x => f v (-1) = inl x) pre xs ->
  f v (-1) = inr err ->
  normalizeFrom f i (pre ++ v :: post) vsm = ([], Some err).
Proof.
  induction pre as [|u pre IH]; intros xs i vsm Hall Herr.
  - simpl. rewrite Herr. reflexivity.
  - apply Forall2_cons_inv_l in Hall as (x & xs' & Hx & Hall & ->).
    simpl. rewrite Hx. eapply IH; eauto.
Qed.

(** X3: [normalizeCoords] converts all or nothing. When every string
    converts, it returns the converted values in input order (one per
    string) and no error; when some string does not convert, it returns the
    error of the first such string and no values at all. *)
Theorem normalizeCoords_all_or_nothing :
  (forall vs xs,
      Forall2 (fun v x => f v (-1) = inl x) vs xs ->
      normalizeCoords zero f vs = (xs, None)) /\
  (forall pre v post xs err,
      Forall2 (fun v x => f v (-1) = inl x) pre xs ->
      f v (-1) = inr err ->
      normalizeCoords zero f (pre ++ v :: post) = ([], Some err)).
Proof.
  split.
  - intros vs xs Hall. unfold normalizeCoords.
    apply (normalizeFrom_ok vs xs [] (replicate (length vs) zero) Hall).
    apply length_replicate.
  - intros pre v post xs err Hall Herr. unfold normalizeCoords.
    eapply normalizeFrom_err; eauto.
Qed.

End Normalize.

Lemma normalizeCoords_all_or_nothing_witness :
  normalizeCoords 0 sampleParse ["1"; "2"; "3"; "2"]%string = ([1; 2; 3; 2], None) /\
  normalizeCoords 0 sampleParse ["1"; "x"; "3"; "y"]%string =
    ([], Some "invalid syntax: x"%string).
Proof.
  split.
  - apply (proj1 (normalizeCoords_all_or_nothing 0 sampleParse)).
    repeat constructor.
  - apply (proj2 (normalizeCoords_all_or_nothing 0 sampleParse)
             ["1"%string] "x"%string ["3"; "y"]%string [1]).
    + repeat constructor.
    + reflexivity.
Defined.

End CoordsFacts.

(* ================================================================= *)
(** ** Listing a bucket, and the links handed to the pool *)

Module ListingFacts.
Import GoInt GoIntFacts Retry RetryFacts Pool Query.

Lemma listObjects_ok bucketName names : forall links,
  listObjects bucketName (Attr <$> names) links =
  (links ++ ((fun name => bucketName +:+ "/" +:+ name) <$> names), None).
Proof.
  induction names as [|name names IH]; intros links; csimpl.
  - rewrite app_nil_r. reflexivity.
  - rewrite IH, <- app_assoc. reflexivity.
Qed.

Lemma listObjects_err bucketName names e rest : forall links,
  listObjects bucketName ((Attr <$> names) ++ AttrErr e :: rest) links =
  ([], Some e).
Proof.
  induction names as [|name names IH]; intros links; csimpl; [reflexivity |].
  apply IH.
Qed.

Lemma listObjects_failed bucketName its : forall links e,
  snd (listObjects bucketName its links) = Some e ->
  fst (listObjects bucketName its links) = [].
Proof.
  induction its as [|[name|e'] its IH]; intros links e; simpl; eauto.
  discriminate.
Qed.

(** X4: [getImagesFromBucket] lists all or nothing. When the iterator
    yields the object names without error, it returns one link per object,
    [bucketName + "/" + name], in the order listed, and no error; when the
    iterator fails, it returns that error and no link, whatever it had
    listed before. *)
Theorem getImagesFromBucket_all_or_nothing
    (objects : string -> string -> nat -> list attrResult)
    bucketName objectName call names :
  (objects bucketName objectName call = Attr <$> names ->
   getImagesFromBucket objects bucketName objectName call =
     ((fun name => bucketName +:+ "/" +:+ name) <$> names, None)) /\
  (forall e rest,
     objects bucketName objectName call = (Attr <$> names) ++ AttrErr e :: rest ->
     getImagesFromBucket objects bucketName objectName call = ([], Some e)).
Proof.
  unfold getImagesFromBucket. split.
  - intros ->. apply listObjects_ok.
  - intros e rest ->. apply listObjects_err.
Qed.

Lemma getImagesFromBucket_witness :
  getImagesFromBucket exampleBucket "gcp-public-data-sentinel-2" "tiles/A" 0 =
  (["gcp-public-data-sentinel-2/tiles/A/a1.jp2";
    "gcp-public-data-sentinel-2/tiles/A/a2.jp2"]%string, None).
Proof.
  exact (proj1 (getImagesFromBucket_all_or_nothing exampleBucket
                  "gcp-public-data-sentinel-2" "tiles/A" 0
                  ["tiles/A/a1.jp2"; "tiles/A/a2.jp2"]%string) eq_refl).
Defined.

Section Job.
Variable objects : string -> string -> nat -> list attrResult.
Variable rnd : nat -> Z.
Variable bucketName imageObject : string.

(** The error of the [call]-th listing made for the job, if any. *)
Local Abbreviation op :=
  (fun call => snd (getImagesFromBucket objects bucketName imageObject call)).
Local Abbreviation listing :=
  (fun call => fst (getImagesFromBucket objects bucketName imageObject call)).

Lemma again_step n res :
  again objects bucketName imageObject (n, res) = ((S n, listing n), op n).
Proof.
  unfold again. simpl.
  destruct (getImagesFromBucket objects bucketName imageObject n). reflexivity.
Qed.

Lemma again_succeeds k : forall fuel i sleep rnd' (n : nat) res,
  (k < fuel)%nat -> 0 <= i -> i + Z.of_nat k < 5 ->
  0 < sleep -> sleep * 2 ^ Z.of_nat k <= maxInt ->
  (forall j, (j < k)%nat -> is_Some (op (n + j)%nat)) -> op (n + k)%nat = None ->
  exists r, retry_loop (again objects bucketName imageObject) fuel i 5 sleep
              rnd' (n, res) = Some r /\
            result r = Nil /\ snd (final r) = listing (n + k)%nat.
Proof.
  induction k as [|k IH]; intros fuel i sleep rnd' n res Hfuel Hi Hik Hs Hfit Hfail Hok;
    (destruct fuel as [|fuel]; [lia |]); cbn [retry_loop]; rewrite again_step.
  - rewrite Nat.add_0_r in *. rewrite Hok. eexists; repeat split.
  - destruct (Hfail 0%nat) as [e He]; [lia |]. rewrite Nat.add_0_r in He.
    rewrite He. change (sub 5 1) with 4.
    destruct (Z.geb_spec i 4); [lia |].
    destruct (Z.leb_spec sleep 0); [lia |].
    replace (Z.of_nat (S k)) with (Z.of_nat k + 1) in Hfit by lia.
    apply pow2_step in Hfit as [H2 Hnext]; [| lia | lia].
    destruct (round_bounds sleep (rnd' 0%nat) Hs H2) as (HJ0 & HJ1 & Hsum).
    rewrite Hsum.
    assert (Hi1 : add i 1 = i + 1).
    { apply wrap_id. unfold inRange, minInt, maxInt in *. lia. }
    rewrite Hi1.
    destruct (IH fuel (i + 1) (sleep + int63n sleep (rnd' 0%nat) ÷ 2)
                (fun m => rnd' (S m)) (S n) (listing n)) as (r & Hr & Hres & Hfin);
      try lia.
    + apply Hnext. lia.
    + intros j Hj. replace (S n + j)%nat with (n + S j)%nat by lia.
      apply Hfail. lia.
    + replace (S n + k)%nat with (n + S k)%nat by lia. exact Hok.
    + rewrite Hr. eexists; split; [reflexivity |]. split; [exact Hres |].
      unfold before. cbn [final]. rewrite Hfin.
      replace (n + S k)%nat with (S n + k)%nat by lia. reflexivity.
Qed.

Lemma again_exhausts k : forall fuel i sleep rnd' (n : nat) res,
  (k < fuel)%nat -> 0 <= i -> i + Z.of_nat k = 4 ->
  0 < sleep -> sleep * 2 ^ Z.of_nat k <= maxInt ->
  (forall j, (j <= k)%nat -> is_Some (op (n + j)%nat)) ->
  exists r e, retry_loop (again objects bucketName imageObject) fuel i 5 sleep
                rnd' (n, res) = Some r /\
              op (n + k)%nat = Some e /\
              result r = Err (errorf 5 e) /\ snd (final r) = [].
Proof.
  induction k as [|k IH]; intros fuel i sleep rnd' n res Hfuel Hi Hik Hs Hfit Hfail;
    (destruct fuel as [|fuel]; [lia |]); cbn [retry_loop]; rewrite again_step;
    (destruct (Hfail 0%nat) as [e He]; [lia |]); rewrite Nat.add_0_r in He;
    rewrite He; change (sub 5 1) with 4.
  - destruct (Z.geb_spec i 4); [| lia].
    rewrite Nat.add_0_r. eexists; exists e. repeat split; auto.
    cbn [final snd]. eapply listObjects_failed. exact He.
  - destruct (Z.geb_spec i 4); [lia |].
    destruct (Z.leb_spec sleep 0); [lia |].
    replace (Z.of_nat (S k)) with (Z.of_nat k + 1) in Hfit by lia.
    apply pow2_step in Hfit as [H2 Hnext]; [| lia | lia].
    destruct (round_bounds sleep (rnd' 0%nat) Hs H2) as (HJ0 & HJ1 & Hsum).
    rewrite Hsum.
    assert (Hi1 : add i 1 = i + 1).
    { apply wrap_id. unfold inRange, minInt, maxInt in *. lia. }
    rewrite Hi1.
    destruct (IH fuel (i + 1) (sleep + int63n sleep (rnd' 0%nat) ÷ 2)
                (fun m => rnd' (S m)) (S n) (listing n))
      as (r & e' & Hr & He' & Hres & Hfin); try lia.
    + apply Hnext. lia.
    + intros j Hj. replace (S n + j)%nat with (n + S j)%nat by lia.
      apply Hfail. lia.
    + rewrite Hr. eexists; exists e'. split; [reflexivity |].
      replace (n + S k)%nat with (S n + k)%nat by lia.
      split; [exact He' |]. split; [exact Hres |]. exact Hfin.
Qed.

(** X5: one job of a worker lists the bucket at most six times, once and
    then through [retry] with the default session.  If the listing number
    [k] (counted from 0, [k <= 5]) is the first to succeed, the worker's
    links become that listing and its error is left as it was; if all six
    listings fail, its links become empty and its error becomes "after 5
    attempts, last error: <error of the sixth listing>". *)
Theorem runJob_first_success imgLink folderImages :
  splitLink imgLink = Some (bucketName, imageObject) ->
  (forall k : nat,
      (k <= 5)%nat ->
      (forall j, (j < k)%nat -> is_Some (op j)) -> op k = None ->
      runJob objects rnd imgLink folderImages =
        Some (mkResult (listing k) (Error folderImages))) /\
  ((forall j, (j <= 5)%nat -> is_Some (op j)) ->
   exists e, op 5%nat = Some e /\
     runJob objects rnd imgLink folderImages =
       Some (mkResult [] (Some ("after 5 attempts, last error: " +:+ e)))).
Proof.
  intros Hsplit. unfold runJob. rewrite Hsplit. cbn [mbind option_bind].
  assert (Hsleep : defaultSleep = 10000000000) by reflexivity.
  split.
  - intros k Hk Hfail Hok.
    destruct (getImagesFromBucket objects bucketName imageObject 0)
      as [result err] eqn:H0.
    destruct k as [|k].
    + simpl in Hok. rewrite H0 in Hok. simpl in Hok. subst err.
      rewrite H0. reflexivity.
    + destruct (Hfail 0%nat) as [e0 He0]; [lia |]. rewrite H0 in He0.
      simpl in He0. subst err.
      destruct (again_succeeds k (retry_fuel 5) 0 defaultSleep rnd 1 result)
        as (r & Hr & Hres & Hfin); try (rewrite Hsleep); try lia.
      * unfold retry_fuel. change (sub 5 1) with 4. lia.
      * apply (pow2_le 10000000000 _ 4); unfold maxInt; lia.
      * intros j Hj. apply Hfail. lia.
      * exact Hok.
      * unfold retry, defaultMaxRetries. rewrite Hsleep in *. rewrite Hr.
        cbn [mbind option_bind]. rewrite Hres, Hfin. reflexivity.
  - intros Hfail.
    destruct (getImagesFromBucket objects bucketName imageObject 0)
      as [result err] eqn:H0.
    destruct (Hfail 0%nat) as [e0 He0]; [lia |]. rewrite H0 in He0.
    simpl in He0. subst err.
    destruct (again_exhausts 4 (retry_fuel 5) 0 defaultSleep rnd 1 result)
      as (r & e & Hr & He & Hres & Hfin); try (rewrite Hsleep); try lia.
    + unfold retry_fuel. change (sub 5 1) with 4. lia.
    + unfold maxInt. lia.
    + intros j Hj. apply Hfail. lia.
    + exists e. split; [exact He |].
      unfold retry, defaultMaxRetries. rewrite Hsleep in *. rewrite Hr.
      cbn [mbind option_bind]. rewrite Hres, Hfin. reflexivity.
Qed.

End Job.

Lemma runJob_first_success_witness :
  splitLink "gcp-public-data-sentinel-2/tiles/C/" =
    Some ("gcp-public-data-sentinel-2", "tiles/C")%string /\
  runJob flakyBucket (fun _ => 7) "gcp-public-data-sentinel-2/tiles/C/" emptyResult =
    Some (mkResult ["gcp-public-data-sentinel-2/tiles/C/c1.jp2"%string] None).
Proof.
  assert (Hsplit : splitLink "gcp-public-data-sentinel-2/tiles/C/" =
                   Some ("gcp-public-data-sentinel-2", "tiles/C")%string)
    by (vm_compute; reflexivity).
  split; [exact Hsplit |].
  apply (proj1 (runJob_first_success flakyBucket (fun _ => 7)
                  "gcp-public-data-sentinel-2" "tiles/C"
                  "gcp-public-data-sentinel-2/tiles/C/" emptyResult Hsplit) 2%nat).
  - lia.
  - intros [|[|j]] Hj; [eexists; reflexivity .. | lia].
  - reflexivity.
Defined.

(** *** Links built by getImageBaseURL *)

Lemma splitAfterFrom_nonempty sep s : forall piece skip,
  exists x xs, splitAfterFrom sep s piece skip = x :: xs.
Proof.
  induction s as [|ch s IH]; intros piece skip; simpl; [eauto |].
  destruct (if _ : bool then _ else _) as [|[|n]]; eauto.
Qed.

Lemma splitLink_in_bucket tail :
  exists obj,
    splitLink ("gcp-public-data-sentinel-2" +:+ tail) =
    Some ("gcp-public-data-sentinel-2"%string, obj).
Proof.
  unfold splitLink, SplitAfter.
  assert (Hhead : splitAfterFrom "gcp-public-data-sentinel-2"
                    ("gcp-public-data-sentinel-2" +:+ tail) "" 0 =
                  "gcp-public-data-sentinel-2"%string ::
                  splitAfterFrom "gcp-public-data-sentinel-2" tail "" 0)
    by (destruct tail; reflexivity).
  rewrite Hhead.
  destruct (splitAfterFrom_nonempty "gcp-public-data-sentinel-2" tail "" 0)
    as (x & xs & ->).
  eexists. reflexivity.
Qed.

Lemma fullImageURL_in_bucket path granule_id :
  fullImageURL ("gs://gcp-public-data-sentinel-2" +:+ path) granule_id =
  "gcp-public-data-sentinel-2" +:+
    (path +:+ "/GRANULE/" +:+ granule_id +:+ "/IMG_DATA/").
Proof. reflexivity. Qed.

Lemma collectLinks_ok its : forall links,
  Forall inBucket its ->
  exists more,
    collectLinks its links = (links ++ more, None) /\
    length more = length its /\
    Forall (fun l => exists obj,
              splitLink l = Some ("gcp-public-data-sentinel-2"%string, obj)) more.
Proof.
  induction its as [|it its IH]; intros links Hall.
  - exists []. rewrite app_nil_r. repeat split. constructor.
  - apply Forall_cons in Hall as [Hit Hall].
    destruct it as [base_url granule_id|e]; [| contradiction].
    destruct Hit as [path ->]. simpl.
    destruct (IH (links ++ [fullImageURL ("gs://gcp-public-data-sentinel-2" +:+ path)
                              granule_id]) Hall) as (more & Hrun & Hlen & Hwf).
    exists (fullImageURL ("gs://gcp-public-data-sentinel-2" +:+ path) granule_id :: more).
    rewrite Hrun, <- app_assoc. split; [reflexivity |].
    split; [simpl; lia |]. constructor; [| exact Hwf].
    rewrite fullImageURL_in_bucket. apply splitLink_in_bucket.
Qed.

(** X6: when the query succeeds and every row's base_url lies in the
    public bucket ("gs://gcp-public-data-sentinel-2..."), [getImageBaseURL]
    returns one link per row, and every link is one the pool's workers can
    split: it yields the bucket name "gcp-public-data-sentinel-2" and an
    object prefix, so no worker panics on it. *)
Theorem getImageBaseURL_links_fit_workers its :
  Forall inBucket its ->
  exists links,
    getImageBaseURL None (Rows its) = (links, None) /\
    length links = length its /\
    Forall wellFormed links /\
    Forall (fun l => exists obj,
              splitLink l = Some ("gcp-public-data-sentinel-2"%string, obj)) links.
Proof.
  intros Hall. destruct (collectLinks_ok its [] Hall) as (links & Hrun & Hlen & Hwf).
  exists links. simpl. rewrite Hrun. repeat split; auto.
  eapply Forall_impl; [exact Hwf |]. intros l [obj Hl]. unfold wellFormed. rewrite Hl. eexists; reflexivity.
Qed.

Lemma getImageBaseURL_links_fit_workers_witness :
  Forall inBucket
    [UrlRow "gs://gcp-public-data-sentinel-2/tiles/33/U/UP/S2A.SAFE" "S2A_T33UUP"] /\
  exists links,
    getImageBaseURL None
      (Rows [UrlRow "gs://gcp-public-data-sentinel-2/tiles/33/U/UP/S2A.SAFE"
               "S2A_T33UUP"]) = (links, None) /\
    length links = 1%nat /\ Forall wellFormed links.
Proof.
  assert (H : Forall inBucket
                [UrlRow "gs://gcp-public-data-sentinel-2/tiles/33/U/UP/S2A.SAFE"
                   "S2A_T33UUP"]).
  { constructor; [| constructor].
    exists "/tiles/33/U/UP/S2A.SAFE"%string. reflexivity. }
  split; [exact H |].
  destruct (getImageBaseURL_links_fit_workers _ H) as (links & Hrun & Hlen & Hwf & _).
  exists links. auto.
Defined.

End ListingFacts.

(* ================================================================= *)
(** ** Cell count dispatcher, for arbitrary answers *)

Module CollectingFacts.
Import GoInt GoIntFacts ListFacts Dispatcher DispatcherFacts Collecting.

Lemma finished_le_1 t : (finished t <= 1)%nat.
Proof. destruct t; simpl; lia. Qed.

Lemma sum_list_bound {A} (f : A -> nat) (l : list A) :
  (forall x, f x <= 1)%nat -> (sum_list (f <$> l) <= length l)%nat.
Proof.
  intros Hf. induction l as [|a l IH]; csimpl; [lia |]. specialize (Hf a). lia.
Qed.

Lemma sum_list_full {A} (f : A -> nat) (l : list A) :
  (forall x, f x <= 1)%nat -> sum_list (f <$> l) = length l ->
  forall i x, l !! i = Some x -> f x = 1%nat.
Proof.
  intros Hf. induction l as [|a l IH]; csimpl; intros Hsum [|i] x Hi;
    try discriminate.
  - injection Hi as ->. pose proof (sum_list_bound f l Hf). specialize (Hf x). lia.
  - pose proof (sum_list_bound f l Hf). specialize (Hf a).
    apply (IH ltac:(lia) i x Hi).
Qed.

Lemma sum_list_missing {A} (f : A -> nat) (l : list A) i x :
  (forall x, f x <= 1)%nat -> l !! i = Some x -> f x = 0%nat ->
  (sum_list (f <$> l) < length l)%nat.
Proof.
  intros Hf Hi Hx. pose proof (sum_list_bound f l Hf) as Hle.
  destruct (decide (sum_list (f <$> l) = length l)) as [Heq|Hne]; [| lia].
  pose proof (sum_list_full f l Hf Heq i x Hi). lia.
Qed.

Lemma reports_unfinished t e : reports t = Some e -> finished t = 0%nat.
Proof. destruct t; simpl; congruence. Qed.

Lemma loop_unfinished its : forall count row, finished (loop count row its) = 0%nat.
Proof.
  induction its as [|[v|e] its IH]; intros count row; simpl; auto.
Qed.

Lemma afterErrSend_unfinished t e :
  reports t = Some e -> finished (afterErrSend t) = 0%nat.
Proof.
  destruct t as [e'|e' count [v|] rest|count| |]; simpl; try discriminate;
    intros _; try reflexivity.
  apply loop_unfinished.
Qed.

Lemma started_unfinished {Cell} (answer : Cell -> readResult) cover i t :
  started answer cover !! i = Some t -> finished t = 0%nat.
Proof.
  unfold started. rewrite list_lookup_fmap.
  destruct (cover !! i) as [c|]; [| discriminate]. intros [= <-].
  unfold getImageCount. destruct (answer c); [reflexivity | apply loop_unfinished].
Qed.

Lemma untouched_reports ts0 s i t0 e :
  untouched ts0 s i -> ts0 !! i = Some t0 -> reports t0 = Some e ->
  length (tasks s) = length ts0 -> tasks s !! i = Some t0.
Proof.
  intros Hu H0 Hrep Hlen.
  destruct (tasks s !! i) as [t|] eqn:Hi.
  - destruct (Hu t Hi) as [H|[_ [count H]]]; rewrite H0 in H.
    + congruence.
    + injection H as ->. discriminate.
  - apply lookup_ge_None in Hi. apply lookup_lt_Some in H0. lia.
Qed.

Section Coherent.
Variable ts0 : list task.

Lemma coherent_await todo imageCount ts res :
  length ts = length ts0 ->
  (length res <= sum_list (finished <$> ts))%nat ->
  (forall i t, ts !! i = Some t ->
     ts0 !! i = Some t \/
     (t = Finished /\ exists count, ts0 !! i = Some (AtCount count))) ->
  (todo + sum_list (finished <$> ts) = length res + length ts0)%nat ->
  coherent ts0 (await todo imageCount ts res).
Proof.
  intros Hlen Hres Hun Htodo.
  pose proof (sum_list_bound finished ts finished_le_1) as Hb.
  destruct todo as [|todo]; unfold coherent; simpl.
  - assert (Hfull : sum_list (finished <$> ts) = length ts) by lia.
    assert (Hnil : res = []) by (destruct res; [reflexivity | simpl in *; lia]).
    assert (Hfin : forall i t, ts !! i = Some t -> t = Finished).
    { intros i t Hi.
      pose proof (sum_list_full finished ts finished_le_1 Hfull i t Hi).
      destruct t; simpl in *; congruence. }
    repeat split; auto.
    intros i t Hi. destruct (ts !! i) as [t'|] eqn:Hi'.
    + pose proof (Hfin i t' Hi') as ->.
      destruct (Hun i Finished Hi') as [H0|[_ [count H0]]]; rewrite H0 in Hi;
        injection Hi as <-; reflexivity.
    + apply lookup_ge_None in Hi'. apply lookup_lt_Some in Hi. lia.
  - repeat split; auto.
Qed.

(** A goroutine with a count to send finds the channel open. *)
Lemma coherent_open s i count :
  coherent ts0 s -> tasks s !! i = Some (AtCount count) -> closed s = false.
Proof.
  intros (_ & _ & Hmain) Hi.
  destruct (main s) as [todo acc|e|[v [e|]]|].
  - apply Hmain.
  - apply Hmain.
  - apply Hmain.
  - destruct Hmain as (_ & _ & Hfin & _). specialize (Hfin i _ Hi). discriminate.
  - destruct Hmain as [Hnil _]. rewrite Hnil in Hi. discriminate.
Qed.

Lemma coherent_length s :
  coherent ts0 s -> main s <> Died -> length (tasks s) = length ts0.
Proof. intros (Hlen & _). exact Hlen. Qed.

Lemma coherent_step c s s' :
  coherent ts0 s -> step c s = Some s' -> coherent ts0 s'.
Proof.
  intros Hco Hstep. pose proof Hco as (Hlen & Hres & Hmain).
  destruct c as [i| |i| |i]; simpl in Hstep.
  - (* a goroutine sends its count *)
    destruct (tasks s !! i) as [[| |count| |]|] eqn:Hi; try discriminate.
    rewrite (coherent_open s i count Hco Hi) in Hstep.
    destruct (_ <? _)%nat; [| discriminate]. injection Hstep as <-.
    pose proof (sum_list_insert finished (tasks s) i (AtCount count) Finished Hi)
      as Hsum. simpl in Hsum.
    assert (Hsent : untouched ts0 s i ->
      untouched ts0 (mkState (<[i:=Finished]> (tasks s)) (results s ++ [count])
                       false (main s)) i).
    { intros Hu t Ht. simpl in Ht.
      rewrite list_lookup_insert_eq in Ht by (eapply lookup_lt_Some; eauto).
      injection Ht as <-. right. split; [reflexivity |].
      destruct (Hu _ Hi) as [H|[H _]]; [eauto | discriminate]. }
    assert (Hkeep : forall k, k <> i -> untouched ts0 s k ->
      untouched ts0 (mkState (<[i:=Finished]> (tasks s)) (results s ++ [count])
                       false (main s)) k).
    { intros k Hk Hu t Ht. simpl in Ht.
      rewrite list_lookup_insert_ne in Ht by congruence. auto. }
    unfold coherent; simpl. rewrite length_insert, length_app. simpl.
    split; [assumption |]. split; [lia |].
    destruct (main s) as [todo acc|e|[v [e|]]|].
    + destruct Hmain as (_ & Hun & Htodo). split; [reflexivity |].
      split; [| lia].
      intros k. destruct (decide (k = i)) as [->|Hk]; auto.
    + destruct Hmain as (_ & i0 & t0 & H0 & Hrep & Hun).
      split; [reflexivity |].
      exists i0, t0. split; [assumption |]. split; [assumption |].
      intros k Hk0. destruct (decide (k = i)) as [->|Hk]; auto.
    + destruct Hmain as (_ & Hv & i0 & t0 & H0 & Hrep & Hun).
      split; [reflexivity |]. split; [assumption |].
      exists i0, t0. split; [assumption |]. split; [assumption |].
      intros k Hk0. destruct (decide (k = i)) as [->|Hk]; auto.
    + destruct Hmain as (_ & _ & Hfin & _). specialize (Hfin i _ Hi).
      discriminate.
    + destruct Hmain as [Hnil _]. rewrite Hnil in Hi. discriminate.
  - (* select takes a count *)
    destruct (main s) as [[|todo] acc|e|v|] eqn:Hm; try discriminate.
    destruct (results s) as [|count rest] eqn:Hr; [discriminate |].
    injection Hstep as <-. destruct Hmain as (_ & Hun & Htodo). simpl in *.
    apply coherent_await; auto; try lia; apply Hlen; discriminate.
  - (* select takes an error *)
    destruct (main s) as [[|todo] acc|e|v|] eqn:Hm; try discriminate.
    destruct (tasks s !! i) as [t|] eqn:Hi; [| discriminate].
    destruct (reports t) as [err|] eqn:Hrep; [| discriminate].
    injection Hstep as <-. destruct Hmain as (Hcl & Hun & Htodo).
    pose proof (sum_list_insert finished (tasks s) i t (afterErrSend t) Hi) as Hsum.
    rewrite (reports_unfinished _ _ Hrep), (afterErrSend_unfinished _ _ Hrep) in Hsum.
    unfold coherent; simpl. rewrite length_insert.
    split; [intros _; apply Hlen; discriminate |]. split; [lia |].
    split; [assumption |]. exists i, t. split; [| split; [assumption |]].
    + destruct (Hun i t Hi) as [H|[-> _]]; [assumption | discriminate].
    + intros k Hk u Hu. simpl in Hu.
      rewrite list_lookup_insert_ne in Hu by congruence. apply (Hun k u Hu).
  - (* return 0, err *)
    destruct (main s) as [todo acc|e|v|] eqn:Hm; try discriminate.
    injection Hstep as <-. destruct Hmain as (Hcl & i0 & t0 & H0 & Hrep & Hun).
    unfold coherent; simpl.
    split; [intros _; apply Hlen; discriminate |]. split; [assumption |].
    split; [assumption |]. split; [reflexivity |].
    exists i0, t0. split; [assumption |]. split; [assumption |].
    intros k Hk u Hu. exact (Hun k Hk u Hu).
  - (* a goroutine panics: the process ends *)
    destruct (tasks s !! i) as [[| | | |]|]; try discriminate.
    destruct (main s); try discriminate; injection Hstep as <-;
      unfold coherent; simpl;
      (split; [intros H; contradiction |]); (split; [lia |]); auto.
Qed.

End Coherent.

Lemma coherent_start {Cell} (answer : Cell -> readResult) cover :
  coherent (started answer cover) (imagesByRegion answer None cover).
Proof.
  unfold imagesByRegion. fold (started answer cover).
  assert (Hlen : length (started answer cover) = length cover)
    by (unfold started; apply length_fmap).
  assert (Hzero : sum_list (finished <$> started answer cover) = 0%nat).
  { destruct (sum_list (finished <$> started answer cover)) as [|n] eqn:Hs;
      [reflexivity |].
    destruct (sum_list_pos finished (started answer cover)) as (i & t & Hi & Ht);
      [lia |].
    rewrite (started_unfinished _ _ _ _ Hi) in Ht. lia. }
  apply coherent_await; simpl; auto; lia.
Qed.

Lemma coherent_reachable {Cell} (answer : Cell -> readResult) cover cs s :
  run cs (imagesByRegion answer None cover) = Some s ->
  coherent (started answer cover) s.
Proof.
  apply (run_invariant (coherent (started answer cover))).
  - intros c s1 s2. apply coherent_step.
  - apply coherent_start.
Qed.

Lemma started_lookup {Cell} (answer : Cell -> readResult) cover i c :
  cover !! i = Some c ->
  started answer cover !! i = Some (getImageCount (answer c)).
Proof. intros Hi. unfold started. rewrite list_lookup_fmap, Hi. reflexivity. Qed.

Lemma started_inv {Cell} (answer : Cell -> readResult) cover i t :
  started answer cover !! i = Some t ->
  exists c, cover !! i = Some c /\ t = getImageCount (answer c).
Proof.
  unfold started. rewrite list_lookup_fmap.
  destruct (cover !! i) as [c|]; [| discriminate]. intros [= <-]. eauto.
Qed.



(** *** Goroutines that survive the hand-over of their error *)

Lemma loop_sturdy its : forall count v, sturdy (loop count (Some v) its).
Proof.
  induction its as [|[v'|e] its IH]; intros count v; simpl; auto.
Qed.

Lemma sturdy_step ts0 c s s' :
  coherent ts0 s -> Forall sturdy (tasks s) -> step c s = Some s' ->
  Forall sturdy (tasks s') /\ main s' <> Died.
Proof.
  intros Hco Hall Hstep. destruct c as [i| |i| |i]; simpl in Hstep.
  - destruct (tasks s !! i) as [[| |count| |]|] eqn:Hi; try discriminate.
    pose proof Hco as (_ & _ & Hmain).
    rewrite (coherent_open ts0 s i count Hco Hi) in Hstep.
    destruct (_ <? _)%nat; [| discriminate]. injection Hstep as <-. simpl.
    split; [apply Forall_insert; [assumption | exact I] |].
    intros Hd. rewrite Hd in Hmain. destruct Hmain as [Hnil _].
    rewrite Hnil in Hi. discriminate.
  - destruct (main s) as [[|todo] acc|e|v|]; try discriminate.
    destruct (results s) as [|count rest]; [discriminate |].
    injection Hstep as <-. rewrite tasks_await.
    split; [assumption |]. destruct todo; discriminate.
  - destruct (main s) as [[|todo] acc|e|v|]; try discriminate.
    destruct (tasks s !! i) as [t|] eqn:Hi; [| discriminate].
    destruct (reports t) as [err|] eqn:Hrep; [| discriminate].
    injection Hstep as <-. simpl. split; [| discriminate].
    apply Forall_insert; [assumption |].
    pose proof (Forall_lookup_1 _ _ _ _ Hall Hi) as Hs.
    destruct t as [e|e count [v|] rest|count| |]; simpl in *;
      try contradiction; try discriminate.
    apply loop_sturdy.
  - destruct (main s); try discriminate. injection Hstep as <-. simpl.
    split; [assumption | discriminate].
  - destruct (tasks s !! i) as [t|] eqn:Hi; [| discriminate].
    pose proof (Forall_lookup_1 _ _ _ _ Hall Hi) as Hs.
    destruct t; try discriminate. contradiction.
Qed.

Lemma sturdy_reachable {Cell} (answer : Cell -> readResult) cover cs s :
  Forall sturdy (started answer cover) ->
  run cs (imagesByRegion answer None cover) = Some s ->
  main s <> Died.
Proof.
  intros Hall Hrun.
  assert (H : coherent (started answer cover) s /\
              Forall sturdy (tasks s) /\ main s <> Died); [| apply H].
  revert Hrun.
  apply (run_invariant (fun s => coherent (started answer cover) s /\
                                  Forall sturdy (tasks s) /\ main s <> Died)).
  - intros c s1 s2 (Hco & Hst & _) Hstep.
    split; [eapply coherent_step; eauto |]. eapply sturdy_step; eauto.
  - split; [apply coherent_start |]. unfold imagesByRegion.
    rewrite tasks_await. split; [exact Hall |].
    destruct (length cover); discriminate.
Qed.

(** *** What is returned when a query fails *)

(** However many queries fail: the schedules end; a state that has not
    returned and in which the process lives has a transition; and what is
    returned is the count zero with the error of a failing query. *)
Lemma failure_outcome {Cell} (answer : Cell -> readResult) cover j cell e0 :
  cover !! j = Some cell ->
  reports (getImageCount (answer cell)) = Some e0 ->
  (exists bound, forall cs s,
     run cs (imagesByRegion answer None cover) = Some s ->
     (length cs <= bound)%nat) /\
  (forall cs s, run cs (imagesByRegion answer None cover) = Some s ->
     (exists v, main s = Returned v) \/ main s = Died \/
     (exists c s', step c s = Some s')) /\
  (forall cs s v, run cs (imagesByRegion answer None cover) = Some s ->
     main s = Returned v ->
     exists i c e, cover !! i = Some c /\
                   reports (getImageCount (answer c)) = Some e /\
                   v = (0, Some e)).
Proof.
  intros Hj Hrep.
  pose proof (started_lookup answer cover j cell Hj) as Hj0.
  split; [| split].
  - exists (budget (imagesByRegion answer None cover)). intros cs s Hrun.
    apply run_budget in Hrun. lia.
  - intros cs s Hrun. apply coherent_reachable in Hrun.
    destruct Hrun as (Hlen & Hres & Hmain).
    destruct (main s) as [todo acc|e|v|] eqn:Hm;
      [right; right | right; right | left; eauto | right; left; reflexivity].
    + destruct Hmain as (Hcl & Hun & Htodo).
      specialize (Hlen ltac:(discriminate)).
      pose proof (untouched_reports _ _ _ _ _ (Hun j) Hj0 Hrep Hlen) as Htj.
      pose proof (sum_list_missing finished (tasks s) j _ finished_le_1 Htj
                    (reports_unfinished _ _ Hrep)) as Hlt.
      destruct todo as [|todo]; [lia |].
      exists (RecvErr j). eexists. simpl. rewrite Hm, Htj, Hrep. reflexivity.
    + exists Return. eexists. simpl. rewrite Hm. reflexivity.
  - intros cs s v Hrun Hm. apply coherent_reachable in Hrun.
    destruct Hrun as (Hlen & Hres & Hmain). rewrite Hm in Hmain.
    destruct v as [count [e|]].
    + destruct Hmain as (_ & -> & i0 & t0 & H0 & Hrep0 & _).
      apply started_inv in H0 as (c & Hc & ->). exists i0, c, e. auto.
    + destruct Hmain as (_ & _ & _ & Hnone).
      specialize (Hnone j _ Hj0). congruence.
Qed.




(** X7: when the count query of at least one cell reports an error,
    whatever the other queries do (succeed, or fail as well): every
    schedule ends; whenever [imagesByRegion] returns, it returns the
    count zero with the error of one of the failing queries, never a sum
    and never an error no query reported; and as long as it has not
    returned some transition is possible, unless a goroutine's panic has
    ended the process.  If no query fails in [query.Read] or in its first
    [rows.Next], no goroutine reaches a panic, and [imagesByRegion]
    returns under every schedule. *)
Theorem imagesByRegion_never_partial {Cell} (answer : Cell -> readResult)
    cover j cell e0 :
  cover !! j = Some cell ->
  reports (getImageCount (answer cell)) = Some e0 ->
  (exists bound, forall cs s,
     run cs (imagesByRegion answer None cover) = Some s ->
     (length cs <= bound)%nat) /\
  (forall cs s, run cs (imagesByRegion answer None cover) = Some s ->
     (exists v, main s = Returned v) \/ main s = Died \/
     (exists c s', step c s = Some s')) /\
  (forall cs s v, run cs (imagesByRegion answer None cover) = Some s ->
     main s = Returned v ->
     exists i c e, cover !! i = Some c /\
                   reports (getImageCount (answer c)) = Some e /\
                   v = (0, Some e)) /\
  (Forall sturdy (started answer cover) ->
   returnsAlways (imagesByRegion answer None cover)).
Proof.
  intros Hj Hrep.
  destruct (failure_outcome answer cover j cell e0 Hj Hrep)
    as (Hbound & Hprog & Hret).
  split; [exact Hbound |]. split; [exact Hprog |]. split; [exact Hret |].
  intros Hsturdy. split; [exact Hbound |].
  intros cs s Hrun.
  destruct (Hprog cs s Hrun) as [H|[H|H]]; auto.
  exfalso. exact (sturdy_reachable answer cover cs s Hsturdy Hrun H).
Qed.

Lemma imagesByRegion_never_partial_witness :
  [0; 1; 2]%nat !! 2%nat = Some 2%nat /\
  (forall cs s v,
     run cs (imagesByRegion twoFailures None [0; 1; 2]%nat) = Some s ->
     main s = Returned v ->
     exists i c e, [0; 1; 2]%nat !! i = Some c /\
                   reports (getImageCount (twoFailures c)) = Some e /\
                   v = (0, Some e)).
Proof.
  split; [reflexivity |].
  exact (proj1 (proj2 (proj2
           (imagesByRegion_never_partial twoFailures [0; 1; 2]%nat 2 2%nat
              "quota exceeded" eq_refl eq_refl)))).
Defined.

(** X8: the buffered channel [results] is used safely under every
    schedule and for every answer of the queries: whenever a goroutine
    has a count to send, the channel has not been closed (so the send
    cannot panic) and its buffer has room (so the send cannot block): the
    goroutine can complete the send at once and is then finished. *)
Theorem count_send_never_blocks {Cell} (answer : Cell -> readResult)
    cover cs s i count :
  run cs (imagesByRegion answer None cover) = Some s ->
  tasks s !! i = Some (AtCount count) ->
  closed s = false /\
  (length (results s) < length cover)%nat /\
  step (TaskSends i) s =
    Some (mkState (<[i:=Finished]> (tasks s)) (results s ++ [count]) false
            (main s)).
Proof.
  intros Hrun Hi. apply coherent_reachable in Hrun.
  pose proof (coherent_open _ s i count Hrun Hi) as Hcl.
  assert (Hlen : length (tasks s) = length (started answer cover)).
  { apply coherent_length; [exact Hrun |]. intros Hd.
    destruct Hrun as (_ & _ & Hmain). rewrite Hd in Hmain.
    destruct Hmain as [Hnil _]. rewrite Hnil in Hi. discriminate. }
  destruct Hrun as (_ & Hres & _).
  pose proof (sum_list_missing finished (tasks s) i _ finished_le_1 Hi eq_refl)
    as Hlt.
  assert (Hcover : length (started answer cover) = length cover)
    by (unfold started; apply length_fmap).
  split; [assumption |]. split; [lia |].
  simpl. rewrite Hi, Hcl.
  destruct (Nat.ltb_spec (length (results s)) (length (tasks s)));
    [reflexivity | lia].
Qed.

Lemma count_send_never_blocks_witness :
  closed (mkState [AtReadErr "timeout"; Finished; AtCount 8] [7] false
            (Returned (0, Some "quota exceeded"%string))) = false /\
  (length [7] < length [0; 1; 2]%nat)%nat /\
  step (TaskSends 2)
    (mkState [AtReadErr "timeout"; Finished; AtCount 8] [7] false
       (Returned (0, Some "quota exceeded"%string))) =
  Some (mkState [AtReadErr "timeout"; Finished; Finished] [7; 8] false
          (Returned (0, Some "quota exceeded"%string))).
Proof.
  exact (count_send_never_blocks twoFailures [0; 1; 2]%nat
           [TaskSends 1; RecvErr 2; Return]
           (mkState [AtReadErr "timeout"; Finished; AtCount 8] [7] false
              (Returned (0, Some "quota exceeded"%string)))
           2%nat 8 eq_refl eq_refl).
Defined.

(** X9: a return without error is a clean one.  Under every schedule
    and for every answer of the queries: if [imagesByRegion] has returned
    a count and no error, then no query of the cover had reported an
    error, every goroutine has finished, the channel [results] is closed
    and drained, and nothing can happen any more. *)
Theorem normal_return_is_clean {Cell} (answer : Cell -> readResult)
    cover cs s count :
  run cs (imagesByRegion answer None cover) = Some s ->
  main s = Returned (count, None) ->
  (forall i c, cover !! i = Some c ->
     reports (getImageCount (answer c)) = None) /\
  (forall i t, tasks s !! i = Some t -> t = Finished) /\
  closed s = true /\ results s = [] /\
  (forall c, step c s = None).
Proof.
  intros Hrun Hm. apply coherent_reachable in Hrun.
  destruct Hrun as (Hlen & Hres & Hmain). rewrite Hm in Hmain.
  destruct Hmain as (Hcl & Hnil & Hfin & Hnone).
  split; [| split; [| split; [| split]]]; auto.
  - intros i c Hc. apply (Hnone i). apply started_lookup. assumption.
  - intros [i| |i| |i]; simpl; rewrite ?Hm; try reflexivity.
    + destruct (tasks s !! i) as [t|] eqn:Hi; [| reflexivity].
      rewrite (Hfin i t Hi). reflexivity.
    + destruct (tasks s !! i) as [t|] eqn:Hi; [| reflexivity].
      rewrite (Hfin i t Hi). reflexivity.
Qed.

Lemma normal_return_is_clean_witness :
  closed (mkState [Finished; Finished] [] true (Returned (104, None))) = true /\
  step RecvCount (mkState [Finished; Finished] [] true (Returned (104, None)))
    = None.
Proof.
  pose proof (normal_return_is_clean exampleAnswer [0; 1]%nat
                [TaskSends 1; TaskSends 0; RecvCount; RecvCount]
                (mkState [Finished; Finished] [] true (Returned (104, None)))
                104 eq_refl eq_refl) as (_ & _ & Hclosed & _ & Hstuck).
  split; [exact Hclosed | exact (Hstuck RecvCount)].
Defined.



End CollectingFacts.

(* ================================================================= *)
(** ** Fan-out pool: accounting of jobs, links and errors *)

Module LedgerFacts.
Import GoInt GoIntFacts ListFacts Pool PoolFacts Ledger.

Lemma concat_fmap_insert {A B} (f : A -> list B) (l : list A) : forall i x y extra,
  l !! i = Some x -> f y ≡ₚ f x ++ extra ->
  concat (f <$> <[i:=y]> l) ≡ₚ concat (f <$> l) ++ extra.
Proof.
  induction l as [|a l IH]; intros [|i] x y extra Hi Hy; try discriminate; csimpl.
  - injection Hi as ->. rewrite Hy. solve_Permutation.
  - rewrite (IH i x y extra Hi Hy). rewrite app_assoc. reflexivity.
Qed.

Lemma concat_fmap_Permutation {A B} (f : A -> list B) (l l' : list A) :
  l ≡ₚ l' -> concat (f <$> l) ≡ₚ concat (f <$> l').
Proof.
  induction 1 as [|a l l' _ IH|a b l|l l' l'' _ IH1 _ IH2]; csimpl.
  - reflexivity.
  - rewrite IH. reflexivity.
  - solve_Permutation.
  - etransitivity; eassumption.
Qed.

Lemma concat_fmap_concat {A B C} (f : B -> list C) (g : A -> list B) (l : list A) :
  concat ((fun x => concat (f <$> g x)) <$> l) = concat (f <$> concat (g <$> l)).
Proof.
  induction l as [|a l IH]; csimpl; [reflexivity |].
  rewrite fmap_app, concat_app, IH. reflexivity.
Qed.

Lemma length_concat_fmap {A B} (f : A -> list B) (l : list A) :
  length (concat (f <$> l)) = sum_list ((fun x => length (f x)) <$> l).
Proof.
  induction l as [|a l IH]; csimpl; [reflexivity |].
  rewrite length_app, IH. reflexivity.
Qed.

(** More pigeonholes than pigeons. *)
Lemma sum_list_short {A} (g : A -> nat) (l : list A) :
  (sum_list (g <$> l) < length l)%nat ->
  exists i x, l !! i = Some x /\ g x = 0%nat.
Proof.
  induction l as [|a l IH]; csimpl; [lia |]. intros Hlt.
  destruct (g a) as [|m] eqn:Ha.
  - exists 0%nat, a. auto.
  - destruct IH as (i & x & Hi & Hx); [lia |]. exists (S i), x. auto.
Qed.

Lemma pending_feed n ws links : pending (main (feed n ws links)) = links.
Proof. destruct links; reflexivity. Qed.

Lemma collected_feed n ws links : collected (main (feed n ws links)) = emptyResult.
Proof. destruct links; reflexivity. Qed.

Lemma pending_gather n ws todo r : pending (main (gather n ws todo r)) = [].
Proof. destruct todo; reflexivity. Qed.

Lemma collected_gather n ws todo r : collected (main (gather n ws todo r)) = r.
Proof. destruct todo; reflexivity. Qed.

Section WithBucket.
Variable objects : string -> string -> nat -> list attrResult.
Variable rnd : nat -> Z.
Local Abbreviation inv := (Pool.inv objects rnd).
Local Abbreviation step := (Pool.step objects rnd).
Local Abbreviation run := (Pool.run objects rnd).
Local Abbreviation runJob := (Pool.runJob objects rnd).
Local Abbreviation jobLinks := (Pool.jobLinks objects rnd).
Local Abbreviation lastLinks := (Pool.lastLinks objects rnd).

(** [pool] never assigns [imageResult.Error] once the client exists. *)
Lemma collected_error_step c s s' :
  Error (collected (main s)) = None -> step c s = Some s' ->
  Error (collected (main s')) = None.
Proof.
  intros Herr. unfold Pool.step. destruct c as [w|w|w].
  - destruct (main s) as [[|imgLink rest]|todo r|r]; try discriminate.
    destruct (workers s !! w) as [[fi consumed| | |]|]; try discriminate.
    intros [= <-]. rewrite collected_feed. reflexivity.
  - destruct (workers s !! w) as [[fi consumed| | |]|]; try discriminate.
    destruct (jobsClosed s); [| discriminate]. intros [= <-]. exact Herr.
  - destruct (main s) as [ls|[|todo] r|r]; try discriminate.
    destruct (workers s !! w) as [[| fi consumed | |]|]; try discriminate.
    intros [= <-]. rewrite collected_gather. exact Herr.
Qed.

Lemma ledger_step n links c s s' :
  inv n s -> ledger links s -> step c s = Some s' -> ledger links s'.
Proof.
  intros (Hn & Hlen & Hp & Hc & Hm) (Hjobs & Hlinks & Herr) Hstep.
  pose proof (collected_error_step c s s' Herr Hstep) as Herr'.
  unfold Pool.step in Hstep. destruct c as [w|w|w].
  - destruct (main s) as [[|imgLink rest]|todo r|r] eqn:Hmain; try discriminate.
    destruct (workers s !! w) as [[fi consumed| | |]|] eqn:Hw; try discriminate.
    destruct Hm as (_ & Hwf & _). apply Forall_cons in Hwf as [Hwf _].
    destruct (runJob_total objects rnd imgLink fi Hwf) as [fi' Hfi'].
    rewrite Hfi' in Hstep. injection Hstep as <-.
    unfold ledger. rewrite workers_feed, pending_feed, collected_feed.
    split; [| split; [| reflexivity]].
    + rewrite (concat_fmap_insert consumedBy (workers s) w _ _ [imgLink] Hw)
        by reflexivity.
      rewrite <- Hjobs. simpl. rewrite <- app_assoc. reflexivity.
    + rewrite (concat_fmap_insert delivered (workers s) w _ _ [] Hw)
        by reflexivity.
      rewrite app_nil_r. exact Hlinks.
  - destruct (workers s !! w) as [[fi consumed| | |]|] eqn:Hw; try discriminate.
    destruct (jobsClosed s); [| discriminate]. injection Hstep as <-.
    unfold ledger; simpl. split; [| split; [| exact Herr]].
    + rewrite (concat_fmap_insert consumedBy (workers s) w _ _ [] Hw)
        by (simpl; rewrite app_nil_r; reflexivity).
      rewrite app_nil_r. exact Hjobs.
    + rewrite (concat_fmap_insert delivered (workers s) w _ _ [] Hw)
        by reflexivity.
      rewrite app_nil_r. exact Hlinks.
  - destruct (main s) as [ls|[|todo] r|r] eqn:Hmain; try discriminate.
    destruct (workers s !! w) as [[| fi consumed | |]|] eqn:Hw; try discriminate.
    injection Hstep as <-.
    unfold ledger. rewrite workers_gather, pending_gather, collected_gather.
    simpl in *. split; [| split; [| exact Herr]].
    + rewrite (concat_fmap_insert consumedBy (workers s) w _ _ [] Hw)
        by (simpl; rewrite app_nil_r; reflexivity).
      rewrite app_nil_r. exact Hjobs.
    + rewrite (concat_fmap_insert delivered (workers s) w _ _ (Links fi) Hw)
        by reflexivity.
      rewrite Hlinks. reflexivity.
Qed.

Lemma concat_replicate_nil {A B} (f : A -> list B) (x : A) n :
  f x = [] -> concat (f <$> replicate n x) = [].
Proof. intros Hx. induction n as [|n IH]; csimpl; [reflexivity |]. rewrite Hx, IH. reflexivity. Qed.

Lemma ledger_start links : ledger links (pool None links).
Proof.
  unfold ledger, pool. rewrite workers_feed, pending_feed, collected_feed.
  rewrite !concat_replicate_nil by reflexivity. simpl. auto.
Qed.

Lemma ledger_reachable links cs s :
  Forall wellFormed links -> run cs (pool None links) = Some s ->
  inv (length links) s /\ ledger links s.
Proof.
  intros Hwf.
  apply (pool_run_invariant objects rnd
           (fun s => inv (length links) s /\ ledger links s)).
  - intros c s1 s2 [Hi Hl] Hstep. split.
    + eapply inv_step; eauto.
    + eapply ledger_step; eauto.
  - split; [apply inv_start; assumption | apply ledger_start].
Qed.

(** When [pool] has returned, every worker has exited holding the links
    of its last job. *)
Lemma done_exited n s r w x :
  inv n s -> main s = Done r -> workers s !! w = Some x ->
  exists fi, x = Exited fi (consumedBy x) /\ Links fi = lastLinks (consumedBy x).
Proof.
  intros (_ & _ & Hp & _ & Hm) Hmain Hw. rewrite Hmain in Hm.
  destruct Hm as [Halive _].
  pose proof (sum_list_lookup_le alive (workers s) w x Hw) as Hle.
  pose proof (Forall_lookup_1 _ _ _ _ Hp Hw) as Hpay.
  destruct x as [fi c|fi c|fi c|]; simpl in Hle; try lia.
  exists fi. auto.
Qed.

(** *** Errors *)

Lemma collected_error_reachable links cs s :
  run cs (pool None links) = Some s -> Error (collected (main s)) = None.
Proof.
  apply (pool_run_invariant objects rnd
           (fun s => Error (collected (main s)) = None)).
  - intros c s1 s2. apply collected_error_step.
  - unfold pool. rewrite collected_feed. reflexivity.
Qed.

(** X11: [pool] never reports what went wrong in a worker.  Once the
    storage client has been created, the Result [pool] returns has a nil
    Error under every schedule, for every bucket and every list of links:
    the Error field of the Results received from the workers is never
    read. *)
Theorem pool_never_reports_worker_errors links cs s r :
  run cs (pool None links) = Some s -> main s = Done r -> Error r = None.
Proof.
  intros Hrun Hmain. apply collected_error_reachable in Hrun.
  rewrite Hmain in Hrun. exact Hrun.
Qed.

(** One job when every listing fails. *)
Lemma runJob_outage imgLink folderImages :
  wellFormed imgLink ->
  (forall b o call, is_Some (snd (getImagesFromBucket objects b o call))) ->
  exists e, runJob imgLink folderImages =
    Some (mkResult [] (Some ("after 5 attempts, last error: " +:+ e))).
Proof.
  intros [[bucketName imageObject] Hsplit] Hfail.
  unfold Pool.runJob. rewrite Hsplit. cbn [mbind option_bind].
  assert (Hsleep : defaultSleep = 10000000000) by reflexivity.
  destruct (getImagesFromBucket objects bucketName imageObject 0)
    as [result err] eqn:H0.
  destruct (Hfail bucketName imageObject 0%nat) as [e0 He0].
  rewrite H0 in He0. simpl in He0. subst err.
  destruct (ListingFacts.again_exhausts objects bucketName imageObject 4
              (Retry.retry_fuel 5) 0 defaultSleep rnd 1 result)
    as (r & e & Hr & He & Hres & Hfin); try (rewrite Hsleep); try lia.
  - unfold Retry.retry_fuel. change (sub 5 1) with 4. lia.
  - unfold maxInt. lia.
  - intros j Hj. apply Hfail.
  - exists e. unfold Retry.retry, defaultMaxRetries. rewrite Hsleep in *.
    rewrite Hr. cbn [mbind option_bind]. rewrite Hres, Hfin. reflexivity.
Qed.

Lemma jobLinks_outage imgLink :
  (forall b o call, is_Some (snd (getImagesFromBucket objects b o call))) ->
  jobLinks imgLink = [].
Proof.
  intros Hfail. unfold Pool.jobLinks.
  destruct (splitLink imgLink) as [p|] eqn:Hsplit.
  - destruct (runJob_outage imgLink emptyResult) as [e He]; [eexists; eauto | auto |].
    rewrite He. reflexivity.
  - unfold Pool.runJob. rewrite Hsplit. reflexivity.
Qed.

Lemma failedJob_step n c s s' :
  (forall b o call, is_Some (snd (getImagesFromBucket objects b o call))) ->
  inv n s -> Forall failedJob (workers s) -> step c s = Some s' ->
  Forall failedJob (workers s').
Proof.
  intros Hfail (Hn & Hlen & Hp & Hc & Hm) Hall Hstep. unfold Pool.step in Hstep.
  destruct c as [w|w|w].
  - destruct (main s) as [[|imgLink rest]|todo r|r] eqn:Hmain; try discriminate.
    destruct (workers s !! w) as [[fi consumed| | |]|] eqn:Hw; try discriminate.
    destruct Hm as (_ & Hwf & _). apply Forall_cons in Hwf as [Hwf _].
    destruct (runJob_outage imgLink fi Hwf Hfail) as [e He].
    rewrite He in Hstep. injection Hstep as <-. rewrite workers_feed.
    apply Forall_insert; [assumption |]. intros _. exists e. reflexivity.
  - destruct (workers s !! w) as [[fi consumed| | |]|] eqn:Hw; try discriminate.
    destruct (jobsClosed s); [| discriminate]. injection Hstep as <-. simpl.
    apply Forall_insert; [assumption |].
    exact (Forall_lookup_1 _ _ _ _ Hall Hw).
  - destruct (main s) as [ls|[|todo] r|r] eqn:Hmain; try discriminate.
    destruct (workers s !! w) as [[| fi consumed | |]|] eqn:Hw; try discriminate.
    injection Hstep as <-. rewrite workers_gather.
    apply Forall_insert; [assumption |].
    exact (Forall_lookup_1 _ _ _ _ Hall Hw).
Qed.

Lemma outage_returns_empty links cs s r :
  Forall wellFormed links ->
  (forall b o call, is_Some (snd (getImagesFromBucket objects b o call))) ->
  run cs (pool None links) = Some s -> main s = Done r ->
  r = emptyResult.
Proof.
  intros Hwf Hfail Hrun Hmain.
  pose proof (collected_error_reachable links cs s Hrun) as Herr.
  rewrite Hmain in Herr. simpl in Herr.
  pose proof (pool_run_invariant objects rnd (inv (length links))
                (inv_step objects rnd (length links)) cs _ s
                (inv_start objects rnd links Hwf) Hrun) as (_ & _ & _ & _ & Hm).
  rewrite Hmain in Hm. destruct Hm as [_ Hfrom].
  destruct r as [ls err]. simpl in Herr. subst err.
  destruct ls as [|l ls]; [reflexivity |]. exfalso.
  destruct (Hfrom l) as (w & fi & consumed & imgLink & _ & _ & Hin);
    [simpl; left |].
  rewrite (jobLinks_outage imgLink Hfail) in Hin. inversion Hin.
Qed.

(** X12: an outage of the bucket looks like an empty bucket.  When every
    link contains the bucket name and every listing fails, then under
    every schedule [pool] returns the empty Result, no links and no error,
    although every worker that received a job ended with the error of
    [retry], "after 5 attempts, last error: ...", in its Result. *)
Theorem pool_outage_looks_empty links cs s r :
  Forall wellFormed links ->
  (forall b o call, is_Some (snd (getImagesFromBucket objects b o call))) ->
  run cs (pool None links) = Some s -> main s = Done r ->
  r = emptyResult /\
  (forall w x, workers s !! w = Some x -> consumedBy x <> [] ->
     exists fi e, x = Exited fi (consumedBy x) /\
       Error fi = Some ("after 5 attempts, last error: " +:+ e)).
Proof.
  intros Hwf Hfail Hrun Hmain.
  split; [eapply outage_returns_empty; eauto |].
  assert (Hboth : inv (length links) s /\ Forall failedJob (workers s)).
  { revert Hrun.
    apply (pool_run_invariant objects rnd
             (fun s => inv (length links) s /\ Forall failedJob (workers s))).
    - intros c s1 s2 [Hi Hf]. split; [eapply inv_step | eapply failedJob_step]; eauto.
    - split; [apply inv_start; assumption |].
      unfold pool. rewrite workers_feed. apply Forall_replicate.
      intros Hne. exfalso. apply Hne. reflexivity. }
  destruct Hboth as [Hinv Hfailed].
  intros w x Hw Hne.
  destruct (done_exited _ _ _ _ _ Hinv Hmain Hw) as (fi & Hx & _).
  destruct (Forall_lookup_1 _ _ _ _ Hfailed Hw Hne) as [e He].
  exists fi, e. split; [assumption |]. rewrite Hx in He. exact He.
Qed.

(** *** Jobs *)

Lemma idleClean_step c s s' :
  Forall idleClean (workers s) -> step c s = Some s' ->
  Forall idleClean (workers s').
Proof.
  intros Hall Hstep. unfold Pool.step in Hstep. destruct c as [w|w|w].
  - destruct (main s) as [[|imgLink rest]|todo r|r] eqn:Hmain; try discriminate.
    destruct (workers s !! w) as [[fi consumed| | |]|] eqn:Hw; try discriminate.
    injection Hstep as <-. rewrite workers_feed.
    apply Forall_insert; [assumption |].
    destruct (Pool.runJob objects rnd imgLink fi); [| intros _; reflexivity].
    intros Hnil. simpl in Hnil. destruct consumed; discriminate.
  - destruct (workers s !! w) as [[fi consumed| | |]|] eqn:Hw; try discriminate.
    destruct (jobsClosed s); [| discriminate]. injection Hstep as <-. simpl.
    apply Forall_insert; [assumption |].
    exact (Forall_lookup_1 _ _ _ _ Hall Hw).
  - destruct (main s) as [ls|[|todo] r|r] eqn:Hmain; try discriminate.
    destruct (workers s !! w) as [[| fi consumed | |]|] eqn:Hw; try discriminate.
    injection Hstep as <-. rewrite workers_gather.
    apply Forall_insert; [assumption |].
    exact (Forall_lookup_1 _ _ _ _ Hall Hw).
Qed.

(** X13: the unbuffered channel [jobs] hands every link to exactly one
    worker.  When every link contains the bucket name, then under every
    schedule, once [pool] has returned, the links the workers have
    received are, taken together, the submitted links, each as often as
    it was submitted; and as [numberOfJobs + 1] workers are started for
    [numberOfJobs] links, at least one worker has received no link and
    has sent the empty Result. *)
Theorem every_job_received_once links cs s r :
  Forall wellFormed links ->
  run cs (pool None links) = Some s -> main s = Done r ->
  concat (consumedBy <$> workers s) ≡ₚ links /\
  exists w, workers s !! w = Some (Exited emptyResult []).
Proof.
  intros Hwf Hrun Hmain.
  destruct (ledger_reachable links cs s Hwf Hrun) as [Hinv (Hjobs & _ & _)].
  rewrite Hmain in Hjobs. simpl in Hjobs. rewrite app_nil_r in Hjobs.
  split; [exact Hjobs |].
  assert (Hclean : Forall idleClean (workers s)).
  { revert Hrun.
    apply (pool_run_invariant objects rnd (fun s => Forall idleClean (workers s))).
    - intros c s1 s2. apply idleClean_step.
    - unfold pool. rewrite workers_feed. apply Forall_replicate.
      intros _. reflexivity. }
  pose proof Hinv as (_ & Hlen & _).
  destruct (sum_list_short (fun x => length (consumedBy x)) (workers s))
    as (w & x & Hw & Hx).
  { rewrite <- length_concat_fmap, Hjobs, Hlen. lia. }
  exists w. rewrite Hw.
  destruct (done_exited _ _ _ _ _ Hinv Hmain Hw) as (fi & Hfi & Hlinks).
  pose proof (Forall_lookup_1 _ _ _ _ Hclean Hw) as Hc.
  apply length_zero_iff_nil in Hx. specialize (Hc Hx).
  rewrite Hx in Hfi, Hlinks. rewrite Hfi in Hc. simpl in Hc.
  rewrite Hfi. destruct fi as [ls err]. simpl in *. subst. reflexivity.
Qed.

(** X14: what [pool] returns, exactly.  When every link contains the
    bucket name, then under every schedule the links [pool] returns are,
    up to their order, the object links of the last job of each worker,
    no more and no fewer; so if no worker has received more than one
    link, they are the object links of all the submitted links. *)
Theorem pool_returns_last_jobs links cs s r :
  Forall wellFormed links ->
  run cs (pool None links) = Some s -> main s = Done r ->
  Links r ≡ₚ concat ((fun x => lastLinks (consumedBy x)) <$> workers s) /\
  (Forall (fun x => (length (consumedBy x) <= 1)%nat) (workers s) ->
   Links r ≡ₚ concat (jobLinks <$> links)).
Proof.
  intros Hwf Hrun Hmain.
  destruct (ledger_reachable links cs s Hwf Hrun) as [Hinv (Hjobs & Hlinks & _)].
  rewrite Hmain in Hjobs, Hlinks. simpl in Hjobs, Hlinks.
  rewrite app_nil_r in Hjobs.
  assert (Hlast : delivered <$> workers s =
                  (fun x => lastLinks (consumedBy x)) <$> workers s).
  { apply Forall_fmap_ext_1. apply Forall_lookup_2. intros w x Hw.
    destruct (done_exited _ _ _ _ _ Hinv Hmain Hw) as (fi & Hfi & Hl).
    rewrite Hfi at 1. exact Hl. }
  rewrite Hlast in Hlinks. split; [exact Hlinks |].
  intros Hone. rewrite Hlinks.
  rewrite <- (concat_fmap_Permutation jobLinks _ _ Hjobs).
  rewrite <- concat_fmap_concat.
  assert (Heq : (fun x => lastLinks (consumedBy x)) <$> workers s =
                (fun x => concat (jobLinks <$> consumedBy x)) <$> workers s).
  { apply Forall_fmap_ext_1. eapply Forall_impl; [exact Hone |].
    intros x Hx. unfold Pool.lastLinks. cbv beta in Hx. revert Hx.
    destruct (consumedBy x) as [|l [|l' c]]; simpl; intros Hx;
      [reflexivity | rewrite app_nil_r; reflexivity | lia]. }
  rewrite Heq. reflexivity.
Qed.

End WithBucket.

Lemma wellFormed_linkA : wellFormed linkA.
Proof. eexists. vm_compute. reflexivity. Qed.

Lemma wellFormed_linkB : wellFormed linkB.
Proof. eexists. vm_compute. reflexivity. Qed.

Lemma outage_fails b o call :
  is_Some (snd (getImagesFromBucket outage b o call)).
Proof. eexists. reflexivity. Qed.

Lemma pool_never_reports_worker_errors_witness :
  exists s r,
    run outage (fun _ => 7)
      [Deliver 0; LeaveLoop 0; LeaveLoop 1; Collect 0; Collect 1]
      (pool None [linkA]) = Some s /\
    workers s !! 0%nat =
      Some (Exited (mkResult [] (Some
              "after 5 attempts, last error: storage: service unavailable"%string))
              [linkA]) /\
    main s = Done r /\ Error r = None.
Proof.
  eexists. eexists. split; [vm_compute; reflexivity |].
  split; [reflexivity |]. split; [reflexivity |].
  eapply (pool_never_reports_worker_errors outage (fun _ => 7) [linkA]
            [Deliver 0; LeaveLoop 0; LeaveLoop 1; Collect 0; Collect 1]);
    vm_compute; reflexivity.
Defined.

Lemma pool_outage_looks_empty_witness :
  exists s r,
    run outage (fun _ => 7)
      [Deliver 1; LeaveLoop 0; LeaveLoop 1; Collect 1; Collect 0]
      (pool None [linkA]) = Some s /\
    main s = Done r /\ r = emptyResult.
Proof.
  eexists. eexists. split; [vm_compute; reflexivity |].
  split; [reflexivity |].
  eapply (pool_outage_looks_empty outage (fun _ => 7) [linkA]
            [Deliver 1; LeaveLoop 0; LeaveLoop 1; Collect 1; Collect 0]).
  - apply Forall_cons. split; [apply wellFormed_linkA | constructor].
  - apply outage_fails.
  - vm_compute; reflexivity.
  - reflexivity.
Defined.

Lemma every_job_received_once_witness :
  exists s r,
    run exampleBucket (fun _ => 7)
      [Deliver 2; Deliver 0; LeaveLoop 0; LeaveLoop 1; LeaveLoop 2;
       Collect 0; Collect 1; Collect 2]
      (pool None [linkA; linkB]) = Some s /\
    main s = Done r /\
    concat (consumedBy <$> workers s) ≡ₚ [linkA; linkB] /\
    exists w, workers s !! w = Some (Exited emptyResult []).
Proof.
  eexists. eexists. split; [vm_compute; reflexivity |].
  split; [reflexivity |].
  eapply (every_job_received_once exampleBucket (fun _ => 7) [linkA; linkB]
            [Deliver 2; Deliver 0; LeaveLoop 0; LeaveLoop 1; LeaveLoop 2;
             Collect 0; Collect 1; Collect 2]).
  - apply Forall_cons. split; [apply wellFormed_linkA |].
    apply Forall_cons. split; [apply wellFormed_linkB | constructor].
  - vm_compute; reflexivity.
  - reflexivity.
Defined.

Lemma pool_returns_last_jobs_witness :
  exists s r,
    run exampleBucket (fun _ => 7)
      [Deliver 2; Deliver 0; LeaveLoop 0; LeaveLoop 1; LeaveLoop 2;
       Collect 0; Collect 1; Collect 2]
      (pool None [linkA; linkB]) = Some s /\
    main s = Done r /\
    Forall (fun x => (length (consumedBy x) <= 1)%nat) (workers s) /\
    Links r ≡ₚ concat (jobLinks exampleBucket (fun _ => 7) <$> [linkA; linkB]).
Proof.
  eexists. eexists. split; [vm_compute; reflexivity |].
  split; [reflexivity |].
  assert (Hone : Forall (fun x => (length (consumedBy x) <= 1)%nat)
                   [Exited (mkResult ["gcp-public-data-sentinel-2/tiles/B/b1.jp2"%string] None) [linkB];
                    Exited emptyResult [];
                    Exited (mkResult ["gcp-public-data-sentinel-2/tiles/A/a1.jp2"%string;
                                      "gcp-public-data-sentinel-2/tiles/A/a2.jp2"%string] None) [linkA]]).
  { apply Forall_cons; split; [simpl; lia |].
    apply Forall_cons; split; [simpl; lia |].
    apply Forall_cons; split; [simpl; lia | constructor]. }
  split; [exact Hone |].
  eapply (pool_returns_last_jobs exampleBucket (fun _ => 7) [linkA; linkB]
            [Deliver 2; Deliver 0; LeaveLoop 0; LeaveLoop 1; LeaveLoop 2;
             Collect 0; Collect 1; Collect 2]).
  - apply Forall_cons. split; [apply wellFormed_linkA |].
    apply Forall_cons. split; [apply wellFormed_linkB | constructor].
  - vm_compute; reflexivity.
  - reflexivity.
  - exact Hone.
Defined.

End LedgerFacts.

(* ================================================================= *)
(** ** The patterns Latitude and Longitude *)

Module RegexpFacts.
Import Regexp.

Lemma nullable_lang r : nullable r = true -> lang r "".
Proof.
  induction r as [| |lo hi|r1 IH1 r2 IH2|r1 IH1 r2 IH2|r IH]; simpl;
    try discriminate; auto.
  - intros [H1 H2]%andb_true_iff. exists ""%string, ""%string. auto.
  - intros [H|H]%orb_true_iff; auto.
  - intros _. exists []. auto.
Qed.

Lemma deriv_lang c r : forall s, lang (deriv c r) s -> lang r (String c s).
Proof.
  induction r as [| |lo hi|r1 IH1 r2 IH2|r1 IH1 r2 IH2|r IH]; simpl; intros s H;
    try contradiction.
  - destruct (inClass lo hi c) eqn:Hc; simpl in H; [| contradiction].
    subst s. eauto.
  - destruct (nullable r1) eqn:Hn; simpl in H.
    + destruct H as [(s1 & s2 & -> & H1 & H2)|H].
      * exists (String c s1), s2. auto.
      * exists ""%string, (String c s). split; [reflexivity |].
        split; [apply nullable_lang; assumption | auto].
    + destruct H as (s1 & s2 & -> & H1 & H2).
      exists (String c s1), s2. auto.
  - destruct H as [H|H]; auto.
  - destruct H as (s1 & s2 & -> & H1 & ps & -> & Hps).
    exists (String c s1 :: ps). split; [reflexivity |].
    apply Forall_cons; auto.
Qed.

Lemma matches_lang s : forall r, matches r s = true -> lang r s.
Proof.
  induction s as [|c s IH]; intros r H; simpl in H.
  - apply nullable_lang. assumption.
  - apply deriv_lang. apply IH. assumption.
Qed.

Lemma lang_nullable r : lang r "" -> nullable r = true.
Proof.
  induction r as [| |lo hi|r1 IH1 r2 IH2|r1 IH1 r2 IH2|r IH]; simpl; auto.
  - intros (c & H & _). discriminate.
  - intros (s1 & s2 & H & H1 & H2). destruct s1; [| discriminate].
    change ("" +:+ s2)%string with s2 in H. subst s2.
    rewrite IH1, IH2 by assumption. reflexivity.
  - intros [H|H]; [rewrite IH1 | rewrite IH2, orb_true_r]; auto.
Qed.

Lemma lang_deriv c r : forall s, lang r (String c s) -> lang (deriv c r) s.
Proof.
  induction r as [| |lo hi|r1 IH1 r2 IH2|r1 IH1 r2 IH2|r IH]; simpl; intros s H;
    try contradiction; try discriminate.
  - destruct H as (c' & [= -> ->] & Hc). rewrite Hc. reflexivity.
  - destruct H as (s1 & s2 & H & H1 & H2). destruct s1 as [|c' s1].
    + change ("" +:+ s2)%string with s2 in H. subst s2.
      rewrite (lang_nullable r1 H1). right. auto.
    + change (String c' s1 +:+ s2) with (String c' (s1 +:+ s2)) in H.
      injection H as -> ->.
      assert (Hcat : lang (Cat (deriv c' r1) r2) (s1 +:+ s2))
        by (exists s1, s2; auto).
      destruct (nullable r1); [left |]; exact Hcat.
  - destruct H as [H|H]; auto.
  - destruct H as (ps & H & Hps). revert H.
    induction Hps as [|p ps Hp Hps IHps]; [discriminate |].
    change (flatten (p :: ps)) with (p +:+ flatten ps).
    destruct p as [|c' p]; [exact IHps |].
    change (String c' p +:+ flatten ps) with (String c' (p +:+ flatten ps)).
    intros [= -> ->]. exists p, (flatten ps). split; [reflexivity |].
    split; [apply IH; assumption |]. exists ps. auto.
Qed.

(** [MatchString] decides the language of the pattern. *)
Lemma MatchString_lang r s : MatchString r s = true <-> lang r s.
Proof.
  split; [apply matches_lang |]. unfold MatchString. revert r.
  induction s as [|c s IH]; intros r H; simpl.
  - apply lang_nullable. assumption.
  - apply IH. apply lang_deriv. assumption.
Qed.

(** *** Reading the language off *)

Lemma inClass_bounds lo hi c :
  inClass lo hi c = true ->
  (nat_of_ascii lo <= nat_of_ascii c <= nat_of_ascii hi)%nat.
Proof.
  unfold inClass. intros [H1 H2]%andb_true_iff.
  apply Nat.leb_le in H1. apply Nat.leb_le in H2. lia.
Qed.

Lemma inClass_intro lo hi c :
  (nat_of_ascii lo <= nat_of_ascii c <= nat_of_ascii hi)%nat ->
  inClass lo hi c = true.
Proof.
  intros [H1 H2]. unfold inClass. apply andb_true_iff.
  split; apply Nat.leb_le; assumption.
Qed.

Lemma inClass_wider lo hi lo' hi' c :
  (nat_of_ascii lo' <= nat_of_ascii lo)%nat ->
  (nat_of_ascii hi <= nat_of_ascii hi')%nat ->
  inClass lo hi c = true -> inClass lo' hi' c = true.
Proof.
  intros Hlo Hhi H%inClass_bounds. apply inClass_intro. lia.
Qed.

Lemma allIn_wider lo hi lo' hi' s :
  (nat_of_ascii lo' <= nat_of_ascii lo)%nat ->
  (nat_of_ascii hi <= nat_of_ascii hi')%nat ->
  allIn lo hi s = true -> allIn lo' hi' s = true.
Proof.
  intros Hlo Hhi. induction s as [|c s IH]; simpl; [auto |].
  intros [H1 H2]%andb_true_iff. apply andb_true_iff.
  split; [eapply inClass_wider; eauto | auto].
Qed.

Lemma lang_Lit c s : lang (Lit c) s -> s = String c "".
Proof.
  intros (c' & -> & H%inClass_bounds).
  assert (Heq : nat_of_ascii c' = nat_of_ascii c) by lia.
  apply (f_equal ascii_of_nat) in Heq. rewrite !ascii_nat_embedding in Heq.
  rewrite Heq. reflexivity.
Qed.

Lemma lang_Star_Class lo hi s :
  lang (Star (Class lo hi)) s -> allIn lo hi s = true.
Proof.
  intros (ps & -> & Hps). induction Hps as [|p ps (c & -> & Hc) _ IH]; simpl.
  - reflexivity.
  - rewrite Hc. exact IH.
Qed.

Lemma lang_Plus_Class lo hi s :
  lang (Plus (Class lo hi)) s -> s <> "" /\ allIn lo hi s = true.
Proof.
  intros (s1 & s2 & -> & (c & -> & Hc) & H2). split; [discriminate |].
  simpl. rewrite Hc. apply lang_Star_Class. exact H2.
Qed.

Lemma lang_sign s : lang sign s -> isSign s.
Proof.
  unfold isSign. intros [[H|H]|H].
  - apply lang_Lit in H. auto.
  - apply lang_Lit in H. auto.
  - simpl in H. auto.
Qed.

Lemma lang_fraction hi s :
  lang (Opt (Cat (Lit ".") (Plus (Class "0" hi)))) s -> isFraction hi s.
Proof.
  intros [(s1 & s2 & -> & H1 & H2)|H]; [right | left; exact H].
  apply lang_Lit in H1. subst s1. apply lang_Plus_Class in H2 as [Hne Hall].
  exists s2. auto.
Qed.

Lemma isFraction_wider s : isFraction "0" s -> isFraction "9" s.
Proof.
  intros [->|(d & -> & Hne & Hall)]; [left; reflexivity | right].
  exists d. split; [reflexivity |]. split; [assumption |].
  apply (allIn_wider "0" "0"); auto; apply Nat.leb_le; reflexivity.
Qed.

Ltac codes :=
  repeat match goal with
  | H : context [nat_of_ascii (Ascii ?a ?b ?c ?d ?e ?f ?g ?h)] |- _ =>
      let v := eval vm_compute in (nat_of_ascii (Ascii a b c d e f g h)) in
      change (nat_of_ascii (Ascii a b c d e f g h)) with v in H
  | |- context [nat_of_ascii (Ascii ?a ?b ?c ?d ?e ?f ?g ?h)] =>
      let v := eval vm_compute in (nat_of_ascii (Ascii a b c d e f g h)) in
      change (nat_of_ascii (Ascii a b c d e f g h)) with v
  end.

Ltac bounds :=
  repeat match goal with
  | H : inClass _ _ _ = true |- _ => apply inClass_bounds in H
  end; codes.

Ltac digits2 Hd a lo hi :=
  simpl; rewrite Hd, (inClass_wider lo hi "0" "9" a); auto;
  apply Nat.leb_le; reflexivity.

Lemma code_ascii c n : nat_of_ascii c = n -> c = ascii_of_nat n.
Proof. intros <-. symmetry. apply ascii_nat_embedding. Qed.

Lemma canonical_one c : canonical (String c "").
Proof. left. reflexivity. Qed.

Lemma canonical_from lo hi c rest :
  (0 < nat_of_ascii lo - 48)%nat -> inClass lo hi c = true ->
  canonical (String c rest).
Proof.
  intros Hlo Hc%inClass_bounds. right. exists c, rest. split; [reflexivity |].
  intros ->. change (nat_of_ascii "0") with 48%nat in Hc. lia.
Qed.

(** Accepted strings are numerals of the range. *)
Lemma Latitude_numeral s :
  MatchString Latitude s = true -> numeralWithin 2 90 s.
Proof.
  intros H%matches_lang.
  destruct H as (sg & body & -> & Hsg%lang_sign & Hbody).
  destruct Hbody as [(s1 & s2 & -> & H1 & (s3 & fr & -> & (d & -> & Hd) & Hfr))
                    |(s1 & s2 & -> & E1%lang_Lit & (s3 & fr & -> & E2%lang_Lit & Hfr))];
    subst.
  - apply (lang_fraction "9") in Hfr.
    destruct H1 as [(a & -> & Ha)|H1]; [| simpl in H1; subst s1].
    + exists sg, (String a (String d "")), fr.
      split; [reflexivity |]. split; [assumption |].
      split; [| split; [simpl; lia |]].
      { digits2 Hd a "1"%char "8"%char. }
      split; [apply (canonical_from "1" "8"); [vm_compute; lia | assumption] |].
      split; [assumption |].
      left. unfold value. simpl valueFrom. bounds. lia.
    + exists sg, (String d ""), fr.
      split; [reflexivity |]. split; [assumption |].
      split; [| split; [simpl; lia |]].
      { simpl. rewrite Hd. reflexivity. }
      split; [apply canonical_one |]. split; [assumption |].
      left. unfold value. simpl valueFrom. bounds. lia.
  - apply (lang_fraction "0") in Hfr.
    exists sg, "90"%string, fr.
    split; [reflexivity |]. split; [assumption |].
    split; [reflexivity |]. split; [simpl; lia |].
    split; [right; exists "9"%char, "0"%string; split; [reflexivity | discriminate] |].
    split; [apply isFraction_wider; assumption |].
    right. split; [reflexivity | assumption].
Qed.

Lemma Longitude_numeral s :
  MatchString Longitude s = true -> numeralWithin 3 180 s.
Proof.
  intros H%matches_lang.
  destruct H as (sg & body & -> & Hsg%lang_sign & Hbody).
  destruct Hbody as [(s1 & s2 & -> & E1%lang_Lit & (s3 & s4 & -> & E2%lang_Lit &
                       (s5 & fr & -> & E3%lang_Lit & Hfr)))
                    |(int & fr & -> & Hint & Hfr)]; subst.
  - apply (lang_fraction "0") in Hfr.
    exists sg, "180"%string, fr.
    split; [reflexivity |]. split; [assumption |].
    split; [reflexivity |]. split; [simpl; lia |].
    split; [right; exists "1"%char, "80"%string; split; [reflexivity | discriminate] |].
    split; [apply isFraction_wider; assumption |].
    right. split; [reflexivity | assumption].
  - apply (lang_fraction "9") in Hfr.
    destruct Hint as [(s1 & s2 & -> & E1%lang_Lit & (s3 & s4 & -> & (a & -> & Ha) &
                         (d & -> & Hd)))
                     |(s1 & s2 & -> & H1 & (d & -> & Hd))]; subst.
    + exists sg, (String "1" (String a (String d ""))), fr.
      split; [reflexivity |]. split; [assumption |].
      split; [| split; [simpl; lia |]].
      { digits2 Hd a "0"%char "7"%char. }
      split; [right; exists "1"%char, (String a (String d ""));
              split; [reflexivity | discriminate] |].
      split; [assumption |].
      left. unfold value. simpl valueFrom. bounds. lia.
    + destruct H1 as [(a & -> & Ha)|H1]; [| simpl in H1; subst s1].
      * exists sg, (String a (String d "")), fr.
        split; [reflexivity |]. split; [assumption |].
        split; [| split; [simpl; lia |]].
        { digits2 Hd a "1"%char "9"%char. }
        split; [apply (canonical_from "1" "9"); [vm_compute; lia | assumption] |].
        split; [assumption |].
        left. unfold value. simpl valueFrom. bounds. lia.
      * exists sg, (String d ""), fr.
        split; [reflexivity |]. split; [assumption |].
        split; [| split; [simpl; lia |]].
        { simpl. rewrite Hd. reflexivity. }
        split; [apply canonical_one |]. split; [assumption |].
        left. unfold value. simpl valueFrom. bounds. lia.
Qed.

(** *** Building matches *)

Lemma allIn_Star lo hi s : allIn lo hi s = true -> lang (Star (Class lo hi)) s.
Proof.
  induction s as [|c s IH]; simpl.
  - intros _. exists []. auto.
  - intros [Hc Hs]%andb_true_iff. destruct (IH Hs) as (ps & -> & Hps).
    exists (String c "" :: ps). split; [reflexivity |].
    apply Forall_cons. split; [exists c; auto | assumption].
Qed.

Lemma fraction_lang hi s :
  isFraction hi s -> lang (Opt (Cat (Lit ".") (Plus (Class "0" hi)))) s.
Proof.
  intros [-> | (d & -> & Hne & Hall)]; [right; reflexivity | left].
  exists "."%string, d. split; [reflexivity |].
  split; [exists "."%char; split; [reflexivity | reflexivity] |].
  destruct d as [|c d]; [contradiction |]. simpl in Hall.
  apply andb_true_iff in Hall as [Hc Hd].
  exists (String c ""), d. split; [reflexivity |].
  split; [exists c; auto | apply allIn_Star; assumption].
Qed.

Lemma sign_lang s : isSign s -> lang sign s.
Proof.
  intros [-> | [-> | ->]].
  - right. reflexivity.
  - left. left. exists "-"%char. split; reflexivity.
  - left. right. exists "+"%char. split; reflexivity.
Qed.

Lemma Lit_lang c : lang (Lit c) (String c "").
Proof.
  exists c. split; [reflexivity |]. apply inClass_intro. lia.
Qed.

Lemma Class_lang lo hi c :
  (nat_of_ascii lo <= nat_of_ascii c <= nat_of_ascii hi)%nat ->
  lang (Class lo hi) (String c "").
Proof. intros H. exists c. split; [reflexivity | apply inClass_intro; assumption]. Qed.

Lemma canonical_first c rest :
  rest <> "" -> canonical (String c rest) -> inClass "0" "9" c = true ->
  (49 <= nat_of_ascii c <= 57)%nat.
Proof.
  intros Hrest [Hlen|(c' & rest' & [= <- <-] & Hne)] Hc%inClass_bounds.
  - destruct rest; [contradiction | discriminate].
  - codes. destruct (Nat.eq_dec (nat_of_ascii c) 48%nat) as [E|E]; [| lia].
    apply code_ascii in E. contradiction.
Qed.

Lemma numeral_Latitude s :
  numeralWithin 2 90 s -> MatchString Latitude s = true.
Proof.
  intros (sg & int & fr & -> & Hsg & Hint & Hlen & Hcan & Hfr & Hval).
  apply MatchString_lang. exists sg, (int +:+ fr).
  split; [reflexivity |]. split; [apply sign_lang; assumption |].
  destruct int as [|a [|d [|x int]]]; simpl in Hlen; try lia.
  - (* one digit *)
    simpl in Hint. apply andb_true_iff in Hint as [Ha _].
    left. exists ""%string, (String a fr). split; [reflexivity |].
    split; [right; reflexivity |].
    exists (String a ""), fr. split; [reflexivity |].
    split; [exists a; auto | apply fraction_lang; assumption].
  - (* two digits *)
    simpl in Hint. apply andb_true_iff in Hint as [Ha Hint].
    apply andb_true_iff in Hint as [Hd _].
    pose proof (canonical_first a (String d "") ltac:(discriminate) Hcan Ha) as Ha1.
    pose proof Hd as Hd'. apply inClass_bounds in Hd'. codes.
    unfold value in Hval. simpl valueFrom in Hval.
    destruct Hval as [Hlt|[Heq Hz]].
    + left. exists (String a ""), (String d fr). split; [reflexivity |].
      split; [left; apply Class_lang; codes; lia |].
      exists (String d ""), fr. split; [reflexivity |].
      split; [exists d; auto | apply fraction_lang; assumption].
    + assert (Ea : nat_of_ascii a = 57%nat) by lia.
      assert (Ed : nat_of_ascii d = 48%nat) by lia.
      apply code_ascii in Ea, Ed. subst a d.
      right. exists "9"%string, (String "0" fr). split; [reflexivity |].
      split; [apply Lit_lang |].
      exists "0"%string, fr. split; [reflexivity |].
      split; [apply Lit_lang | apply (fraction_lang "0"); assumption].
Qed.

Lemma numeral_Longitude s :
  numeralWithin 3 180 s -> MatchString Longitude s = true.
Proof.
  intros (sg & int & fr & -> & Hsg & Hint & Hlen & Hcan & Hfr & Hval).
  apply MatchString_lang. exists sg, (int +:+ fr).
  split; [reflexivity |]. split; [apply sign_lang; assumption |].
  destruct int as [|a [|b [|d [|x int]]]]; simpl in Hlen; try lia.
  - (* one digit *)
    simpl in Hint. apply andb_true_iff in Hint as [Ha _].
    right. exists (String a ""), fr. split; [reflexivity |].
    split; [| apply fraction_lang; assumption].
    right. exists ""%string, (String a ""). split; [reflexivity |].
    split; [right; reflexivity | exists a; auto].
  - (* two digits *)
    simpl in Hint. apply andb_true_iff in Hint as [Ha Hint].
    apply andb_true_iff in Hint as [Hb _].
    pose proof (canonical_first a (String b "") ltac:(discriminate) Hcan Ha) as Ha1.
    right. exists (String a (String b "")), fr. split; [reflexivity |].
    split; [| apply fraction_lang; assumption].
    right. exists (String a ""), (String b ""). split; [reflexivity |].
    split; [left; apply Class_lang; codes; lia | exists b; auto].
  - (* three digits *)
    simpl in Hint. apply andb_true_iff in Hint as [Ha Hint].
    apply andb_true_iff in Hint as [Hb Hint].
    apply andb_true_iff in Hint as [Hd _].
    pose proof (canonical_first a (String b (String d "")) ltac:(discriminate)
                  Hcan Ha) as Ha1.
    pose proof Hb as Hb'. apply inClass_bounds in Hb'.
    pose proof Hd as Hd'. apply inClass_bounds in Hd'. codes.
    unfold value in Hval. simpl valueFrom in Hval.
    destruct Hval as [Hlt|[Heq Hz]].
    + assert (Ea : nat_of_ascii a = 49%nat) by lia.
      apply code_ascii in Ea. subst a.
      right. exists (String "1" (String b (String d ""))), fr.
      split; [reflexivity |]. split; [| apply fraction_lang; assumption].
      left. exists "1"%string, (String b (String d "")). split; [reflexivity |].
      split; [apply Lit_lang |].
      exists (String b ""), (String d ""). split; [reflexivity |].
      split; [apply Class_lang; codes; simpl in Hlt; lia | exists d; auto].
    + assert (Ea : nat_of_ascii a = 49%nat) by lia.
      assert (Eb : nat_of_ascii b = 56%nat) by lia.
      assert (Ed : nat_of_ascii d = 48%nat) by lia.
      apply code_ascii in Ea, Eb, Ed. subst a b d.
      left. exists "1"%string, (String "8" (String "0" fr)). split; [reflexivity |].
      split; [apply Lit_lang |].
      exists "8"%string, (String "0" fr). split; [reflexivity |].
      split; [apply Lit_lang |].
      exists "0"%string, fr. split; [reflexivity |].
      split; [apply Lit_lang | apply (fraction_lang "0"); assumption].
Qed.

(** X15: the pattern Latitude accepts exactly the decimal numerals of
    the range of a latitude: [MatchString] holds if and only if the
    string is an optional sign, one or two digits without leading zero
    and an optional fraction (a point and at least one digit), and the
    number it denotes lies between -90 and 90: the digits before the
    point denote less than 90, or they denote 90 and the fraction, if
    any, has zeros only. *)
Theorem Latitude_accepts_latitudes s :
  MatchString Latitude s = true <-> numeralWithin 2 90 s.
Proof. split; [apply Latitude_numeral | apply numeral_Latitude]. Qed.

(** X16: the pattern Longitude accepts exactly the decimal numerals of
    the range of a longitude: [MatchString] holds if and only if the
    string is an optional sign, one to three digits without leading zero
    and an optional fraction, and the number it denotes lies between
    -180 and 180. *)
Theorem Longitude_accepts_longitudes s :
  MatchString Longitude s = true <-> numeralWithin 3 180 s.
Proof. split; [apply Longitude_numeral | apply numeral_Longitude]. Qed.

End RegexpFacts.

(* ================================================================= *)
(** ** The handlers images and area *)

Module HandlersFacts.
Import Regexp RegexpFacts Handlers.

Section Requests.
Context {float64 : Type}.
Variable format6 : float64 -> string.
Variable parseForm : option error.
Variable Form : string -> string.
Variable geocode : string -> geocoded (float64 := float64).
Variable newClient : option error.
Variable granules : string -> string -> idRead.
Variable folders : string -> string -> string -> string -> Query.readResult.
Variable encodeLinks : list string -> option error.
Variable encodeCount : Z -> option error.
Variable pool : list string -> Pool.Result.

Local Abbreviation images :=
  (Handlers.images format6 parseForm Form geocode newClient granules encodeLinks).
Local Abbreviation area :=
  (Handlers.area parseForm Form newClient folders encodeCount pool).
Local Abbreviation countImages :=
  (Handlers.countImages newClient folders encodeCount pool).

(** X17: [images] checks the coordinates with [&&].  When the form
    parses and no address is given, or its lookup fails, so that the
    parameters lat and lng are used: [images] answers 400 "Invalid
    coordinates" exactly when lat fails the pattern Latitude and lng
    fails the pattern Longitude.  A request of which one coordinate is
    valid is not rejected, whatever the other one is. *)
Theorem images_rejects_only_both_invalid la ln e :
  parseForm = None ->
  convertAddressToCoords format6 (Form "address") (geocode (Form "address"))
    = Returns (la, ln, Some e) ->
  images = Returns (Some invalidCoordinates) <->
  MatchString Latitude (Form "lat") = false /\
  MatchString Longitude (Form "lng") = false.
Proof.
  intros Hparse Hconv. unfold Handlers.images. rewrite Hparse, Hconv.
  destruct (MatchString Latitude (Form "lat")) eqn:Hlat;
    destruct (MatchString Longitude (Form "lng")) eqn:Hlng; simpl.
  4: { split; [intros _; split; reflexivity | intros _; reflexivity]. }
  all: split; [| intros [H1 H2]; discriminate].
  all: destruct (getLinks newClient (granules (Form "lat") (Form "lng")))
         as [|[links [err|]]]; try discriminate;
       destruct (encodeLinks links); discriminate.
Qed.

(** X18: [area] queries with numerals only.  When the form parses,
    [area] either answers 400 "Invalid coordinates", or all four
    parameters are decimal numerals, lat1 and lat2 between -90 and 90,
    lng1 and lng2 between -180 and 180, and its answer is that of the
    query and the pool for these four: nothing else is ever spliced into
    the query text. *)
Theorem area_queries_numerals_only :
  parseForm = None ->
  area = Some invalidBands \/
  (numeralWithin 2 90 (Form "lat1") /\ numeralWithin 3 180 (Form "lng1") /\
   numeralWithin 2 90 (Form "lat2") /\ numeralWithin 3 180 (Form "lng2") /\
   area = countImages (Form "lat1") (Form "lng1") (Form "lat2") (Form "lng2")).
Proof.
  intros Hparse. unfold Handlers.area. rewrite Hparse.
  destruct (MatchString Latitude (Form "lat1")) eqn:H1; [| left; reflexivity].
  destruct (MatchString Latitude (Form "lat2")) eqn:H2; [| left; reflexivity].
  destruct (MatchString Longitude (Form "lng1")) eqn:H3; [| left; reflexivity].
  destruct (MatchString Longitude (Form "lng2")) eqn:H4; [| left; reflexivity].
  right. simpl.
  split; [apply Latitude_numeral; assumption |].
  split; [apply Longitude_numeral; assumption |].
  split; [apply Latitude_numeral; assumption |].
  split; [apply Longitude_numeral; assumption | reflexivity].
Qed.

(** X19: during an outage of the bucket [area] answers with the count 0.
    When the four parameters are valid, the query succeeds with rows of
    the public bucket, the storage client is created and every listing
    of the bucket fails, then whatever the schedule of the pool was,
    [area] encodes the count 0 and reports no error (unless the encoding
    itself fails). *)
Theorem area_counts_zero_in_outage objects rnd its cs s :
  parseForm = None ->
  MatchString Latitude (Form "lat1") = true ->
  MatchString Latitude (Form "lat2") = true ->
  MatchString Longitude (Form "lng1") = true ->
  MatchString Longitude (Form "lng2") = true ->
  newClient = None ->
  folders (Form "lat1") (Form "lng1") (Form "lat2") (Form "lng2") = Query.Rows its ->
  Forall Query.inBucket its ->
  (forall b o call, is_Some (snd (Pool.getImagesFromBucket objects b o call))) ->
  Pool.run objects rnd cs (Pool.pool None (fst (Query.collectLinks its [])))
    = Some s ->
  Pool.main s = Pool.Done (pool (fst (Query.collectLinks its []))) ->
  area = match encodeCount 0 with
         | Some _ => Some (mkAppError None "Unable to encode JSON"
                             StatusInternalServerError)
         | None => None
         end.
Proof.
  intros Hparse H1 H2 H3 H4 Hclient Hrows Hin Hfail Hrun Hdone.
  unfold Handlers.area, Handlers.countImages.
  rewrite Hparse, H1, H2, H3, H4, Hclient, Hrows. simpl.
  destruct (ListingFacts.collectLinks_ok its [] Hin) as (links & Hlinks & _ & Hwf).
  rewrite Hlinks in *. simpl in *.
  assert (Hwf' : Forall Pool.wellFormed links).
  { eapply Forall_impl; [exact Hwf |]. intros l [obj Hl].
    unfold Pool.wellFormed. rewrite Hl. eexists; reflexivity. }
  rewrite (LedgerFacts.outage_returns_empty objects rnd links cs s _
             Hwf' Hfail Hrun Hdone).
  reflexivity.
Qed.

End Requests.

Lemma images_rejects_only_both_invalid_witness :
  Handlers.images (fun _ : Z => ""%string) None exampleForm
    (fun _ => GetErr "no route to host") None (fun _ _ => IdRows [])
    (fun _ => None) = Returns (Some invalidCoordinates) <->
  MatchString Latitude "55.698473" = false /\
  MatchString Longitude "0 OR TRUE" = false.
Proof.
  exact (images_rejects_only_both_invalid (fun _ : Z => ""%string) None
           exampleForm (fun _ => GetErr "no route to host") None
           (fun _ _ => IdRows []) (fun _ => None)
           ""%string ""%string "Invalid address input"%string
           eq_refl eq_refl).
Defined.

Lemma area_queries_numerals_only_witness :
  Handlers.area None exampleForm None (fun _ _ _ _ => Query.Rows [])
    (fun _ => None) (fun _ => Pool.emptyResult) = Some invalidBands \/
  (numeralWithin 2 90 "55.698473" /\ numeralWithin 3 180 "12.506052" /\
   numeralWithin 2 90 "55.616879" /\ numeralWithin 3 180 "12.652524" /\
   Handlers.area None exampleForm None (fun _ _ _ _ => Query.Rows [])
     (fun _ => None) (fun _ => Pool.emptyResult) =
   Handlers.countImages None (fun _ _ _ _ => Query.Rows []) (fun _ => None)
     (fun _ => Pool.emptyResult) "55.698473" "12.506052" "55.616879" "12.652524").
Proof.
  exact (area_queries_numerals_only None exampleForm None
           (fun _ _ _ _ => Query.Rows []) (fun _ => None)
           (fun _ => Pool.emptyResult) eq_refl).
Defined.

Lemma area_counts_zero_in_outage_witness :
  Handlers.area None exampleForm None (fun _ _ _ _ => Query.Rows exampleRows)
    (fun _ => None) (fun _ => Pool.emptyResult) = None.
Proof.
  eapply (area_counts_zero_in_outage None exampleForm None
            (fun _ _ _ _ => Query.Rows exampleRows) (fun _ => None)
            (fun _ => Pool.emptyResult) Ledger.outage (fun _ => 7) exampleRows
            [Pool.Deliver 0; Pool.LeaveLoop 0; Pool.LeaveLoop 1;
             Pool.Collect 0; Pool.Collect 1]).
  - reflexivity.
  - reflexivity.
  - reflexivity.
  - reflexivity.
  - reflexivity.
  - reflexivity.
  - reflexivity.
  - apply Forall_cons. split; [| constructor].
    exists "/tiles/33/U/UP/S2A.SAFE"%string. reflexivity.
  - apply LedgerFacts.outage_fails.
  - vm_compute. reflexivity.
  - reflexivity.
Defined.

End HandlersFacts.
